(** * Laptop screen editor: the geometric core, embedded and verified

    A shallow embedding of the geometry kernel ([app/utils/geometry.py]),
    the perspective transformer ([app/core/perspective.py]), the region
    compositor ([app/core/screen_editor.py]) and the framing engine
    ([app/core/cropper.py], [app/core/resizer.py]), with the batch
    report of [app/pipeline/processor.py] and the file name filter of
    [app/utils/file_utils.py].

    Number model.
    - Python [int] is [Z].
    - Python [float] scalars (ratios, scale factors) are IEEE binary64
      values, Rocq's primitive [float]: [w / h], [w * scale] and
      [int(...)] round exactly as the interpreter does.
    - The coordinates a [Point] holds are rationals [Q], the values of
      the Python numbers.  The rows of a numpy points array are IEEE
      floats, [spec_float]: [Polygon.to_numpy] rounds each coordinate
      to float32, and sums, differences, products, square roots and
      comparisons of rows are the correctly rounded float32 (or, for a
      float64 array, binary64) operations of [SpecFloat].
    - Exceptions are [None] in [option].  A function whose body is one
      [try ... except Exception: return fallback] block is modelled as
      [f_try], the body of the [try], and [f := try_except f_try
      fallback]: [f_try ... = Some v] says that [v] was returned with no
      exception raised. *)

From Stdlib Require Import ZArith QArith Qround Qabs Lia Lqa List Bool Permutation.
From Stdlib Require Import Floats Uint63.
From Stdlib Require Import Reals Qreals Lra.
From Stdlib Require Strings.String Strings.Ascii.
Import ListNotations.

Local Open Scope Z_scope.

(** ** The exception monad *)

Definition raises {A : Type} : option A := None.

Definition bind {A B : Type} (c : option A) (k : A -> option B) : option B :=
  match c with
  | Some a => k a
  | None => None
  end.

Notation "x <- c ;; k" := (bind c (fun x => k))
  (at level 61, c at next level, right associativity).
Notation "' pat <- c ;; k" := (bind c (fun x => match x with pat => k end))
  (at level 61, pat pattern, c at next level, right associativity).

(** [try: body except: return fallback] *)
Definition try_except {A : Type} (body : option A) (fallback : A) : A :=
  match body with
  | Some a => a
  | None => fallback
  end.

(** ** Python numbers *)

Module Py.

(** [float(z)]: the binary64 value nearest to the integer [z], for
    [|z| < 2^63]. *)
Definition float_of_int (z : Z) : float :=
  if z <? 0 then (- PrimFloat.of_uint63 (Uint63.of_Z (- z)))%float
  else PrimFloat.of_uint63 (Uint63.of_Z z).

(** The integer part of a finite binary64 value [(-1)^s * m * 2^e],
    rounded toward zero. *)
Definition trunc_finite (s : bool) (m : positive) (e : Z) : Z :=
  let a := if 0 <=? e then Z.pos m * 2 ^ e else Z.pos m / 2 ^ (- e) in
  if s then - a else a.

(** [int(x)]: truncation toward zero; infinities and NaN raise. *)
Definition int_of_float (x : float) : option Z :=
  match Prim2SF x with
  | S754_zero _ => Some 0
  | S754_finite s m e => Some (trunc_finite s m e)
  | S754_infinity _ | S754_nan => raises
  end.

(** [math.floor(x)], the rounding the specification names. *)
Definition floor_of_float (x : float) : option Z :=
  match Prim2SF x with
  | S754_zero _ => Some 0
  | S754_finite s m e =>
      Some (if 0 <=? e then (if s then - Z.pos m else Z.pos m) * 2 ^ e
            else (if s then - Z.pos m else Z.pos m) / 2 ^ (- e))
  | S754_infinity _ | S754_nan => raises
  end.

(** [a / b] on two floats: [ZeroDivisionError] on a zero divisor. *)
Definition truediv (a b : float) : option float :=
  if PrimFloat.eqb b 0%float then raises else Some (a / b)%float.

(** [a / b] on two ints: the quotient of the two integers rounded
    once, which is the quotient of their binary64 values as long as
    both are below 2^53; [ZeroDivisionError] on a zero divisor. *)
Definition truediv_int (a b : Z) : option float :=
  if b =? 0 then raises else Some (float_of_int a / float_of_int b)%float.

(** [n * x] with an int and a float. *)
Definition mul_int_float (n : Z) (x : float) : float :=
  (float_of_int n * x)%float.

(** [min(a, b)]: [b] only when it is strictly smaller. *)
Definition min (a b : float) : float := if PrimFloat.ltb b a then b else a.

(** [a or b] on an optional int: [b] when [a] is [None] or zero. *)
Definition or_int (a : option Z) (b : Z) : Z :=
  match a with
  | Some v => if v =? 0 then b else v
  | None => b
  end.

End Py.

(** ** numpy floats

    A float of numpy is an IEEE value, kept as a [spec_float]: a zero,
    an infinity, NaN or [(-1)^s * m * 2^e].  The operations are the
    correctly rounded ones of [SpecFloat] at the precision of the dtype:
    24 bits for [np.float32], 53 bits for [np.float64]. *)

Module F32.

Definition t : Type := spec_float.

Definition add : t -> t -> t := SFadd 24 128.
Definition sub : t -> t -> t := SFsub 24 128.
Definition mul : t -> t -> t := SFmul 24 128.
Definition sqrt : t -> t := SFsqrt 24 128.

(** [np.float32(z)] for an int [z]. *)
Definition of_Z (z : Z) : t := binary_normalize 24 128 z 0 false.

(** [np.float32(v)] for a Python number of value [q]: the quotient of
    numerator and denominator, rounded once. *)
Definition of_Q (q : Q) : t :=
  match Qnum q with
  | 0 => S754_zero false
  | Z.pos n => SFdiv 24 128 (S754_finite false n 0) (S754_finite false (Qden q) 0)
  | Z.neg n => SFdiv 24 128 (S754_finite true n 0) (S754_finite false (Qden q) 0)
  end.

(** [x.astype(np.float32)] on a float64. *)
Definition of_float64 (x : spec_float) : t :=
  match x with
  | S754_finite s m e => binary_round 24 128 s m e
  | _ => x
  end.

(** [a < b]: false when either side is NaN. *)
Definition ltb : t -> t -> bool := SFltb.

(** [max(a, b)] of Python on two scalars: [b] only when [b > a]. *)
Definition max (a b : t) : t := if ltb a b then b else a.

(** [int(x)] on a numpy scalar: truncation toward zero; [ValueError] on
    NaN, [OverflowError] on an infinity. *)
Definition int (x : t) : option Z :=
  match x with
  | S754_zero _ => Some 0
  | S754_finite s m e => Some (Py.trunc_finite s m e)
  | S754_infinity _ | S754_nan => raises
  end.

(** [x.astype(np.int32)]: truncation toward zero.  For NaN, an infinity
    or a value outside the int32 range the C conversion is undefined;
    the value kept here is the one the x86 conversion gives. *)
Definition astype_int32 (x : t) : Z :=
  match int x with
  | Some n => if (- 2 ^ 31 <=? n) && (n <? 2 ^ 31) then n else - 2 ^ 31
  | None => - 2 ^ 31
  end.

End F32.

Module F64.

Definition add : spec_float -> spec_float -> spec_float := SFadd 53 1024.
Definition sub : spec_float -> spec_float -> spec_float := SFsub 53 1024.

(** [np.float64(z)] for an int [z]. *)
Definition of_Z (z : Z) : spec_float := binary_normalize 53 1024 z 0 false.

End F64.

(** ** numpy arrays *)

Module Np.

(** A two-dimensional array: its shape and its cells.  An image holds
    one RGB triple per cell, a mask one intensity. *)
Record ndarray (A : Type) : Type := mk_array {
  height : Z;
  width : Z;
  item : Z -> Z -> A
}.

Arguments mk_array {A} _ _ _.
Arguments height {A} _.
Arguments width {A} _.
Arguments item {A} _ _ _.

Definition shape {A : Type} (a : ndarray A) : Z * Z := (height a, width a).

(** [range(n)] *)
Definition range (n : Z) : list Z := map Z.of_nat (seq 0 (Z.to_nat n)).

(** One bound of a slice [a[start:stop]] over an axis of length [n]:
    a negative bound counts from the end, and both are clamped. *)
Definition slice_bound (n i : Z) : Z :=
  if i <? 0 then Z.max 0 (i + n) else Z.min i n.

(** The first index and the length of [a[start:stop]]. *)
Definition slice (n start stop : Z) : Z * Z :=
  let s := slice_bound n start in
  let e := slice_bound n stop in
  (s, Z.max 0 (e - s)).

(** [a[y0:y1, x0:x1]] *)
Definition crop {A : Type} (a : ndarray A) (y0 y1 x0 x1 : Z) : ndarray A :=
  let '(ys, yl) := slice (height a) y0 y1 in
  let '(xs, xl) := slice (width a) x0 x1 in
  mk_array yl xl (fun y x => item a (ys + y) (xs + x)).

(** [a[:, x0:x1]] and [a[y0:y1, :]] *)
Definition crop_cols {A : Type} (a : ndarray A) (x0 x1 : Z) : ndarray A :=
  let '(xs, xl) := slice (width a) x0 x1 in
  mk_array (height a) xl (fun y x => item a y (xs + x)).

Definition crop_rows {A : Type} (a : ndarray A) (y0 y1 : Z) : ndarray A :=
  let '(ys, yl) := slice (height a) y0 y1 in
  mk_array yl (width a) (fun y x => item a (ys + y) x).

(** Broadcasting one axis of a source onto a target axis: equal
    lengths, or a source of length one. *)
Definition broadcasts_to (src dst : Z) : bool := (src =? dst) || (src =? 1).

Definition broadcast_index (src i : Z) : Z := if src =? 1 then 0 else i.

(** [a[y0:y1, x0:x1] = src]: [ValueError] when the shapes do not
    broadcast. *)
Definition assign {A : Type} (a : ndarray A) (y0 y1 x0 x1 : Z) (src : ndarray A)
  : option (ndarray A) :=
  let '(ys, yl) := slice (height a) y0 y1 in
  let '(xs, xl) := slice (width a) x0 x1 in
  if broadcasts_to (height src) yl && broadcasts_to (width src) xl then
    Some (mk_array (height a) (width a)
            (fun y x =>
               if (ys <=? y) && (y <? ys + yl) && (xs <=? x) && (x <? xs + xl)
               then item src (broadcast_index (height src) (y - ys))
                             (broadcast_index (width src) (x - xs))
               else item a y x))
  else raises.

(** Broadcasting two axes of the operands of an elementwise operation. *)
Definition broadcast (a b : Z) : option Z :=
  if a =? b then Some a
  else if a =? 1 then Some b
  else if b =? 1 then Some a
  else raises.

(** An elementwise operation [f(a, b)] on two arrays. *)
Definition zip_with {A B C : Type} (f : A -> B -> C) (a : ndarray A) (b : ndarray B)
  : option (ndarray C) :=
  h <- broadcast (height a) (height b) ;;
  w <- broadcast (width a) (width b) ;;
  Some (mk_array h w
          (fun y x =>
             f (item a (broadcast_index (height a) y) (broadcast_index (width a) x))
               (item b (broadcast_index (height b) y) (broadcast_index (width b) x)))).

(** [a[sel > t] = src[sel > t]] with a boolean index of the shape of
    [sel]: [IndexError] unless [a] and [src] have that shape. *)
Definition assign_where_gt {A : Type} (a : ndarray A) (sel : ndarray Z) (t : Z)
  (src : ndarray A) : option (ndarray A) :=
  if (height a =? height sel) && (width a =? width sel)
     && (height src =? height sel) && (width src =? width sel)
  then Some (mk_array (height a) (width a)
               (fun y x => if t <? item sel y x then item src y x else item a y x))
  else raises.

(** [np.full((h, w, 3), color)]: negative dimensions raise. *)
Definition full {A : Type} (h w : Z) (color : A) : option (ndarray A) :=
  if (h <? 0) || (w <? 0) then raises else Some (mk_array h w (fun _ _ => color)).

(** [np.where(mask > t)]: the cells above the threshold, row by row,
    as (y, x) pairs. *)
Definition where_gt (mask : ndarray Z) (t : Z) : list (Z * Z) :=
  flat_map
    (fun y => map (fun x => (y, x))
                (filter (fun x => t <? item mask y x) (range (width mask))))
    (range (height mask)).

(** [array.min()] and [array.max()] of a non-empty index array. *)
Definition amin (l : list Z) : option Z :=
  match l with
  | [] => raises
  | v :: l' => Some (fold_left Z.min l' v)
  end.

Definition amax (l : list Z) : option Z :=
  match l with
  | [] => raises
  | v :: l' => Some (fold_left Z.max l' v)
  end.

(** [a < b] on exact numbers. *)
Definition Qltb (a b : Q) : bool := negb (Qle_bool b a).

(** The float dtypes of a points array. *)
Inductive dtype : Type := float32 | float64.

(** [a + b] and [a - b] on two cells of an array of dtype [d]. *)
Definition add (d : dtype) : spec_float -> spec_float -> spec_float :=
  match d with
  | float32 => F32.add
  | float64 => F64.add
  end.

Definition subtract (d : dtype) : spec_float -> spec_float -> spec_float :=
  match d with
  | float32 => F32.sub
  | float64 => F64.sub
  end.

(** The cast of a cell of dtype [d] stored into a float32 array. *)
Definition astype_float32 (d : dtype) (v : spec_float) : F32.t :=
  match d with
  | float32 => v
  | float64 => F32.of_float64 v
  end.

Definition isnan (v : spec_float) : bool :=
  match v with
  | S754_nan => true
  | _ => false
  end.

(** [np.argmin] of a float array: the scan keeps the first index of the
    smallest value, takes a cell [k] when [not (k >= best)], and stops
    at the first NaN, which it returns; an empty array raises. *)
Fixpoint argmin_from (ks : list spec_float) (i best_i : nat) (best : spec_float) : nat :=
  match ks with
  | [] => best_i
  | k :: ks' =>
      if isnan best then best_i
      else if negb (SFleb best k) then argmin_from ks' (S i) i k
      else argmin_from ks' (S i) best_i best
  end.

Definition argmin (ks : list spec_float) : option nat :=
  match ks with
  | [] => raises
  | k :: ks' => Some (argmin_from ks' 1%nat 0%nat k)
  end.

(** [np.argmax]: a cell [k] is taken when [not (k <= best)]. *)
Fixpoint argmax_from (ks : list spec_float) (i best_i : nat) (best : spec_float) : nat :=
  match ks with
  | [] => best_i
  | k :: ks' =>
      if isnan best then best_i
      else if negb (SFleb k best) then argmax_from ks' (S i) i k
      else argmax_from ks' (S i) best_i best
  end.

Definition argmax (ks : list spec_float) : option nat :=
  match ks with
  | [] => raises
  | k :: ks' => Some (argmax_from ks' 1%nat 0%nat k)
  end.

End Np.

Definition pixel : Type := Z * Z * Z.
Definition image : Type := Np.ndarray pixel.
Definition mask : Type := Np.ndarray Z.

(** ** Geometry kernel: points and polygons ([app/utils/geometry.py]) *)

Module Geometry.

(** [class Point]: the two numbers as Python holds them. *)
Record Point : Type := mkPoint { x : Q; y : Q }.

(** [class Polygon] *)
Record Polygon : Type := mkPolygon { points : list Point }.

(** The rows [[p.to_tuple() for p in self.points]] that
    [Polygon.to_numpy] hands to [np.array], one per point. *)
Definition to_numpy (p : Polygon) : list Point := points p.

Definition len (p : Polygon) : Z := Z.of_nat (length (points p)).

(** A row [[x, y]] of a points array. *)
Definition row : Type := spec_float * spec_float.

(** [np.array(rows, dtype=np.float32)]: what [Polygon.to_numpy]
    returns is [as_float32 (to_numpy p)], each coordinate rounded to
    float32. *)
Definition as_float32 (rows : list Point) : list row :=
  map (fun p => (F32.of_Q (x p), F32.of_Q (y p))) rows.

(** A row of two ints in a float32 array. *)
Definition of_ints (p : Z * Z) : row := (F32.of_Z (fst p), F32.of_Z (snd p)).

(** [a - b] on two float32 rows. *)
Definition sub (a b : row) : row := (F32.sub (fst a) (fst b), F32.sub (snd a) (snd b)).

(** [np.linalg.norm(v)] on a float32 row: [sqrt(v.dot(v))], a
    float32, the products, their sum and the root each rounded.  (A
    dot product kernel that fuses the second product into the sum
    gives the same value whenever the products are exact, as they are
    for whole numbers below 4096.) *)
Definition norm (v : row) : F32.t :=
  F32.sqrt (F32.add (F32.mul (fst v) (fst v)) (F32.mul (snd v) (snd v))).

(** [points.sum(axis=1)] and [np.diff(points, axis=1)], row by row,
    in the dtype of the array. *)
Definition sum (d : Np.dtype) (p : row) : spec_float := Np.add d (fst p) (snd p).
Definition diff (d : Np.dtype) (p : row) : spec_float := Np.subtract d (snd p) (fst p).

(** [rect[i] = points[j]]: a row of an array of dtype [d] stored into
    the float32 array [rect]. *)
Definition store (d : Np.dtype) (r : row) : row :=
  (Np.astype_float32 d (fst r), Np.astype_float32 d (snd r)).

(** [order_points] on an array of dtype [d]:
    [top-left, top-right, bottom-right, bottom-left]. *)
Definition order_points (d : Np.dtype) (pts : list row) : option (list row) :=
  let s := map (sum d) pts in
  i0 <- Np.argmin s ;;
  i2 <- Np.argmax s ;;
  let diff := map (diff d) pts in
  i1 <- Np.argmin diff ;;
  i3 <- Np.argmax diff ;;
  r0 <- nth_error pts i0 ;;
  r2 <- nth_error pts i2 ;;
  r1 <- nth_error pts i1 ;;
  r3 <- nth_error pts i3 ;;
  Some (map (store d) [r0; r1; r2; r3]).

(** [calculate_perspective_size] *)
Definition calculate_perspective_size (d : Np.dtype) (pts : list row) : option (Z * Z) :=
  rect <- order_points d pts ;;
  match rect with
  | [tl; tr; br; bl] =>
      let width_a := norm (sub br bl) in
      let width_b := norm (sub tr tl) in
      max_width <- F32.int (F32.max width_a width_b) ;;
      let height_a := norm (sub tr br) in
      let height_b := norm (sub tl bl) in
      max_height <- F32.int (F32.max height_a height_b) ;;
      Some (max_width, max_height)
  | _ => raises
  end.

(** A contour as OpenCV returns it: integer pixel positions [(x, y)]. *)
Definition contour : Type := list (Z * Z).

End Geometry.

(** ** The numeric back end

    OpenCV and the pixel arithmetic of numpy are outside the
    repository.  What the code relies on is kept as an interface: the
    shape and error behaviour of each call is modelled below, the
    sample values it produces are the back end's. *)

Class Backend : Type := {
  (** a 3x3 transform *)
  matrix : Type;
  (** [cv2.resize]: the sample at [(y, x)] of the [w] by [h] output *)
  resize_sample : Z -> image -> Z -> Z -> Z -> Z -> pixel;
  (** [cv2.getPerspectiveTransform(src, dst)]; [None] is [cv2.error] *)
  getPerspectiveTransform :
    list Geometry.row -> list Geometry.row -> option matrix;
  (** [cv2.warpPerspective]: the sample at [(y, x)] of the output *)
  warp_sample : image -> matrix -> Z -> Z -> pixel;
  (** [cv2.warpPerspective] with a size [(w, h)] that is not positive:
      an image of the size of the source in current OpenCV, an error
      for some sizes in older ones *)
  warp_empty_size : image -> matrix -> Z -> Z -> option image;
  (** [cv2.findHomography(src, dst, cv2.RANSAC)]: the outer [None] is
      [cv2.error], the inner one a [None] matrix *)
  findHomography :
    list Geometry.Point -> list Geometry.Point -> option (option matrix);
  (** [cv2.findContours(mask, RETR_EXTERNAL, CHAIN_APPROX_SIMPLE)] *)
  findContours : mask -> list Geometry.contour;
  (** [cv2.contourArea]: the shoelace area of integer points, a
      half-integer, kept exact *)
  contourArea : Geometry.contour -> Q;
  arcLength : Geometry.contour -> bool -> float;
  approxPolyDP : Geometry.contour -> float -> bool -> Geometry.contour;
  (** [cv2.GaussianBlur(region, (5, 5), 0) / 255.0], one weight per cell *)
  blur_weight : mask -> Z -> Z -> float;
  (** [(content * weight + original * (1 - weight)).astype(np.uint8)] *)
  blend : pixel -> float -> pixel -> pixel
}.

Module Cv2.

Definition INTER_AREA : Z := 3.
Definition INTER_LANCZOS4 : Z := 4.

Definition is_empty {A : Type} (a : Np.ndarray A) : bool :=
  (Np.height a <=? 0) || (Np.width a <=? 0).

(** [cv2.resize(src, (w, h), interpolation=interp)]: an empty source or
    an empty size is a [cv2.error]. *)
Definition resize `{Backend} (src : image) (w h : Z) (interp : Z) : option image :=
  if is_empty src || (w <=? 0) || (h <=? 0) then raises
  else Some (Np.mk_array h w (resize_sample interp src w h)).

(** [cv2.warpPerspective(src, M, (w, h))]: an empty source is a
    [cv2.error]; a positive size is the size of the output. *)
Definition warpPerspective `{Backend} (src : image) (M : matrix) (w h : Z)
  : option image :=
  if is_empty src then raises
  else if (w <=? 0) || (h <=? 0) then warp_empty_size src M w h
       else Some (Np.mk_array h w (warp_sample src M)).

End Cv2.

(** ** Geometry kernel, continued: mask to polygon *)

Module GeometryMask.

Import Geometry.

(** [max(contours, key=cv2.contourArea)]: the first contour of the
    largest area. *)
Fixpoint max_by_area `{Backend} (best : contour) (rest : list contour) : contour :=
  match rest with
  | [] => best
  | c :: rest' =>
      if Np.Qltb (contourArea best) (contourArea c)
      then max_by_area c rest'
      else max_by_area best rest'
  end.

(** [(float(p[0][0]), float(p[0][1]))] *)
Definition to_point (p : Z * Z) : Point := mkPoint (inject_Z (fst p)) (inject_Z (snd p)).

(** [mask_to_polygon(mask, epsilon_factor)] *)
Definition mask_to_polygon `{Backend} (m : mask) (epsilon_factor : float)
  : option Polygon :=
  match findContours m with
  | [] => None
  | c :: contours =>
      let largest_contour := max_by_area c contours in
      let epsilon := (epsilon_factor * arcLength largest_contour true)%float in
      let approx := approxPolyDP largest_contour epsilon true in
      Some (mkPolygon (map to_point approx))
  end.

End GeometryMask.

(** ** Perspective transformer ([app/core/perspective.py]) *)

Module PerspectiveTransformer.

Import Geometry.

(** The corners of the [width] by [height] target rectangle, a
    float32 array. *)
Definition dst_points (width height : Z) : list row :=
  [ (F32.of_Z 0, F32.of_Z 0);
    (F32.of_Z (width - 1), F32.of_Z 0);
    (F32.of_Z (width - 1), F32.of_Z (height - 1));
    (F32.of_Z 0, F32.of_Z (height - 1)) ].

(** The size computed by [correct_perspective_distortion]: the natural
    estimate, constrained to the target ratio when one is given. *)
Definition corrected_size (ordered : list row) (target_aspect_ratio : option float)
  : option (Z * Z) :=
  match target_aspect_ratio with
  | Some target =>
      '(width, height) <- calculate_perspective_size Np.float32 ordered ;;
      current_ratio <- Py.truediv_int width height ;;
      if PrimFloat.ltb target current_ratio then
        width' <- Py.int_of_float (Py.mul_int_float height target) ;;
        Some (width', height)
      else
        q <- Py.truediv (Py.float_of_int width) target ;;
        height' <- Py.int_of_float q ;;
        Some (width, height')
  | None => calculate_perspective_size Np.float32 ordered
  end.

(** [PerspectiveTransformer.correct_perspective_distortion] *)
Definition correct_perspective_distortion_try `{Backend} (img : image) (polygon : Polygon)
  (target_aspect_ratio : option float) : option (option image) :=
  if len polygon <? 4 then Some None
  else
    let pts := firstn 4 (as_float32 (to_numpy polygon)) in
    ordered <- order_points Np.float32 pts ;;
    '(width, height) <- corrected_size ordered target_aspect_ratio ;;
    M <- getPerspectiveTransform ordered (dst_points width height) ;;
    corrected <- Cv2.warpPerspective img M width height ;;
    Some (Some corrected).

Definition correct_perspective_distortion `{Backend} (img : image) (polygon : Polygon)
  (target_aspect_ratio : option float) : option image :=
  try_except (correct_perspective_distortion_try img polygon target_aspect_ratio) None.

(** [PerspectiveTransformer.apply_homography]; [output_shape] is
    [(height, width)]. *)
Definition apply_homography_try `{Backend} (img : image)
  (src_points dst_points : list Point) (output_shape : Z * Z) : option (option image) :=
  if negb (length src_points =? 4)%nat || negb (length dst_points =? 4)%nat
  then Some None
  else
    found <- findHomography src_points dst_points ;;
    match found with
    | None => Some None
    | Some M =>
        warped <- Cv2.warpPerspective img M (snd output_shape) (fst output_shape) ;;
        Some (Some warped)
    end.

Definition apply_homography `{Backend} (img : image)
  (src_points dst_points : list Point) (output_shape : Z * Z) : option image :=
  try_except (apply_homography_try img src_points dst_points output_shape) None.

End PerspectiveTransformer.

(** ** Region compositor ([app/core/screen_editor.py]) *)

Module ScreenEditor.

(** [ScreenEditor.replace_screen_with_image] *)
Definition replace_screen_with_image_try `{Backend} (laptop_image : image) (m : mask)
  (screen_content : image) (blend_edges : bool) : option image :=
  let result := laptop_image in
  let cells := Np.where_gt m 127 in
  let y_indices := map fst cells in
  let x_indices := map snd cells in
  if (length y_indices =? 0)%nat || (length x_indices =? 0)%nat
  then Some laptop_image
  else
    x_min <- Np.amin x_indices ;;
    x_max <- Np.amax x_indices ;;
    y_min <- Np.amin y_indices ;;
    y_max <- Np.amax y_indices ;;
    let width := x_max - x_min in
    let height := y_max - y_min in
    screen_resized <- Cv2.resize screen_content width height Cv2.INTER_LANCZOS4 ;;
    let mask_region := Np.crop m y_min y_max x_min x_max in
    let region := Np.crop result y_min y_max x_min x_max in
    if blend_edges then
      if Cv2.is_empty mask_region then raises
      else
        let mask_blurred :=
          Np.mk_array (Np.height mask_region) (Np.width mask_region)
            (blur_weight mask_region) in
        content_part <- Np.zip_with pair screen_resized mask_blurred ;;
        region_part <- Np.zip_with pair region mask_blurred ;;
        blended <- Np.zip_with (fun c r => blend (fst c) (snd c) (fst r))
                     content_part region_part ;;
        Np.assign result y_min y_max x_min x_max blended
    else
      replaced <- Np.assign_where_gt region mask_region 127 screen_resized ;;
      Np.assign result y_min y_max x_min x_max replaced.

Definition replace_screen_with_image `{Backend} (laptop_image : image) (m : mask)
  (screen_content : image) (blend_edges : bool) : image :=
  try_except (replace_screen_with_image_try laptop_image m screen_content blend_edges)
    laptop_image.

End ScreenEditor.

(** ** Framing engine: cropping ([app/core/cropper.py]) *)

Module ImageCropper.

(** The literal [0.01]. *)
Definition tolerance : float := 0x1.47ae147ae147bp-7%float.

(** [ImageCropper.crop_to_aspect_ratio] *)
Definition crop_to_aspect_ratio_try (img : image) (aspect_ratio : float)
  (from_center : bool) : option image :=
  let h := Np.height img in
  let w := Np.width img in
  current_ratio <- Py.truediv_int w h ;;
  if PrimFloat.ltb (abs (current_ratio - aspect_ratio)) tolerance then Some img
  else if PrimFloat.ltb aspect_ratio current_ratio then
    new_width <- Py.int_of_float (Py.mul_int_float h aspect_ratio) ;;
    let x_start := if from_center then (w - new_width) / 2 else 0 in
    Some (Np.crop_cols img x_start (x_start + new_width))
  else
    q <- Py.truediv (Py.float_of_int w) aspect_ratio ;;
    new_height <- Py.int_of_float q ;;
    let y_start := if from_center then (h - new_height) / 2 else 0 in
    Some (Np.crop_rows img y_start (y_start + new_height)).

Definition crop_to_aspect_ratio (img : image) (aspect_ratio : float)
  (from_center : bool) : image :=
  try_except (crop_to_aspect_ratio_try img aspect_ratio from_center) img.

End ImageCropper.

(** ** Framing engine: resizing ([app/core/resizer.py]) *)

Module ImageResizer.

(** [ImageResizer.resize] *)
Definition resize_try `{Backend} (img : image) (width height : option Z)
  (maintain_aspect : bool) (interpolation : Z) : option image :=
  let h := Np.height img in
  let w := Np.width img in
  match width, height with
  | None, None => Some img
  | _, _ =>
      '(new_w, new_h) <-
        (if maintain_aspect then
           match width, height with
           | Some width, Some height =>
               scale_w <- Py.truediv_int width w ;;
               scale_h <- Py.truediv_int height h ;;
               let scale := Py.min scale_w scale_h in
               new_w <- Py.int_of_float (Py.mul_int_float w scale) ;;
               new_h <- Py.int_of_float (Py.mul_int_float h scale) ;;
               Some (new_w, new_h)
           | Some width, None =>
               scale <- Py.truediv_int width w ;;
               new_h <- Py.int_of_float (Py.mul_int_float h scale) ;;
               Some (width, new_h)
           | None, Some height =>
               scale <- Py.truediv_int height h ;;
               new_w <- Py.int_of_float (Py.mul_int_float w scale) ;;
               Some (new_w, height)
           | None, None => Some (w, h)
           end
         else Some (Py.or_int width w, Py.or_int height h)) ;;
      Cv2.resize img new_w new_h interpolation
  end.

Definition resize `{Backend} (img : image) (width height : option Z)
  (maintain_aspect : bool) (interpolation : Z) : image :=
  try_except (resize_try img width height maintain_aspect interpolation) img.

(** [ImageResizer.resize_to_fit] *)
Definition resize_to_fit_try `{Backend} (img : image) (target_width target_height : Z)
  (padding_color : pixel) (interpolation : Z) : option image :=
  let resized := resize img (Some target_width) (Some target_height) true interpolation in
  let h := Np.height resized in
  let w := Np.width resized in
  if (w =? target_width) && (h =? target_height) then Some resized
  else
    canvas <- Np.full target_height target_width padding_color ;;
    let x_offset := (target_width - w) / 2 in
    let y_offset := (target_height - h) / 2 in
    Np.assign canvas y_offset (y_offset + h) x_offset (x_offset + w) resized.

Definition resize_to_fit `{Backend} (img : image) (target_width target_height : Z)
  (padding_color : pixel) (interpolation : Z) : image :=
  try_except (resize_to_fit_try img target_width target_height padding_color interpolation)
    img.

(** [ImageResizer.resize_to_fill] *)
Definition resize_to_fill_try `{Backend} (img : image) (target_width target_height : Z)
  (interpolation : Z) : option image :=
  let h := Np.height img in
  let w := Np.width img in
  target_ratio <- Py.truediv_int target_width target_height ;;
  current_ratio <- Py.truediv_int w h ;;
  scale <- (if PrimFloat.ltb target_ratio current_ratio
            then Py.truediv_int target_height h
            else Py.truediv_int target_width w) ;;
  new_w <- Py.int_of_float (Py.mul_int_float w scale) ;;
  new_h <- Py.int_of_float (Py.mul_int_float h scale) ;;
  resized <- Cv2.resize img new_w new_h interpolation ;;
  let resized :=
    if target_width <? new_w then
      let x_start := (new_w - target_width) / 2 in
      Np.crop_cols resized x_start (x_start + target_width)
    else resized in
  let resized :=
    if target_height <? new_h then
      let y_start := (new_h - target_height) / 2 in
      Np.crop_rows resized y_start (y_start + target_height)
    else resized in
  Some resized.

Definition resize_to_fill `{Backend} (img : image) (target_width target_height : Z)
  (interpolation : Z) : image :=
  try_except (resize_to_fill_try img target_width target_height interpolation) img.

(** [ImageResizer.scale_by_factor] *)
Definition scale_by_factor_try `{Backend} (img : image) (scale_factor : float)
  (interpolation : Z) : option image :=
  if PrimFloat.leb scale_factor 0%float then Some img
  else
    let h := Np.height img in
    let w := Np.width img in
    new_w <- Py.int_of_float (Py.mul_int_float w scale_factor) ;;
    new_h <- Py.int_of_float (Py.mul_int_float h scale_factor) ;;
    if (new_w <=? 0) || (new_h <=? 0) then Some img
    else
      let interp := if PrimFloat.ltb scale_factor 1%float
                    then Cv2.INTER_AREA else interpolation in
      Cv2.resize img new_w new_h interp.

Definition scale_by_factor `{Backend} (img : image) (scale_factor : float)
  (interpolation : Z) : image :=
  try_except (scale_by_factor_try img scale_factor interpolation) img.

End ImageResizer.

(** ** A reference back end for concrete runs

    Nearest-neighbour sampling, the identity warp, and contour tracing
    reduced to the case the runs below need: the positive cells of a
    mask form one contour, which is its own approximation.  On a mask
    with a single positive cell this is what OpenCV returns. *)

Module Reference.

Definition nearest (interp : Z) (src : image) (w h y x : Z) : pixel :=
  Np.item src (y * Np.height src / h) (x * Np.width src / w).

Definition trace (m : mask) : list Geometry.contour :=
  match Np.where_gt m 0 with
  | [] => []
  | cells => [map (fun c => (snd c, fst c)) cells]
  end.

#[export] Instance backend : Backend := {|
  matrix := unit;
  resize_sample := nearest;
  getPerspectiveTransform := fun _ _ => Some tt;
  warp_sample := fun src _ y x => Np.item src y x;
  warp_empty_size := fun src _ _ _ => Some src;
  findHomography := fun _ _ => Some (Some tt);
  findContours := trace;
  contourArea := fun c => 0%Q;
  arcLength := fun _ _ => 0%float;
  approxPolyDP := fun c _ _ => c;
  blur_weight := fun m y x => (Py.float_of_int (Np.item m y x) / 255)%float;
  blend := fun content weight original =>
             if PrimFloat.ltb weight 0.5%float then original else content
|}.

Definition black : pixel := (0, 0, 0).
Definition white : pixel := (255, 255, 255).

(** [np.full((h, w, 3), color)] *)
Definition uniform (h w : Z) (color : pixel) : image := Np.mk_array h w (fun _ _ => color).

(** [np.zeros((h, w))] with the cells of the rectangle
    [y0..y1] by [x0..x1] (bounds included) set to 255. *)
Definition block_mask (h w y0 y1 x0 x1 : Z) : mask :=
  Np.mk_array h w
    (fun y x => if (y0 <=? y) && (y <=? y1) && (x0 <=? x) && (x <=? x1) then 255 else 0).

(** [np.zeros((h, w))] *)
Definition zero_mask (h w : Z) : mask := Np.mk_array h w (fun _ _ => 0).

(** A point with integer coordinates. *)
Definition pt (a b : Z) : Geometry.Point := Geometry.mkPoint (inject_Z a) (inject_Z b).

(** A float32 row and a float64 row with integer coordinates. *)
Definition grid (a b : Z) : Geometry.row := (F32.of_Z a, F32.of_Z b).
Definition grid64 (a b : Z) : Geometry.row := (F64.of_Z a, F64.of_Z b).

End Reference.

(** ** The words of the specification *)

Module Spec.

Import Geometry.

(** A quadrilateral with corners [tl], [tr], [br], [bl] is roughly
    axis-aligned when each side runs closer to its own axis than to the
    other one: the top and bottom sides rise less than they advance,
    the left and right sides drift less than they descend. *)
Record roughly_axis_aligned (tl tr br bl : Point) : Prop := {
  top_flat : (Qabs (y tr - y tl) < x tr - x tl)%Q;
  bottom_flat : (Qabs (y br - y bl) < x br - x bl)%Q;
  left_steep : (Qabs (x bl - x tl) < y bl - y tl)%Q;
  right_steep : (Qabs (x br - x tr) < y br - y tr)%Q
}.

(** The same four sides as the code measures them on an array of dtype
    [d], by the rounded sums [x + y] and differences [y - x] of its
    rows: along each side both keys grow or fall strictly, as they do
    on the exact coordinates of a roughly axis-aligned quadrilateral. *)
Record axis_aligned (d : Np.dtype) (tl tr br bl : row) : Prop := {
  top_sum : SFltb (sum d tl) (sum d tr) = true;
  top_diff : SFltb (diff d tr) (diff d tl) = true;
  bottom_sum : SFltb (sum d bl) (sum d br) = true;
  bottom_diff : SFltb (diff d br) (diff d bl) = true;
  left_sum : SFltb (sum d tl) (sum d bl) = true;
  left_diff : SFltb (diff d tl) (diff d bl) = true;
  right_sum : SFltb (sum d tr) (sum d br) = true;
  right_diff : SFltb (diff d tr) (diff d br) = true
}.

(** Cell [i] of the keys [ks] is the first NaN, or no key is NaN and
    cell [i] is the first of the smallest keys: the cells before it are
    numbers, larger ones when cell [i] is a number, and then every cell
    is a number that is not smaller. *)
Definition first_min (ks : list spec_float) (i : nat) : Prop :=
  exists k, nth_error ks i = Some k /\
    (forall j q, (j < i)%nat -> nth_error ks j = Some q ->
       Np.isnan q = false /\ (Np.isnan k = false -> SFltb k q = true)) /\
    (Np.isnan k = false ->
     forall j q, nth_error ks j = Some q -> Np.isnan q = false /\ SFltb q k = false).

(** The same for the largest keys. *)
Definition first_max (ks : list spec_float) (i : nat) : Prop :=
  exists k, nth_error ks i = Some k /\
    (forall j q, (j < i)%nat -> nth_error ks j = Some q ->
       Np.isnan q = false /\ (Np.isnan k = false -> SFltb q k = true)) /\
    (Np.isnan k = false ->
     forall j q, nth_error ks j = Some q -> Np.isnan q = false /\ SFltb k q = false).

(** The Euclidean norm of [a - b], a real number. *)
Definition distance (a b : Point) : R :=
  sqrt ((Q2R (x a) - Q2R (x b)) * (Q2R (x a) - Q2R (x b))
        + (Q2R (y a) - Q2R (y b)) * (Q2R (y a) - Q2R (y b))).

(** The squared distance of two points of the pixel grid. *)
Definition squared (p q : Z * Z) : Z :=
  (fst p - fst q) * (fst p - fst q) + (snd p - snd q) * (snd p - snd q).

(** [n] is [r] rounded down to an integer. *)
Definition is_floor (n : Z) (r : R) : Prop := (IZR n <= r < IZR n + 1)%R.

(** The cross product of [b - a] and [c - a]. *)
Definition cross (a b c : Point) : Q :=
  ((x b - x a) * (y c - y a) - (y b - y a) * (x c - x a))%Q.

(** All the points lie on one line. *)
Definition collinear (pts : list Point) : bool :=
  forallb (fun a => forallb (fun b => forallb (fun c => Qeq_bool (cross a b c) 0) pts) pts) pts.


(** [abs(w / h - ratio) < 0.01] for a [w] by [h] image. *)
Definition within_tolerance (img : image) (ratio : float) : bool :=
  match Py.truediv_int (Np.width img) (Np.height img) with
  | Some current => PrimFloat.ltb (abs (current - ratio)) ImageCropper.tolerance
  | None => false
  end.

(** The axis-aligned bounding rectangle [(x, y, width, height)] of
    the mask-positive cells, both extreme rows and columns included. *)
Definition bounding_rectangle (m : mask) : option (Z * Z * Z * Z) :=
  let cells := Np.where_gt m 127 in
  x_min <- Np.amin (map snd cells) ;;
  x_max <- Np.amax (map snd cells) ;;
  y_min <- Np.amin (map fst cells) ;;
  y_max <- Np.amax (map fst cells) ;;
  Some (x_min, y_min, x_max - x_min + 1, y_max - y_min + 1).

(** The sign of a binary64 value; a NaN has none. *)
Definition sign_bit (v : spec_float) : bool :=
  match v with
  | S754_zero s | S754_infinity s | S754_finite s _ _ => s
  | S754_nan => false
  end.

(** The corners of the axis-aligned rectangle of the pixel grid at
    [(x0, y0)] of width [w] and height [h]. *)
Definition rectangle (x0 y0 w h : Z) : list (Z * Z) :=
  [ (x0, y0); (x0 + w, y0); (x0 + w, y0 + h); (x0, y0 + h) ].

(** Points of the pixel grid that a float32 array holds exactly, with
    exact coordinate sums and differences. *)
Definition grid_points (zs : list (Z * Z)) : Prop :=
  forall p, In p zs -> Z.abs (fst p) < 2 ^ 23 /\ Z.abs (snd p) < 2 ^ 23.

(** The offset of a centred crop or pad leaves margins that differ by
    at most one cell. *)
Definition centred (total kept start : Z) : Prop :=
  0 <= start /\ start <= total - kept - start <= start + 1.

(** The size [resize_to_fill] scales the image to before it crops. *)
Definition fill_scaled_size (img : image) (target_width target_height : Z)
  : option (Z * Z) :=
  target_ratio <- Py.truediv_int target_width target_height ;;
  current_ratio <- Py.truediv_int (Np.width img) (Np.height img) ;;
  scale <- (if PrimFloat.ltb target_ratio current_ratio
            then Py.truediv_int target_height (Np.height img)
            else Py.truediv_int target_width (Np.width img)) ;;
  new_w <- Py.int_of_float (Py.mul_int_float (Np.width img) scale) ;;
  new_h <- Py.int_of_float (Py.mul_int_float (Np.height img) scale) ;;
  Some (new_w, new_h).

(** The size [resize_to_fit] scales the image to before it pads. *)
Definition fit_scaled_size (img : image) (target_width target_height : Z)
  : option (Z * Z) :=
  scale_w <- Py.truediv_int target_width (Np.width img) ;;
  scale_h <- Py.truediv_int target_height (Np.height img) ;;
  let scale := Py.min scale_w scale_h in
  new_w <- Py.int_of_float (Py.mul_int_float (Np.width img) scale) ;;
  new_h <- Py.int_of_float (Py.mul_int_float (Np.height img) scale) ;;
  Some (new_w, new_h).

End Spec.

(** ** Geometry kernel, continued: bounding boxes ([app/utils/geometry.py]) *)

Module Boxes.

(** [class BoundingBox] *)
Record BoundingBox : Type := mkBoundingBox { x : Z; y : Z; width : Z; height : Z }.

Definition x1 (b : BoundingBox) : Z := x b.
Definition y1 (b : BoundingBox) : Z := y b.
Definition x2 (b : BoundingBox) : Z := x b + width b.
Definition y2 (b : BoundingBox) : Z := y b + height b.

(** [BoundingBox.center], with [//] the floor division. *)
Definition center (b : BoundingBox) : Z * Z := (x b + width b / 2, y b + height b / 2).

Definition area (b : BoundingBox) : Z := width b * height b.

Definition to_xyxy (b : BoundingBox) : Z * Z * Z * Z := (x b, y b, x2 b, y2 b).

(** [BoundingBox.expand] *)
Definition expand (b : BoundingBox) (margin : Z) : BoundingBox :=
  mkBoundingBox (Z.max 0 (x b - margin)) (Z.max 0 (y b - margin))
    (width b + 2 * margin) (height b + 2 * margin).

(** [BoundingBox.intersection] *)
Definition intersection (b other : BoundingBox) : option BoundingBox :=
  let x1' := Z.max (x1 b) (x1 other) in
  let y1' := Z.max (y1 b) (y1 other) in
  let x2' := Z.min (x2 b) (x2 other) in
  let y2' := Z.min (y2 b) (y2 other) in
  if (x2' <=? x1') || (y2' <=? y1') then None
  else Some (mkBoundingBox x1' y1' (x2' - x1') (y2' - y1')).

(** [BoundingBox.iou]; the outer [option] is the exception monad. *)
Definition iou (b other : BoundingBox) : option float :=
  match intersection b other with
  | None => Some 0%float
  | Some i =>
      let intersection_area := area i in
      let union_area := area b + area other - intersection_area in
      if 0 <? union_area then Py.truediv_int intersection_area union_area
      else Some 0%float
  end.





(** The cell [(px, py)] lies in the box. *)
Definition covers (b : BoundingBox) (px py : Z) : Prop :=
  x1 b <= px < x2 b /\ y1 b <= py < y2 b.

End Boxes.

(** ** Drawing and padding

    The OpenCV calls of the compositor and the cropper that the
    interface above does not list.  Filling and blurring keep the shape
    of the mask they are given; what they write is the back end's. *)

Class Raster : Type := {
  (** [cv2.fillConvexPoly(mask, points, color)]: the cell at [(y, x)]
      afterwards *)
  fillConvexPoly_sample : mask -> list (Z * Z) -> Z -> Z -> Z -> Z;
  (** [cv2.GaussianBlur(mask, (5, 5), 0).astype(np.float32) / 255.0] on
      an 8-bit mask, one weight per cell *)
  blur8_weight : mask -> Z -> Z -> float;
  (** [cv2.copyMakeBorder] of an image with no cells *)
  copyMakeBorder_empty : image -> Z -> Z -> Z -> Z -> pixel -> option image
}.

Module Draw.

(** [cv2.fillConvexPoly(mask, points, color)], which writes in place. *)
Definition fillConvexPoly `{Raster} (m : mask) (points : list (Z * Z)) (color : Z) : mask :=
  Np.mk_array (Np.height m) (Np.width m) (fillConvexPoly_sample m points color).

(** [cv2.copyMakeBorder(src, top, bottom, left, right,
    cv2.BORDER_CONSTANT, value=value)]: a negative border is a
    [cv2.error]. *)
Definition copyMakeBorder `{Raster} (src : image) (top bottom left right : Z)
  (value : pixel) : option image :=
  if (top <? 0) || (bottom <? 0) || (left <? 0) || (right <? 0) then raises
  else if Cv2.is_empty src then copyMakeBorder_empty src top bottom left right value
  else Some (Np.mk_array (Np.height src + top + bottom) (Np.width src + left + right)
               (fun y x =>
                  if (top <=? y) && (y <? top + Np.height src)
                     && (left <=? x) && (x <? left + Np.width src)
                  then Np.item src (y - top) (x - left)
                  else value)).

(** [cv2.inRange(image, lower, upper)] *)
Definition inRange (img : image) (lower upper : pixel) : mask :=
  Np.mk_array (Np.height img) (Np.width img)
    (fun y x =>
       let '(r, g, b) := Np.item img y x in
       let '(lr, lg, lb) := lower in
       let '(ur, ug, ub) := upper in
       if (lr <=? r) && (r <=? ur) && (lg <=? g) && (g <=? ug) && (lb <=? b) && (b <=? ub)
       then 255 else 0).

(** [cv2.bitwise_not] on an 8-bit mask *)
Definition bitwise_not (m : mask) : mask :=
  Np.mk_array (Np.height m) (Np.width m) (fun y x => 255 - Np.item m y x).

(** [cv2.boundingRect(contour)]: [(x, y, w, h)], both extreme points
    inside. *)
Definition boundingRect (c : Geometry.contour) : Z * Z * Z * Z :=
  match c with
  | [] => (0, 0, 0, 0)
  | p :: ps =>
      let x_lo := fold_left Z.min (map fst ps) (fst p) in
      let x_hi := fold_left Z.max (map fst ps) (fst p) in
      let y_lo := fold_left Z.min (map snd ps) (snd p) in
      let y_hi := fold_left Z.max (map snd ps) (snd p) in
      (x_lo, y_lo, x_hi - x_lo + 1, y_hi - y_lo + 1)
  end.

(** [np.zeros((h, w), dtype=np.uint8)] and [np.zeros((h, w, 3))] *)
Definition zeros (h w : Z) : option mask := Np.full h w 0.
Definition zeros3 (h w : Z) : option image := Np.full h w (0, 0, 0).

End Draw.

(** ** Region compositor, continued: fills and perspective replacement *)

Module ScreenFill.

Import Geometry.

(** [a[sel > t] = color] with a boolean index of the shape of [sel]:
    [IndexError] unless [a] has that shape. *)
Definition assign_color_where_gt (a : image) (sel : mask) (t : Z) (color : pixel)
  : option image :=
  if (Np.height a =? Np.height sel) && (Np.width a =? Np.width sel)
  then Some (Np.mk_array (Np.height a) (Np.width a)
               (fun y x => if t <? Np.item sel y x then color else Np.item a y x))
  else raises.

(** [ScreenEditor.fill_screen_black] *)
Definition fill_screen_black_try (img : image) (m : mask) : option image :=
  let result := img in
  assign_color_where_gt result m 127 (0, 0, 0).

Definition fill_screen_black (img : image) (m : mask) : image :=
  try_except (fill_screen_black_try img m) img.

(** [ScreenEditor.fill_screen_color] *)
Definition fill_screen_color_try (img : image) (m : mask) (color : pixel) : option image :=
  let result := img in
  assign_color_where_gt result m 127 color.

Definition fill_screen_color (img : image) (m : mask) (color : pixel) : image :=
  try_except (fill_screen_color_try img m color) img.

(** [ordered_points.astype(np.int32)] *)
Definition to_int32 (pts : list row) : list (Z * Z) :=
  map (fun p => (F32.astype_int32 (fst p), F32.astype_int32 (snd p))) pts.

(** [ScreenEditor.replace_screen_with_perspective] *)
Definition replace_screen_with_perspective_try `{Backend} `{Raster} (laptop_image : image)
  (polygon : Polygon) (screen_content : image) : option image :=
  if len polygon <? 4 then Some laptop_image
  else
    let pts := firstn 4 (as_float32 (to_numpy polygon)) in
    ordered_points <- order_points Np.float32 pts ;;
    let h := Np.height screen_content in
    let w := Np.width screen_content in
    let dst_points := PerspectiveTransformer.dst_points w h in
    M <- getPerspectiveTransform dst_points ordered_points ;;
    warped <- Cv2.warpPerspective screen_content M
                (Np.width laptop_image) (Np.height laptop_image) ;;
    blank <- Draw.zeros (Np.height laptop_image) (Np.width laptop_image) ;;
    let m := Draw.fillConvexPoly blank (to_int32 ordered_points) 255 in
    if Cv2.is_empty m then raises
    else
      let mask_blurred := Np.mk_array (Np.height m) (Np.width m) (blur8_weight m) in
      let result := laptop_image in
      content_part <- Np.zip_with pair warped mask_blurred ;;
      result_part <- Np.zip_with pair result mask_blurred ;;
      Np.zip_with (fun c r => blend (fst c) (snd c) (fst r)) content_part result_part.

Definition replace_screen_with_perspective `{Backend} `{Raster} (laptop_image : image)
  (polygon : Polygon) (screen_content : image) : image :=
  try_except (replace_screen_with_perspective_try laptop_image polygon screen_content)
    laptop_image.

End ScreenFill.

(** ** Framing engine, continued: the other crops *)

Module Cropping.

(** One round of the loop over the contours in [auto_crop]. *)
Definition extend (box : Z * Z * Z * Z) (c : Geometry.contour) : Z * Z * Z * Z :=
  let '(x_min, y_min, x_max, y_max) := box in
  let '(x, y, w, h) := Draw.boundingRect c in
  (Z.min x_min x, Z.min y_min y, Z.max x_max (x + w), Z.max y_max (y + h)).

(** [ImageCropper.auto_crop] *)
Definition auto_crop_try `{Backend} (img : image) (background_color : pixel) (margin : Z)
  : option image :=
  let tolerance := 30 in
  let '(r, g, b) := background_color in
  let lower := (Z.max 0 (r - tolerance), Z.max 0 (g - tolerance), Z.max 0 (b - tolerance)) in
  let upper :=
    (Z.min 255 (r + tolerance), Z.min 255 (g + tolerance), Z.min 255 (b + tolerance)) in
  let m := Draw.inRange img lower upper in
  let m := Draw.bitwise_not m in
  let contours := findContours m in
  match contours with
  | [] => Some img
  | _ :: _ =>
      let '(x_min, y_min, x_max, y_max) :=
        fold_left extend contours (Np.width img, Np.height img, 0, 0) in
      let x_min := Z.max 0 (x_min - margin) in
      let y_min := Z.max 0 (y_min - margin) in
      let x_max := Z.min (Np.width img) (x_max + margin) in
      let y_max := Z.min (Np.height img) (y_max + margin) in
      Some (Np.crop img y_min y_max x_min x_max)
  end.

Definition auto_crop `{Backend} (img : image) (background_color : pixel) (margin : Z)
  : image :=
  try_except (auto_crop_try img background_color margin) img.

(** [ImageCropper.crop_to_bbox] *)
Definition crop_to_bbox_try (img : image) (x y width height : Z) : option image :=
  let h := Np.height img in
  let w := Np.width img in
  let x := Z.max 0 (Z.min x w) in
  let y := Z.max 0 (Z.min y h) in
  let x2 := Z.max 0 (Z.min (x + width) w) in
  let y2 := Z.max 0 (Z.min (y + height) h) in
  Some (Np.crop img y y2 x x2).

Definition crop_to_bbox (img : image) (x y width height : Z) : image :=
  try_except (crop_to_bbox_try img x y width height) img.

(** [ImageCropper.smart_crop] *)
Definition smart_crop_try `{Backend} (img : image) (target_width target_height : Z)
  : option image :=
  let h := Np.height img in
  let w := Np.width img in
  target_ratio <- Py.truediv_int target_width target_height ;;
  current_ratio <- Py.truediv_int w h ;;
  if (w =? target_width) && (h =? target_height) then Some img
  else
    let img :=
      if PrimFloat.ltb ImageCropper.tolerance (abs (current_ratio - target_ratio))
      then ImageCropper.crop_to_aspect_ratio img target_ratio true
      else img in
    let img :=
      ImageResizer.resize img (Some target_width) (Some target_height) false
        Cv2.INTER_LANCZOS4 in
    Some img.

Definition smart_crop `{Backend} (img : image) (target_width target_height : Z) : image :=
  try_except (smart_crop_try img target_width target_height) img.

(** [ImageCropper.pad_to_aspect_ratio] *)
Definition pad_to_aspect_ratio_try `{Raster} (img : image) (aspect_ratio : float)
  (padding_color : pixel) : option image :=
  let h := Np.height img in
  let w := Np.width img in
  current_ratio <- Py.truediv_int w h ;;
  if PrimFloat.ltb (abs (current_ratio - aspect_ratio)) ImageCropper.tolerance then Some img
  else if PrimFloat.ltb current_ratio aspect_ratio then
    new_width <- Py.int_of_float (Py.mul_int_float h aspect_ratio) ;;
    let pad_total := new_width - w in
    let pad_left := pad_total / 2 in
    let pad_right := pad_total - pad_left in
    Draw.copyMakeBorder img 0 0 pad_left pad_right padding_color
  else
    q <- Py.truediv (Py.float_of_int w) aspect_ratio ;;
    new_height <- Py.int_of_float q ;;
    let pad_total := new_height - h in
    let pad_top := pad_total / 2 in
    let pad_bottom := pad_total - pad_top in
    Draw.copyMakeBorder img pad_top pad_bottom 0 0 padding_color.

Definition pad_to_aspect_ratio `{Raster} (img : image) (aspect_ratio : float)
  (padding_color : pixel) : image :=
  try_except (pad_to_aspect_ratio_try img aspect_ratio padding_color) img.

End Cropping.

(** ** Perspective transformer, continued *)

Module Warping.

Import Geometry.

(** [PerspectiveTransformer.extract_screen_region] *)
Definition extract_screen_region_try `{Backend} (img : image) (polygon : Polygon)
  : option (option image) :=
  if len polygon <? 4 then Some None
  else
    let pts := firstn 4 (as_float32 (to_numpy polygon)) in
    ordered <- order_points Np.float32 pts ;;
    '(width, height) <- calculate_perspective_size Np.float32 ordered ;;
    let dst_points := PerspectiveTransformer.dst_points width height in
    M <- getPerspectiveTransform ordered dst_points ;;
    warped <- Cv2.warpPerspective img M width height ;;
    Some (Some warped).

Definition extract_screen_region `{Backend} (img : image) (polygon : Polygon)
  : option image :=
  try_except (extract_screen_region_try img polygon) None.

(** The body of the [try] block of [warp_image_to_polygon];
    [canvas_shape] is [(height, width)]. *)
Definition warp_image_to_polygon_try `{Backend} (img : image) (polygon : Polygon)
  (canvas_shape : Z * Z) : option image :=
  if len polygon <? 4 then Draw.zeros3 (fst canvas_shape) (snd canvas_shape)
  else
    let h := Np.height img in
    let w := Np.width img in
    let src_points := PerspectiveTransformer.dst_points w h in
    let pts := firstn 4 (as_float32 (to_numpy polygon)) in
    dst_points <- order_points Np.float32 pts ;;
    M <- getPerspectiveTransform src_points dst_points ;;
    Cv2.warpPerspective img M (snd canvas_shape) (fst canvas_shape).

(** [PerspectiveTransformer.warp_image_to_polygon]: the handler builds
    the black canvas again, so an exception of [np.zeros] leaves the
    function. *)
Definition warp_image_to_polygon `{Backend} (img : image) (polygon : Polygon)
  (canvas_shape : Z * Z) : option image :=
  match warp_image_to_polygon_try img polygon canvas_shape with
  | Some warped => Some warped
  | None => Draw.zeros3 (fst canvas_shape) (snd canvas_shape)
  end.

End Warping.

(** ** Framing engine, continued: scale factors *)

Module Scaling.

Import Strings.String.

(** [max(a, b)]: [b] only when it is strictly larger. *)
Definition max (a b : float) : float := if PrimFloat.ltb a b then b else a.

(** [ImageResizer.get_optimal_scale]; [image_shape] is [(height, width)]. *)
Definition get_optimal_scale (image_shape : Z * Z) (target_width target_height : Z)
  (fit_mode : string) : option float :=
  let '(h, w) := image_shape in
  scale_w <- Py.truediv_int target_width w ;;
  scale_h <- Py.truediv_int target_height h ;;
  Some (if String.eqb fit_mode "fit" then Py.min scale_w scale_h else max scale_w scale_h).

End Scaling.

(** ** Batch report ([app/pipeline/processor.py]) *)

Module Processor.

Import Strings.String.

(** [class ProcessingResult], with the fields the report reads;
    [input_name] is [input_path.name]. *)
Record ProcessingResult : Type := mkResult {
  input_name : string;
  success : bool;
  processing_time : float;
  screen_detected : bool
}.

Record report : Type := mkReport {
  total_files : Z;
  successful : Z;
  failed : Z;
  screens_detected : Z;
  total_time : float;
  average_time : float;
  failed_files : list string
}.

(** [sum(1 for r in results if cond(r))] *)
Definition count (cond : ProcessingResult -> bool) (results : list ProcessingResult) : Z :=
  fold_left (fun acc r => if cond r then acc + 1 else acc) results 0.

(** [ImageProcessor.get_processing_report] *)
Definition get_processing_report (results : list ProcessingResult) : report :=
  let total := Z.of_nat (List.length results) in
  let successful := count success results in
  let failed := total - successful in
  let detected := count screen_detected results in
  let total_time :=
    fold_left (fun acc r => (acc + processing_time r)%float) results 0%float in
  let avg_time :=
    if 0 <? total then (total_time / Py.float_of_int total)%float else 0%float in
  let failed_files :=
    map input_name (filter (fun r => negb (success r)) results) in
  mkReport total successful failed detected total_time avg_time failed_files.

End Processor.

(** ** File names ([app/utils/file_utils.py])

    A [str] is carried as its UTF-8 bytes: the bytes of a character
    outside ASCII equal none of the ASCII characters handled here. *)

Module FileUtils.

Import Strings.String Strings.Ascii.

(** The characters of the literal: less-than, greater-than, colon,
    double quote, slash, backslash, bar, question mark, asterisk. *)
Definition invalid_chars : list ascii :=
  ["<"; ">"; ":"; "034"; "/"; "\"; "|"; "?"; "*"]%char.

(** [s.replace(old, new)] for a single character [old] *)
Fixpoint replace (old new : ascii) (s : string) : string :=
  match s with
  | EmptyString => EmptyString
  | String c s' => String (if Ascii.eqb c old then new else c) (replace old new s')
  end.

(** [safe_filename] *)
Definition safe_filename (filename : string) : string :=
  fold_left (fun filename char => replace char "_"%char filename) invalid_chars filename.

End FileUtils.

(** ** Reference drawing for concrete runs

    A polygon is filled as the rectangle around its points, which is
    what OpenCV draws for an axis-aligned rectangle; the blur leaves
    the mask as it is; padding an image with no cells is refused. *)

Module ReferenceDraw.

Definition fill_box (m : mask) (points : list (Z * Z)) (color : Z) (y x : Z) : Z :=
  match points with
  | [] => Np.item m y x
  | _ :: _ =>
      let '(bx, by_, bw, bh) := Draw.boundingRect points in
      if (by_ <=? y) && (y <? by_ + bh) && (bx <=? x) && (x <? bx + bw)
      then color else Np.item m y x
  end.

#[export] Instance raster : Raster := {|
  fillConvexPoly_sample := fill_box;
  blur8_weight := fun m y x => (Py.float_of_int (Np.item m y x) / 255)%float;
  copyMakeBorder_empty := fun _ _ _ _ _ _ => None
|}.

End ReferenceDraw.

(** * Properties *)

(** ** Numbers *)

Module NumberFacts.

Import Spec.

Lemma Qltb_lt (a b : Q) : Np.Qltb a b = true <-> (a < b)%Q.
Proof.
  unfold Np.Qltb. rewrite negb_true_iff.
  split; intro H.
  - apply Qnot_le_lt. intro Hle. apply Qle_bool_iff in Hle. congruence.
  - destruct (Qle_bool b a) eqn:E; [|reflexivity].
    apply Qle_bool_iff in E. exfalso. apply (Qlt_not_le _ _ H E).
Qed.

Lemma Qltb_ge (a b : Q) : Np.Qltb a b = false <-> (b <= a)%Q.
Proof.
  unfold Np.Qltb. rewrite negb_false_iff. apply Qle_bool_iff.
Qed.

Lemma Qltb_opp (a b : Q) : Np.Qltb (- a) (- b) = Np.Qltb b a.
Proof.
  destruct (Np.Qltb b a) eqn:E.
  - apply Qltb_lt. apply Qltb_lt in E. Lqa.lra.
  - apply Qltb_ge. apply Qltb_ge in E. Lqa.lra.
Qed.

Lemma Q2R_inject_Z (z : Z) : Q2R (inject_Z z) = IZR z.
Proof. unfold Q2R. simpl. field. Qed.

(** Rounding keeps the sign it is given. *)
Lemma binary_round_aux_sign (m e : Z) (l : location) :
  sign_bit (binary_round_aux prec emax false m e l) = false.
Proof.
  unfold binary_round_aux.
  destruct (shr_fexp prec emax m e l) as [mrs' e'].
  destruct (shr_fexp prec emax _ e' loc_Exact) as [mrs'' e''].
  destruct (shr_m mrs''); [reflexivity| |reflexivity].
  now destruct (e'' <=? emax - prec).
Qed.

Lemma float_of_int_sign (z : Z) :
  0 <= z -> sign_bit (Prim2SF (Py.float_of_int z)) = false.
Proof.
  intro Hz. unfold Py.float_of_int.
  destruct (z <? 0) eqn:E; [apply Z.ltb_lt in E; lia|].
  rewrite FloatAxioms.of_uint63_spec.
  pose proof (Uint63.to_Z_bounded (Uint63.of_Z z)) as Hb.
  destruct (Uint63.to_Z (Uint63.of_Z z)) as [|p|p]; [reflexivity| |lia].
  unfold binary_normalize, binary_round.
  destruct (shl_align _ _ _) as [mz ez]. apply binary_round_aux_sign.
Qed.

Lemma positive_sign (v : float) :
  PrimFloat.ltb 0 v = true -> sign_bit (Prim2SF v) = false.
Proof.
  rewrite FloatAxioms.ltb_spec. change (Prim2SF 0) with (S754_zero false).
  unfold SFltb, SFcompare.
  destruct (Prim2SF v) as [s|s| |s m e]; try discriminate; now destruct s.
Qed.

Lemma SFmul_sign (a b : spec_float) :
  sign_bit a = false -> sign_bit b = false ->
  sign_bit (SFmul prec emax a b) = false.
Proof.
  destruct a as [sa|sa| |sa ma ea], b as [sb|sb| |sb mb eb]; simpl;
    intros Ha Hb; subst; try reflexivity.
  apply binary_round_aux_sign.
Qed.

Lemma SFdiv_sign (a b : spec_float) :
  sign_bit a = false -> sign_bit b = false ->
  sign_bit (SFdiv prec emax a b) = false.
Proof.
  destruct a as [sa|sa| |sa ma ea], b as [sb|sb| |sb mb eb]; simpl;
    intros Ha Hb; subst; try reflexivity.
  destruct (SFdiv_core_binary _ _ _ _ _ _) as [[mz ez] lz].
  apply binary_round_aux_sign.
Qed.

(** On a value that is not negative, [int] rounds down. *)
Lemma int_of_float_floor (v : float) :
  sign_bit (Prim2SF v) = false -> Py.int_of_float v = Py.floor_of_float v.
Proof.
  unfold Py.int_of_float, Py.floor_of_float, Py.trunc_finite.
  destruct (Prim2SF v) as [s|s| |s m e]; simpl; try reflexivity.
  intros Hs. subst s. reflexivity.
Qed.

Lemma scaled_floor (n : Z) (r : float) :
  0 <= n -> PrimFloat.ltb 0 r = true ->
  Py.int_of_float (Py.mul_int_float n r) = Py.floor_of_float (Py.mul_int_float n r).
Proof.
  intros Hn Hr. apply int_of_float_floor. unfold Py.mul_int_float.
  rewrite FloatAxioms.mul_spec.
  apply SFmul_sign; [now apply float_of_int_sign|now apply positive_sign].
Qed.

Lemma divided_floor (n : Z) (r q : float) :
  0 <= n -> PrimFloat.ltb 0 r = true ->
  Py.truediv (Py.float_of_int n) r = Some q ->
  Py.int_of_float q = Py.floor_of_float q.
Proof.
  intros Hn Hr. unfold Py.truediv.
  destruct (PrimFloat.eqb r 0); [discriminate|]. intros [= <-].
  apply int_of_float_floor. rewrite FloatAxioms.div_spec.
  apply SFdiv_sign; [now apply float_of_int_sign|now apply positive_sign].
Qed.

(** [int] and [floor] agree on which values are at most zero. *)
Lemma floor_nonpos (v : float) (f : Z) :
  Py.floor_of_float v = Some f ->
  exists t, Py.int_of_float v = Some t /\ (t <= 0 <-> f <= 0).
Proof.
  unfold Py.int_of_float, Py.floor_of_float, Py.trunc_finite.
  destruct (Prim2SF v) as [s|s| |s m e]; try discriminate.
  - intros [= <-]. exists 0. tauto.
  - intros [= <-]. eexists. split; [reflexivity|].
    destruct s; [|tauto].
    destruct (0 <=? e) eqn:E.
    + apply Z.leb_le in E. pose proof (Z.pow_pos_nonneg 2 e). nia.
    + apply Z.leb_gt in E.
      assert (Hp : 0 < 2 ^ (- e)) by (apply Z.pow_pos_nonneg; lia).
      pose proof (Z.div_pos (Z.pos m) (2 ^ (- e))).
      assert (Z.neg m / 2 ^ (- e) < 0).
      { apply Z.div_lt_upper_bound; [exact Hp|]. lia. }
      change (- Z.pos m) with (Z.neg m). lia.
Qed.

End NumberFacts.

(** ** The order of floats *)

Module FloatOrder.

(** Floats that are not NaN compare as their ranks do, in
    lexicographic order: the sign class first, then the exponent, then
    the mantissa, the last two reversed below zero. *)
Definition rank (v : spec_float) : Z * Z * Z :=
  match v with
  | S754_infinity true => (-2, 0, 0)
  | S754_finite true m e => (-1, - e, - Z.pos m)
  | S754_zero _ | S754_nan => (0, 0, 0)
  | S754_finite false m e => (1, e, Z.pos m)
  | S754_infinity false => (2, 0, 0)
  end.

Definition lex_lt (a b : Z * Z * Z) : Prop :=
  fst (fst a) < fst (fst b) \/
  (fst (fst a) = fst (fst b) /\
   (snd (fst a) < snd (fst b) \/ (snd (fst a) = snd (fst b) /\ snd a < snd b))).

Definition below (a b : spec_float) : Prop :=
  Np.isnan a = false /\ Np.isnan b = false /\ lex_lt (rank a) (rank b).

Lemma compare_rank (a b : spec_float) :
  Np.isnan a = false -> Np.isnan b = false ->
  (SFcompare a b = Some Lt /\ lex_lt (rank a) (rank b)) \/
  (SFcompare a b = Some Eq /\ rank a = rank b) \/
  (SFcompare a b = Some Gt /\ lex_lt (rank b) (rank a)).
Proof.
  intros Ha Hb. unfold lex_lt.
  destruct a as [[]|[]| |[] ma ea], b as [[]|[]| |[] mb eb]; try discriminate;
    cbn [SFcompare rank fst snd];
    try (left; split; [reflexivity|lia]);
    try (right; left; split; reflexivity);
    try (right; right; split; [reflexivity|lia]).
  - change (PosDef.Pos.compare_cont Eq ma mb) with (Pos.compare ma mb).
    destruct (Z.compare_spec ea eb), (Pos.compare_spec ma mb); cbn [CompOpp]; subst;
      try (left; split; [reflexivity|lia]);
      try (right; left; split; reflexivity);
      try (right; right; split; [reflexivity|lia]).
  - change (PosDef.Pos.compare_cont Eq ma mb) with (Pos.compare ma mb).
    destruct (Z.compare_spec ea eb), (Pos.compare_spec ma mb); cbn [CompOpp]; subst;
      try (left; split; [reflexivity|lia]);
      try (right; left; split; reflexivity);
      try (right; right; split; [reflexivity|lia]).
Qed.

Lemma compare_nan (a b : spec_float) :
  Np.isnan a = true \/ Np.isnan b = true -> SFcompare a b = None.
Proof.
  intros [H|H]; destruct a as [[]|[]| |[] ma ea], b as [[]|[]| |[] mb eb];
    try discriminate; reflexivity.
Qed.

Lemma lex_lt_irrefl (a : Z * Z * Z) : ~ lex_lt a a.
Proof. unfold lex_lt. lia. Qed.

Lemma lex_lt_asym (a b : Z * Z * Z) : lex_lt a b -> ~ lex_lt b a.
Proof. unfold lex_lt. lia. Qed.

Lemma lex_lt_trans (a b c : Z * Z * Z) : lex_lt a b -> lex_lt b c -> lex_lt a c.
Proof. unfold lex_lt. lia. Qed.

Lemma lex_le_lt_trans (a b c : Z * Z * Z) : ~ lex_lt b a -> lex_lt b c -> lex_lt a c.
Proof. unfold lex_lt. lia. Qed.

Lemma lex_lt_le_trans (a b c : Z * Z * Z) : lex_lt a b -> ~ lex_lt c b -> lex_lt a c.
Proof. unfold lex_lt. lia. Qed.

Lemma ltb_below (a b : spec_float) : SFltb a b = true <-> below a b.
Proof.
  unfold SFltb, below.
  destruct (Np.isnan a) eqn:Ha; [rewrite compare_nan by (now left); intuition discriminate|].
  destruct (Np.isnan b) eqn:Hb; [rewrite compare_nan by (now right); intuition discriminate|].
  destruct (compare_rank a b Ha Hb) as [[-> H]|[[-> H]|[-> H]]].
  - tauto.
  - rewrite H. pose proof (lex_lt_irrefl (rank b)). intuition discriminate.
  - pose proof (lex_lt_asym _ _ H). intuition discriminate.
Qed.

(** [not (a <= b)]: one of the two is NaN, or [b < a]. *)
Lemma not_leb (a b : spec_float) :
  negb (SFleb a b) = true <-> Np.isnan a = true \/ Np.isnan b = true \/ below b a.
Proof.
  unfold SFleb, below.
  destruct (Np.isnan a) eqn:Ha; [rewrite compare_nan by (now left); cbn; tauto|].
  destruct (Np.isnan b) eqn:Hb; [rewrite compare_nan by (now right); cbn; tauto|].
  destruct (compare_rank a b Ha Hb) as [[-> H]|[[-> H]|[-> H]]]; cbn.
  - pose proof (lex_lt_asym _ _ H). intuition discriminate.
  - rewrite H. pose proof (lex_lt_irrefl (rank b)). intuition discriminate.
  - tauto.
Qed.

Lemma below_irrefl (a : spec_float) : ~ below a a.
Proof. intros (_ & _ & H). exact (lex_lt_irrefl _ H). Qed.

Lemma below_asym (a b : spec_float) : below a b -> ~ below b a.
Proof. intros (_ & _ & H) (_ & _ & H'). exact (lex_lt_asym _ _ H H'). Qed.

Lemma below_trans (a b c : spec_float) : below a b -> below b c -> below a c.
Proof.
  intros (Ha & _ & H) (_ & Hc & H'). split; [exact Ha|]. split; [exact Hc|].
  exact (lex_lt_trans _ _ _ H H').
Qed.

(** Among floats that are not NaN, [c] not below [b] and [a] below [b]
    put [a] below [c]. *)
Lemma below_not_below (a b c : spec_float) :
  below a b -> Np.isnan c = false -> ~ below c b -> below a c.
Proof.
  intros (Ha & Hb & H) Hc Hn. split; [exact Ha|]. split; [exact Hc|].
  apply (lex_lt_le_trans _ _ _ H). intro H'. apply Hn. now repeat split.
Qed.

End FloatOrder.

(** ** Whole numbers in float32 *)

Module WholeNumbers.

(** *** Whole numbers below 2^24 as float32 values *)

(** The number of binary digits of a mantissa. *)
Definition digits (p : positive) : Z := Z.pos (digits2_pos p).

(** The float32 of sign [s] and magnitude [p], for [p] of at most 24
    digits: the mantissa is [p] shifted up to 24 digits. *)
Definition canon (s : bool) (p : positive) : spec_float :=
  S754_finite s (Pos.shiftl p (Z.to_N (24 - digits p))) (digits p - 24).

Lemma digits_size (p : positive) : digits2_pos p = Pos.size p.
Proof. induction p as [p IH|p IH|]; simpl; now rewrite ?IH. Qed.

Lemma digits_pos (p : positive) : 0 < digits p.
Proof. unfold digits. lia. Qed.

Lemma digits_bounds (p : positive) : 2 ^ (digits p - 1) <= Z.pos p < 2 ^ digits p.
Proof.
  unfold digits. rewrite digits_size.
  pose proof (Pos.size_gt p) as Hgt. pose proof (Pos.size_le p) as Hle.
  apply Pos2Z.pos_lt_pos in Hgt. apply Pos2Z.pos_le_pos in Hle.
  rewrite Pos2Z.inj_pow in Hgt, Hle. change (Z.pos p~0) with (2 * Z.pos p) in Hle.
  split; [|exact Hgt].
  replace (2 ^ Z.pos (Pos.size p)) with (2 * 2 ^ (Z.pos (Pos.size p) - 1)) in Hle; [lia|].
  rewrite <- Z.pow_succ_r by lia. f_equal. lia.
Qed.

(** The digits of [p] are fixed by its size. *)
Lemma digits_unique (p : positive) (d : Z) :
  2 ^ (d - 1) <= Z.pos p < 2 ^ d -> digits p = d.
Proof.
  intros [Hlo Hhi]. pose proof (digits_bounds p) as [Dlo Dhi]. pose proof (digits_pos p).
  assert (Hd : 0 < d).
  { destruct (Z.lt_ge_cases 0 d) as [H0|H0]; [exact H0|].
    destruct (Z.eq_dec d 0) as [->|Hn]; [simpl in Hhi; lia|].
    rewrite (Z.pow_neg_r 2 d) in Hhi by lia. lia. }
  destruct (Z.lt_trichotomy (digits p) d) as [Hlt|[Heq|Hgt]]; [|exact Heq|].
  - assert (2 ^ digits p <= 2 ^ (d - 1)) by (apply Z.pow_le_mono_r; lia). lia.
  - assert (2 ^ d <= 2 ^ (digits p - 1)) by (apply Z.pow_le_mono_r; lia). lia.
Qed.

Lemma digits_le (p : positive) (d : Z) : 0 <= d -> Z.pos p < 2 ^ d -> digits p <= d.
Proof.
  intros Hd Hp. pose proof (digits_bounds p) as [Dlo _].
  destruct (Z.le_gt_cases (digits p) d) as [H|H]; [exact H|].
  assert (2 ^ d <= 2 ^ (digits p - 1)) by (apply Z.pow_le_mono_r; lia). lia.
Qed.

Lemma iter_xO (p d : positive) : Z.pos (Pos.iter xO p d) = Z.pos p * 2 ^ Z.pos d.
Proof.
  induction d as [|d IH] using Pos.peano_ind.
  - simpl. lia.
  - rewrite Pos.iter_succ, Pos2Z.inj_xO, IH, Pos2Z.inj_succ, Z.pow_succ_r by lia. lia.
Qed.

Lemma shiftl_value (p : positive) (n : N) :
  Z.pos (Pos.shiftl p n) = Z.pos p * 2 ^ Z.of_N n.
Proof. destruct n as [|d]; simpl; [lia|apply iter_xO]. Qed.

Lemma pos_by_value (m p : positive) (k : Z) :
  0 <= k -> Z.pos m = Z.pos p * 2 ^ k -> m = Pos.shiftl p (Z.to_N k).
Proof.
  intros Hk E. apply Pos2Z.inj. now rewrite shiftl_value, Z2N.id.
Qed.

Lemma shifted_digits (m p : positive) (k : Z) :
  0 <= k -> Z.pos m = Z.pos p * 2 ^ k -> digits m = digits p + k.
Proof.
  intros Hk E. apply digits_unique. rewrite E.
  pose proof (digits_bounds p) as [Dlo Dhi]. pose proof (digits_pos p).
  replace (digits p + k - 1) with (digits p - 1 + k) by lia.
  rewrite !Z.pow_add_r by lia.
  assert (0 < 2 ^ k) by (apply Z.pow_pos_nonneg; lia). nia.
Qed.

(** *** Shifting out zeros *)

Lemma iter_pos_iter {A : Type} (f : A -> A) (n : positive) : forall x,
  SpecFloat.iter_pos f n x = Pos.iter f x n.
Proof.
  induction n as [n IH|n IH|]; intro x; simpl; [|now rewrite !IH|reflexivity].
  rewrite !IH. now rewrite <- !Pos.iter_swap.
Qed.

Lemma shr_zeros (p d : positive) :
  SpecFloat.iter_pos shr_1 d (Build_shr_record (Z.pos (Pos.iter xO p d)) false false)
  = Build_shr_record (Z.pos p) false false.
Proof.
  rewrite iter_pos_iter.
  induction d as [|d IH] using Pos.peano_ind.
  - reflexivity.
  - rewrite (Pos.iter_succ d positive xO). rewrite Pos.iter_succ, <- Pos.iter_swap.
    cbn [shr_1 orb]. exact IH.
Qed.

(** A mantissa of 24 digits followed by zeros rounds to itself. *)
Lemma round_aux_zeros (s : bool) (q : positive) (j : N) (e0 : Z) :
  digits q = 24 -> -149 <= e0 <= 104 ->
  binary_round_aux 24 128 s (Z.pos (Pos.shiftl q j)) (e0 - Z.of_N j) loc_Exact
  = S754_finite s q e0.
Proof.
  intros Hq He. unfold binary_round_aux.
  assert (Hd : Zdigits2 (Z.pos (Pos.shiftl q j)) = 24 + Z.of_N j).
  { change (Zdigits2 (Z.pos (Pos.shiftl q j))) with (digits (Pos.shiftl q j)).
    rewrite (shifted_digits _ q (Z.of_N j)); [lia|lia|apply shiftl_value]. }
  assert (Hfirst : shr_fexp 24 128 (Z.pos (Pos.shiftl q j)) (e0 - Z.of_N j) loc_Exact
                   = (Build_shr_record (Z.pos q) false false, e0)).
  { unfold shr_fexp. rewrite Hd. unfold fexp, emin.
    replace (Z.max (24 + Z.of_N j + (e0 - Z.of_N j) - 24) (3 - 128 - 24) - (e0 - Z.of_N j))
      with (Z.of_N j) by lia.
    destruct j as [|d]; cbn [shr shr_record_of_loc Z.of_N Pos.shiftl].
    - f_equal. lia.
    - rewrite shr_zeros. f_equal. lia. }
  rewrite Hfirst. cbn [shr_m loc_of_shr_record round_nearest_even].
  assert (Hsecond : shr_fexp 24 128 (Z.pos q) e0 loc_Exact
                    = (Build_shr_record (Z.pos q) false false, e0)).
  { unfold shr_fexp. change (Zdigits2 (Z.pos q)) with (digits q). rewrite Hq.
    unfold fexp, emin. replace (Z.max (24 + e0 - 24) (3 - 128 - 24) - e0) with 0 by lia.
    reflexivity. }
  rewrite Hsecond. cbn [shr_m].
  destruct (e0 <=? 128 - 24) eqn:E; [reflexivity|].
  apply Z.leb_gt in E. lia.
Qed.

Lemma canon_mantissa (p : positive) :
  digits p <= 24 ->
  Z.pos (Pos.shiftl p (Z.to_N (24 - digits p))) = Z.pos p * 2 ^ (24 - digits p) /\
  digits (Pos.shiftl p (Z.to_N (24 - digits p))) = 24.
Proof.
  intro Hp. assert (E : Z.pos (Pos.shiftl p (Z.to_N (24 - digits p)))
                        = Z.pos p * 2 ^ (24 - digits p)).
  { rewrite shiftl_value, Z2N.id by lia. reflexivity. }
  split; [exact E|].
  rewrite (shifted_digits _ p (24 - digits p)); [lia|lia|exact E].
Qed.

(** A number of at most 24 digits followed by enough zeros to fill the
    mantissa rounds to itself. *)
Lemma round_aux_exact (s : bool) (m p : positive) (k : Z) :
  digits p <= 24 -> 24 - digits p <= k -> Z.pos m = Z.pos p * 2 ^ k ->
  binary_round_aux 24 128 s (Z.pos m) (- k) loc_Exact = canon s p.
Proof.
  intros Hp Hk E. pose proof (digits_pos p) as Hd.
  destruct (canon_mantissa p Hp) as [Hv Hq].
  set (q := Pos.shiftl p (Z.to_N (24 - digits p))) in *.
  assert (Hm : m = Pos.shiftl q (Z.to_N (k - (24 - digits p)))).
  { apply pos_by_value; [lia|]. rewrite E, Hv, <- Z.mul_assoc, <- Z.pow_add_r by lia.
    do 2 f_equal. lia. }
  rewrite Hm.
  replace (- k) with (digits p - 24 - Z.of_N (Z.to_N (k - (24 - digits p))))
    by (rewrite Z2N.id; lia).
  apply round_aux_zeros; [exact Hq|lia].
Qed.

Lemma round_exact (s : bool) (m p : positive) (k : Z) :
  digits p <= 24 -> 0 <= k -> Z.pos m = Z.pos p * 2 ^ k ->
  binary_round 24 128 s m (- k) = canon s p.
Proof.
  intros Hp Hk E. pose proof (digits_pos p) as Hd. unfold binary_round.
  change (Z.pos (digits2_pos m)) with (digits m).
  rewrite (shifted_digits m p k Hk E). unfold fexp, emin.
  replace (Z.max (digits p + k + - k - 24) (3 - 128 - 24)) with (digits p - 24) by lia.
  unfold shl_align.
  destruct (digits p - 24 - - k) as [|d|d] eqn:Ed.
  - replace (- k) with (- (24 - digits p)) by lia.
    apply (round_aux_exact s m p (24 - digits p)); [lia|lia|].
    rewrite E. do 2 f_equal. lia.
  - apply (round_aux_exact s m p k); [lia|lia|exact E].
  - replace (digits p - 24) with (- (24 - digits p)) by lia.
    apply (round_aux_exact s _ p (24 - digits p)); [lia|lia|].
    rewrite iter_xO, E, <- Z.mul_assoc, <- Z.pow_add_r by lia.
    do 2 f_equal. lia.
Qed.

(** The float32 of a whole number. *)
Definition whole (z : Z) : spec_float :=
  match z with
  | 0 => S754_zero false
  | Z.pos p => canon false p
  | Z.neg p => canon true p
  end.

Lemma normalize_exact (c k : Z) :
  Z.abs c < 2 ^ 24 -> 0 <= k ->
  binary_normalize 24 128 (c * 2 ^ k) (- k) false = whole c.
Proof.
  intros Hc Hk. assert (H2 : 0 < 2 ^ k) by (apply Z.pow_pos_nonneg; lia).
  destruct c as [|p|p]; cbn [whole].
  - reflexivity.
  - destruct (Z.pos p * 2 ^ k) as [|m|m] eqn:E; try lia.
    cbn [binary_normalize]. apply round_exact; [apply digits_le; lia|exact Hk|now symmetry].
  - destruct (Z.neg p * 2 ^ k) as [|m|m] eqn:E; try lia.
    cbn [binary_normalize]. apply round_exact; [apply digits_le; lia|exact Hk|lia].
Qed.

Lemma of_Z_whole (z : Z) : Z.abs z < 2 ^ 24 -> F32.of_Z z = whole z.
Proof.
  intro Hz. unfold F32.of_Z.
  replace z with (z * 2 ^ 0) at 1 by (simpl; lia).
  now apply (normalize_exact z 0).
Qed.

(** *** Sums, differences and squares *)

Lemma shl_align_value (m : positive) (e e' : Z) :
  e' <= e -> Z.pos (fst (shl_align m e e')) = Z.pos m * 2 ^ (e - e').
Proof.
  intro He. unfold shl_align. destruct (e' - e) as [|d|d] eqn:Ed; cbn [fst]; try lia.
  - replace (e - e') with 0 by lia. simpl. lia.
  - rewrite iter_xO. do 2 f_equal. lia.
Qed.

(** The two mantissas of a sum, aligned on the smaller exponent. *)
Lemma aligned (pa pb : positive) :
  digits pa <= 24 -> digits pb <= 24 ->
  let ea := digits pa - 24 in
  let eb := digits pb - 24 in
  let ma := Pos.shiftl pa (Z.to_N (24 - digits pa)) in
  let mb := Pos.shiftl pb (Z.to_N (24 - digits pb)) in
  Z.pos (fst (shl_align ma ea (Z.min ea eb))) = Z.pos pa * 2 ^ (- Z.min ea eb) /\
  Z.pos (fst (shl_align mb eb (Z.min ea eb))) = Z.pos pb * 2 ^ (- Z.min ea eb).
Proof.
  intros Ha Hb ea eb ma mb.
  pose proof (digits_pos pa). pose proof (digits_pos pb).
  destruct (canon_mantissa pa Ha) as [Va _]. destruct (canon_mantissa pb Hb) as [Vb _].
  fold ma in Va. fold mb in Vb.
  split; rewrite shl_align_value by lia.
  - rewrite Va, <- Z.mul_assoc, <- Z.pow_add_r by (subst ea eb; lia).
    do 2 f_equal. subst ea eb. lia.
  - rewrite Vb, <- Z.mul_assoc, <- Z.pow_add_r by (subst ea eb; lia).
    do 2 f_equal. subst ea eb. lia.
Qed.

Lemma add_finite (sa sb : bool) (pa pb : positive) :
  digits pa <= 24 -> digits pb <= 24 ->
  Z.abs (cond_Zopp sa (Z.pos pa) + cond_Zopp sb (Z.pos pb)) < 2 ^ 24 ->
  F32.add (canon sa pa) (canon sb pb)
  = whole (cond_Zopp sa (Z.pos pa) + cond_Zopp sb (Z.pos pb)).
Proof.
  intros Ha Hb Hc. unfold F32.add, canon. cbn [SFadd].
  destruct (aligned pa pb Ha Hb) as [Va Vb]. cbn zeta in Va, Vb. rewrite Va, Vb.
  pose proof (digits_pos pa). pose proof (digits_pos pb).
  set (ez := Z.min (digits pa - 24) (digits pb - 24)) in *.
  replace (cond_Zopp sa (Z.pos pa * 2 ^ (- ez)) + cond_Zopp sb (Z.pos pb * 2 ^ (- ez)))
    with ((cond_Zopp sa (Z.pos pa) + cond_Zopp sb (Z.pos pb)) * 2 ^ (- ez))
    by (destruct sa, sb; unfold cond_Zopp; ring).
  replace ez with (- (- ez)) at 2 by lia.
  apply normalize_exact; [exact Hc|lia].
Qed.

Lemma sub_finite (sa sb : bool) (pa pb : positive) :
  digits pa <= 24 -> digits pb <= 24 ->
  Z.abs (cond_Zopp sa (Z.pos pa) - cond_Zopp sb (Z.pos pb)) < 2 ^ 24 ->
  F32.sub (canon sa pa) (canon sb pb)
  = whole (cond_Zopp sa (Z.pos pa) - cond_Zopp sb (Z.pos pb)).
Proof.
  intros Ha Hb Hc. unfold F32.sub, canon. cbn [SFsub].
  destruct (aligned pa pb Ha Hb) as [Va Vb]. cbn zeta in Va, Vb. rewrite Va, Vb.
  pose proof (digits_pos pa). pose proof (digits_pos pb).
  set (ez := Z.min (digits pa - 24) (digits pb - 24)) in *.
  replace (cond_Zopp sa (Z.pos pa * 2 ^ (- ez)) - cond_Zopp sb (Z.pos pb * 2 ^ (- ez)))
    with ((cond_Zopp sa (Z.pos pa) - cond_Zopp sb (Z.pos pb)) * 2 ^ (- ez))
    by (destruct sa, sb; unfold cond_Zopp; ring).
  replace ez with (- (- ez)) at 2 by lia.
  apply normalize_exact; [exact Hc|lia].
Qed.

Lemma small_digits (p : positive) : Z.pos p < 2 ^ 24 -> digits p <= 24.
Proof. intro H. apply digits_le; lia. Qed.

(** A sum of whole numbers that stays below 2^24 is exact. *)
Lemma add_whole (a b : Z) :
  Z.abs a < 2 ^ 24 -> Z.abs b < 2 ^ 24 -> Z.abs (a + b) < 2 ^ 24 ->
  F32.add (whole a) (whole b) = whole (a + b).
Proof.
  intros Ha Hb Hc.
  destruct a as [|pa|pa], b as [|pb|pb]; try reflexivity;
    cbn [whole]; apply small_digits in Ha, Hb.
  - exact (add_finite false false pa pb Ha Hb Hc).
  - exact (add_finite false true pa pb Ha Hb Hc).
  - exact (add_finite true false pa pb Ha Hb Hc).
  - exact (add_finite true true pa pb Ha Hb Hc).
Qed.

(** So is a difference. *)
Lemma sub_whole (a b : Z) :
  Z.abs a < 2 ^ 24 -> Z.abs b < 2 ^ 24 -> Z.abs (a - b) < 2 ^ 24 ->
  F32.sub (whole a) (whole b) = whole (a - b).
Proof.
  intros Ha Hb Hc.
  destruct a as [|pa|pa], b as [|pb|pb]; try reflexivity;
    cbn [whole]; apply small_digits in Ha, Hb.
  - exact (sub_finite false false pa pb Ha Hb Hc).
  - exact (sub_finite false true pa pb Ha Hb Hc).
  - exact (sub_finite true false pa pb Ha Hb Hc).
  - exact (sub_finite true true pa pb Ha Hb Hc).
Qed.

(** And a square. *)
Lemma mul_square (a : Z) :
  a * a < 2 ^ 24 -> F32.mul (whole a) (whole a) = whole (a * a).
Proof.
  intro Ha.
  assert (Hsq : forall s p, Z.pos p * Z.pos p < 2 ^ 24 ->
            F32.mul (canon s p) (canon s p) = canon false (p * p)).
  { intros s p Hp. unfold F32.mul, canon at 1 2. cbn [SFmul].
    replace (xorb s s) with false by (now destruct s).
    assert (Hd : digits p <= 24) by (apply small_digits; nia).
    destruct (canon_mantissa p Hd) as [Hv _]. pose proof (digits_pos p).
    pose proof (digits_bounds p) as [Plo Phi].
    pose proof (digits_bounds (p * p)) as [Slo Shi].
    assert (Hdd : digits (p * p) <= 24) by (apply small_digits; lia).
    assert (Hlow : 2 * digits p - 2 < digits (p * p)).
    { apply (Z.pow_lt_mono_r_iff 2); [lia|pose proof (digits_pos (p * p)); lia|].
      replace (2 * digits p - 2) with ((digits p - 1) + (digits p - 1)) by lia.
      rewrite Z.pow_add_r by lia.
      assert (0 < 2 ^ (digits p - 1)) by (apply Z.pow_pos_nonneg; lia).
      rewrite Pos2Z.inj_mul in Shi. nia. }
    replace (digits p - 24 + (digits p - 24)) with (- (48 - 2 * digits p)) by lia.
    apply round_aux_exact; [exact Hdd|lia|].
    rewrite !Pos2Z.inj_mul, Hv.
    replace (48 - 2 * digits p) with ((24 - digits p) + (24 - digits p)) by lia.
    rewrite Z.pow_add_r by lia. ring. }
  destruct a as [|p|p]; cbn [whole]; [reflexivity| |]; now apply Hsq.
Qed.

(** [int] gives the whole number back. *)
Lemma int_whole (z : Z) : Z.abs z < 2 ^ 24 -> F32.int (whole z) = Some z.
Proof.
  intro Hz.
  assert (Hp : forall s p, Z.pos p < 2 ^ 24 ->
            F32.int (canon s p) = Some (cond_Zopp s (Z.pos p))).
  { intros s p Hp. unfold canon, F32.int, Py.trunc_finite.
    assert (Hd : digits p <= 24) by now apply small_digits.
    destruct (canon_mantissa p Hd) as [Hv _]. pose proof (digits_pos p).
    rewrite Hv. f_equal.
    destruct (0 <=? digits p - 24) eqn:E.
    - apply Z.leb_le in E. replace (digits p - 24) with 0 by lia.
      replace (24 - digits p) with 0 by lia. simpl. destruct s; unfold cond_Zopp; lia.
    - replace (- (digits p - 24)) with (24 - digits p) by lia.
      rewrite Z.div_mul by (apply Z.pow_nonzero; lia). reflexivity. }
  destruct z as [|p|p]; cbn [whole]; [reflexivity| |]; rewrite Hp by lia; reflexivity.
Qed.

(** *** Comparisons *)

Lemma canon_compare (pa pb : positive) :
  digits pa <= 24 -> digits pb <= 24 ->
  match digits pa - 24 ?= digits pb - 24 with
  | Lt => Lt
  | Gt => Gt
  | Eq => (Pos.shiftl pa (Z.to_N (24 - digits pa))
           ?= Pos.shiftl pb (Z.to_N (24 - digits pb)))%positive
  end = (pa ?= pb)%positive.
Proof.
  intros Ha Hb.
  destruct (canon_mantissa pa Ha) as [Va _]. destruct (canon_mantissa pb Hb) as [Vb _].
  pose proof (digits_bounds pa) as [Alo Ahi]. pose proof (digits_bounds pb) as [Blo Bhi].
  pose proof (digits_pos pa). pose proof (digits_pos pb).
  symmetry. destruct (Z.compare_spec (digits pa - 24) (digits pb - 24)) as [E|E|E].
  - assert (Ed : digits pa = digits pb) by lia. rewrite Ed in *.
    assert (H2 : 0 < 2 ^ (24 - digits pb)) by (apply Z.pow_pos_nonneg; lia).
    destruct (Pos.compare_spec (Pos.shiftl pa (Z.to_N (24 - digits pb)))
                (Pos.shiftl pb (Z.to_N (24 - digits pb)))) as [F|F|F].
    + apply Pos.compare_eq_iff. apply Pos2Z.inj.
      assert (Z.pos pa * 2 ^ (24 - digits pb) = Z.pos pb * 2 ^ (24 - digits pb)) by congruence.
      nia.
    + apply Pos.compare_lt_iff. apply Pos2Z.pos_lt_pos in F. rewrite Va, Vb in F.
      apply Pos2Z.pos_lt_pos. nia.
    + apply Pos.compare_gt_iff. apply Pos2Z.pos_lt_pos in F. rewrite Va, Vb in F.
      apply Pos2Z.pos_lt_pos. nia.
  - apply Pos.compare_lt_iff, Pos2Z.pos_lt_pos.
    assert (2 ^ digits pa <= 2 ^ (digits pb - 1)) by (apply Z.pow_le_mono_r; lia). lia.
  - apply Pos.compare_gt_iff, Pos2Z.pos_lt_pos.
    assert (2 ^ digits pb <= 2 ^ (digits pa - 1)) by (apply Z.pow_le_mono_r; lia). lia.
Qed.

(** Whole numbers below 2^24 compare as their float32 values do. *)
Lemma compare_whole (a b : Z) :
  Z.abs a < 2 ^ 24 -> Z.abs b < 2 ^ 24 ->
  SFcompare (whole a) (whole b) = Some (a ?= b).
Proof.
  intros Ha Hb.
  destruct a as [|pa|pa], b as [|pb|pb]; try reflexivity;
    cbn [whole]; apply small_digits in Ha, Hb; unfold canon; cbn [SFcompare Z.compare].
  - change (PosDef.Pos.compare_cont Eq ?x ?y) with (Pos.compare x y).
    now rewrite canon_compare.
  - change (PosDef.Pos.compare_cont Eq ?x ?y) with (Pos.compare x y).
    rewrite <- (canon_compare pa pb Ha Hb).
    now destruct (digits pa - 24 ?= digits pb - 24).
Qed.

Lemma ltb_whole (a b : Z) :
  Z.abs a < 2 ^ 24 -> Z.abs b < 2 ^ 24 -> SFltb (whole a) (whole b) = (a <? b).
Proof.
  intros Ha Hb. unfold SFltb, Z.ltb. rewrite compare_whole by assumption. reflexivity.
Qed.

Lemma leb_whole (a b : Z) :
  Z.abs a < 2 ^ 24 -> Z.abs b < 2 ^ 24 -> SFleb (whole a) (whole b) = (a <=? b).
Proof.
  intros Ha Hb. unfold SFleb, Z.leb. rewrite compare_whole by assumption.
  now destruct (a ?= b).
Qed.

(** *** Square roots *)

(** A mantissa of 24 digits with what was cut off below it: the
    rounding leaves it or moves to the next float. *)
Lemma round_aux_normal (q : positive) (e : Z) (l : location) :
  digits q = 24 -> -149 <= e <= 103 -> l <> loc_Inexact Eq ->
  binary_round_aux 24 128 false (Z.pos q) e l
  = if Z.pos (match l with loc_Inexact Gt => q + 1 | _ => q end) <? 2 ^ 24
    then S754_finite false (match l with loc_Inexact Gt => q + 1 | _ => q end) e
    else S754_finite false 8388608 (e + 1).
Proof.
  intros Hq He Hl. pose proof (digits_bounds q) as [Qlo Qhi]. rewrite Hq in Qlo, Qhi.
  assert (Hkeep : forall (m : positive) (l' : location), digits m = 24 ->
            shr_fexp 24 128 (Z.pos m) e l' = (shr_record_of_loc (Z.pos m) l', e)).
  { intros m l' Hm. unfold shr_fexp. change (Zdigits2 (Z.pos m)) with (digits m).
    rewrite Hm. unfold fexp, emin.
    replace (Z.max (24 + e - 24) (3 - 128 - 24) - e) with 0 by lia. reflexivity. }
  assert (Hfit : (e <=? 128 - 24) = true) by (apply Z.leb_le; lia).
  unfold binary_round_aux. rewrite (Hkeep q l Hq).
  destruct l as [|[ | | ]]; [| congruence | |];
    cbn [shr_record_of_loc shr_m loc_of_shr_record round_nearest_even].
  - rewrite (Hkeep q _ Hq). cbn [shr_record_of_loc shr_m]. rewrite Hfit.
    destruct (Z.pos q <? 2 ^ 24) eqn:E; [reflexivity|apply Z.ltb_ge in E; lia].
  - rewrite (Hkeep q _ Hq). cbn [shr_record_of_loc shr_m]. rewrite Hfit.
    destruct (Z.pos q <? 2 ^ 24) eqn:E; [reflexivity|apply Z.ltb_ge in E; lia].
  - change (Z.pos q + 1) with (Z.pos (q + 1)).
    destruct (Z.pos (q + 1) <? 2 ^ 24) eqn:E.
    + apply Z.ltb_lt in E.
      assert (Hq1 : digits (q + 1) = 24) by (apply digits_unique; lia).
      rewrite (Hkeep (q + 1)%positive _ Hq1). cbn [shr_record_of_loc shr_m].
      now rewrite Hfit.
    + apply Z.ltb_ge in E.
      assert (Hq1 : (q + 1)%positive = 16777216%positive) by lia.
      rewrite Hq1. unfold shr_fexp. cbn [Zdigits2 digits2_pos Pos.succ].
      unfold fexp, emin.
      replace (Z.max (25 + e - 24) (3 - 128 - 24) - e) with 1 by lia.
      cbn [shr shr_record_of_loc SpecFloat.iter_pos shr_1 orb shr_m].
      destruct (e + 1 <=? 128 - 24) eqn:F; [reflexivity|apply Z.leb_gt in F; lia].
Qed.

(** The square root of a whole number below 2^24 is a float32 whose
    integer part is the integer square root. *)
Lemma sqrt_whole (n : Z) :
  0 < n < 2 ^ 24 ->
  exists m e, F32.sqrt (whole n) = S754_finite false m e /\
    digits m = 24 /\ Py.trunc_finite false m e = Z.sqrt n.
Proof.
  intros [Hpos Hsmall]. destruct n as [|p|p]; try lia. cbn [whole].
  assert (Hd : digits p <= 24) by now apply small_digits.
  pose proof (digits_pos p) as Hd0.
  pose proof (digits_bounds p) as [Plo Phi].
  destruct (canon_mantissa p Hd) as [Hv Hq].
  unfold canon, F32.sqrt. cbn [SFsqrt].
  set (mx := Pos.shiftl p (Z.to_N (24 - digits p))) in *.
  unfold SFsqrt_core_binary. change (Zdigits2 (Z.pos mx)) with (digits mx). rewrite Hq.
  rewrite !Z.div2_div. unfold fexp, emin.
  set (h := (24 + (digits p - 24) + 1) / 2).
  assert (Hh : 2 * h <= digits p + 1 <= 2 * h + 1).
  { subst h. pose proof (Z.div_mod (24 + (digits p - 24) + 1) 2 ltac:(lia)).
    pose proof (Z.mod_pos_bound (24 + (digits p - 24) + 1) 2 ltac:(lia)). lia. }
  assert (Hh2 : 2 * ((digits p - 24) / 2) <= digits p - 24).
  { pose proof (Z.div_mod (digits p - 24) 2 ltac:(lia)).
    pose proof (Z.mod_pos_bound (digits p - 24) 2 ltac:(lia)). lia. }
  assert (Hh3 : digits p - 24 <= 2 * ((digits p - 24) / 2) + 1).
  { pose proof (Z.div_mod (digits p - 24) 2 ltac:(lia)).
    pose proof (Z.mod_pos_bound (digits p - 24) 2 ltac:(lia)). lia. }
  replace (Z.min (Z.max (h - 24) (3 - 128 - 24)) ((digits p - 24) / 2)) with (h - 24) by lia.
  set (k := 24 - h). assert (Hk : 12 <= k <= 23) by (subst k; lia).
  replace (h - 24) with (- k) by (subst k; lia).
  replace (digits p - 24 - 2 * - k) with (digits p - 24 + 2 * k) by lia.
  destruct (digits p - 24 + 2 * k) as [|sh|sh] eqn:Es; try lia.
  rewrite Z.shiftl_mul_pow2 by lia. rewrite <- Es.
  set (B := 2 ^ k).
  assert (HB : 2 ^ 12 <= B) by (subst B; apply Z.pow_le_mono_r; lia).
  assert (Em : Z.pos mx * 2 ^ (digits p - 24 + 2 * k) = Z.pos p * (B * B)).
  { rewrite Hv, <- Z.mul_assoc, <- Z.pow_add_r by lia. subst B.
    rewrite <- Z.pow_add_r by lia. do 2 f_equal. lia. }
  rewrite Em.
  pose proof (Z.sqrtrem_spec (Z.pos p * (B * B)) ltac:(nia)) as Hspec.
  destruct (Z.sqrtrem (Z.pos p * (B * B))) as [q r]. destruct Hspec as [Hqr Hr].
  pose proof (Z.sqrt_spec (Z.pos p) ltac:(lia)) as [Tlo Thi].
  set (t := Z.sqrt (Z.pos p)) in *.
  assert (Ht0 : 0 <= t) by apply Z.sqrt_nonneg.
  assert (Ht : t < 2 ^ 12).
  { destruct (Z.lt_ge_cases t (2 ^ 12)) as [H|H]; [exact H|].
    assert (2 ^ 12 * 2 ^ 12 <= t * t) by nia. simpl in *. lia. }
  (* the size of the root *)
  assert (Hm48 : 2 ^ 46 <= Z.pos p * (B * B) < 2 ^ 48).
  { rewrite <- Em, Hv, <- Z.mul_assoc, <- Z.pow_add_r by lia.
    replace (24 - digits p + (digits p - 24 + 2 * k)) with (2 * k) by lia.
    assert (E1 : 2 ^ 46 <= 2 ^ (digits p - 1 + 2 * k)) by (apply Z.pow_le_mono_r; lia).
    assert (E2 : 2 ^ (digits p + 2 * k) <= 2 ^ 48) by (apply Z.pow_le_mono_r; lia).
    rewrite Z.pow_add_r in E1, E2 by lia.
    assert (0 < 2 ^ (2 * k)) by (apply Z.pow_pos_nonneg; lia). nia. }
  assert (Hq0 : 0 <= q) by lia.
  assert (Hq23 : 2 ^ 23 <= q < 2 ^ 24).
  { change (2 ^ 46) with (2 ^ 23 * 2 ^ 23) in Hm48.
    change (2 ^ 48) with (2 ^ 24 * 2 ^ 24) in Hm48. split; nia. }
  destruct q as [|qp|qp]; try (simpl in Hq23; lia).
  assert (Hqd : digits qp = 24) by (apply digits_unique; simpl; lia).
  (* where the root lies *)
  assert (Hlow : t * B <= Z.pos qp) by nia.
  assert (Hhigh : Z.pos qp < (t + 1) * B) by nia.
  assert (Hup : r <= Z.pos qp \/ Z.pos qp + 1 < (t + 1) * B).
  { destruct (Z.le_gt_cases r (Z.pos qp)) as [H|H]; [now left|right].
    destruct (Z.lt_ge_cases (Z.pos qp + 1) ((t + 1) * B)) as [H'|H']; [exact H'|].
    exfalso. assert (Eq1 : Z.pos qp + 1 = (t + 1) * B) by lia.
    assert (Z.pos p + 1 <= (t + 1) * (t + 1)) by lia.
    assert (Z.pos p * (B * B) + B * B <= (t + 1) * (t + 1) * (B * B)) by nia.
    assert (Z.pos qp * Z.pos qp + Z.pos qp = (Z.pos qp + 1) * (Z.pos qp + 1) - (Z.pos qp + 1))
      by ring.
    rewrite Eq1 in H2.
    assert ((t + 1) * B < B * B) by nia. nia. }
  assert (Hdiv : forall m, t * B <= m < (t + 1) * B -> m / 2 ^ k = t).
  { intros m Hm. fold B. symmetry. apply (Z.div_unique m B t (m - t * B)); lia. }
  set (l := if r =? 0 then loc_Exact else loc_Inexact (if r <=? Z.pos qp then Lt else Gt)).
  assert (Hl : l <> loc_Inexact Eq).
  { subst l. destruct (r =? 0); [discriminate|]. destruct (r <=? Z.pos qp); discriminate. }
  rewrite (round_aux_normal qp (- k) l Hqd ltac:(lia) Hl).
  assert (Hm1 : t * B <= Z.pos (match l with loc_Inexact Gt => qp + 1 | _ => qp end)
                < (t + 1) * B).
  { subst l. destruct (r =? 0); [lia|].
    destruct (r <=? Z.pos qp) eqn:E; [lia|]. apply Z.leb_gt in E.
    rewrite Pos2Z.inj_add. lia. }
  assert (Hge : Z.pos qp <= Z.pos (match l with loc_Inexact Gt => qp + 1 | _ => qp end)).
  { destruct l as [|[ | | ]]; lia. }
  set (m1 := match l with loc_Inexact Gt => (qp + 1)%positive | _ => qp end) in *.
  destruct (Z.pos m1 <? 2 ^ 24) eqn:E.
  - apply Z.ltb_lt in E. exists m1, (- k). split; [reflexivity|]. split.
    + apply digits_unique. simpl in Hq23. simpl. lia.
    + unfold Py.trunc_finite. destruct (0 <=? - k) eqn:F; [apply Z.leb_le in F; lia|].
      replace (- - k) with k by lia. now apply Hdiv.
  - apply Z.ltb_ge in E. exists 8388608%positive, (- k + 1). split; [reflexivity|].
    split; [reflexivity|].
    assert (Em1 : Z.pos m1 = 2 ^ 24).
    { subst m1 l. destruct (r =? 0); [lia|]. destruct (r <=? Z.pos qp); [lia|].
      rewrite Pos2Z.inj_add in *. lia. }
    unfold Py.trunc_finite. destruct (0 <=? - k + 1) eqn:F; [apply Z.leb_le in F; lia|].
    rewrite <- (Hdiv (Z.pos m1) Hm1), Em1.
    change 8388608 with (2 ^ 23).
    replace (- (- k + 1)) with (k - 1) by lia.
    rewrite <- !Z.pow_sub_r by lia. f_equal. lia.
Qed.

End WholeNumbers.

(** ** Geometry kernel *)

Module GeometryProofs.

Import Geometry Spec NumberFacts Reference FloatOrder WholeNumbers.

(** *** [np.argmin] and [np.argmax] *)

Section Scan.

(** The scan both functions run: [take k best] says that the cell [k]
    replaces the best cell so far, [before] is the order it follows. *)
Variable take : spec_float -> spec_float -> bool.
Variable before : spec_float -> spec_float -> Prop.

Hypothesis take_spec : forall k best,
  take k best = true <-> Np.isnan best = true \/ Np.isnan k = true \/ before k best.
Hypothesis before_number : forall a b, before a b -> Np.isnan a = false /\ Np.isnan b = false.
Hypothesis before_irrefl : forall a, ~ before a a.
Hypothesis before_asym : forall a b, before a b -> ~ before b a.
Hypothesis before_trans : forall a b c, before a b -> before b c -> before a c.
Hypothesis before_not_before : forall a b c,
  before a b -> Np.isnan c = false -> ~ before c b -> before a c.

Fixpoint scan_from (ks : list spec_float) (i best_i : nat) (best : spec_float) : nat :=
  match ks with
  | [] => best_i
  | k :: ks' =>
      if Np.isnan best then best_i
      else if take k best then scan_from ks' (S i) i k
      else scan_from ks' (S i) best_i best
  end.

Definition scan (ks : list spec_float) : option nat :=
  match ks with
  | [] => None
  | k :: ks' => Some (scan_from ks' 1%nat 0%nat k)
  end.

Lemma scan_from_bound (ks : list spec_float) : forall i best_i best,
  (best_i < i)%nat -> (scan_from ks i best_i best < i + length ks)%nat.
Proof.
  induction ks as [|k ks IH]; intros i best_i best Hlt; simpl; [lia|].
  destruct (Np.isnan best); [lia|].
  destruct (take k best).
  - specialize (IH (S i) i k). lia.
  - specialize (IH (S i) best_i best). lia.
Qed.

Lemma scan_some (ks : list spec_float) :
  ks <> [] -> exists i, scan ks = Some i /\ (i < length ks)%nat.
Proof.
  destruct ks as [|k ks]; [congruence|]. intros _. simpl.
  eexists. split; [reflexivity|].
  pose proof (scan_from_bound ks 1 0 k). lia.
Qed.

Variable f : row -> spec_float.

(** Scanning the rest [l] of the rows [pre ++ l], with the best row so
    far at [best_i], ends on the row [m] whose key is strictly before
    all the others. *)
Lemma scan_from_finds (m : row) (l : list row) : forall pre best_i pb,
  nth_error (pre ++ l) best_i = Some pb ->
  (forall p, In p (pb :: l) -> p = m \/ before (f m) (f p)) ->
  pb = m \/ In m l ->
  nth_error (pre ++ l) (scan_from (map f l) (length pre) best_i (f pb)) = Some m.
Proof.
  induction l as [|a l IH]; intros pre best_i pb Hnth Hmin Hin; simpl.
  - destruct Hin as [->|[]]. exact Hnth.
  - destruct (Np.isnan (f pb)) eqn:Enan.
    { destruct (Hmin pb) as [->|Hlt]; [simpl; tauto|exact Hnth|].
      apply before_number in Hlt. destruct Hlt; congruence. }
    replace (pre ++ a :: l) with ((pre ++ [a]) ++ l) in *
      by (now rewrite <- app_assoc).
    replace (S (length pre)) with (length (pre ++ [a]))
      by (rewrite length_app; simpl; lia).
    destruct (take (f a) (f pb)) eqn:E.
    + apply IH.
      * rewrite nth_error_app1 by (rewrite length_app; simpl; lia).
        rewrite nth_error_app2 by lia. now rewrite Nat.sub_diag.
      * intros p Hp. apply Hmin. simpl in *. tauto.
      * apply take_spec in E.
        destruct (Hmin a) as [->|Hma]; [simpl; tauto|now left|].
        destruct Hin as [->|[->|Hin]]; [|now left|now right].
        exfalso. destruct E as [E|[E|E]]; [congruence| |].
        -- apply before_number in Hma. destruct Hma; congruence.
        -- exact (before_asym _ _ E Hma).
    + apply IH.
      * exact Hnth.
      * intros p Hp. apply Hmin. simpl in *. tauto.
      * destruct Hin as [->|[->|Hin]]; [now left| |now right].
        left. destruct (Hmin pb) as [->|Hlt]; [simpl; tauto|reflexivity|].
        exfalso. assert (Ht : take (f m) (f pb) = true) by (apply take_spec; tauto).
        congruence.
Qed.

Lemma scan_finds (m : row) (pts : list row) :
  In m pts ->
  (forall p, In p pts -> p = m \/ before (f m) (f p)) ->
  exists i, scan (map f pts) = Some i /\ nth_error pts i = Some m.
Proof.
  destruct pts as [|a l]; intros Hin Hmin; [destruct Hin|].
  simpl. eexists. split; [reflexivity|].
  apply (scan_from_finds m l [a] 0%nat a); [reflexivity|exact Hmin|].
  destruct Hin as [->|Hin]; [now left|now right].
Qed.

(** Cell [i] is the first NaN, or no cell is NaN and cell [i] is the
    first of those that no cell is before. *)
Definition first (ks : list spec_float) (i : nat) : Prop :=
  exists k, nth_error ks i = Some k /\
    (forall j q, (j < i)%nat -> nth_error ks j = Some q ->
       Np.isnan q = false /\ (Np.isnan k = false -> before k q)) /\
    (Np.isnan k = false ->
     forall j q, nth_error ks j = Some q -> Np.isnan q = false /\ ~ before q k).

Lemma first_more (pre l : list spec_float) (i : nat) (k : spec_float) :
  nth_error pre i = Some k -> Np.isnan k = true -> first pre i -> first (pre ++ l) i.
Proof.
  intros Hk Hnan (k' & Hk' & Hbefore & _).
  assert (k' = k) by congruence. subst k'.
  assert (Hi : (i < length pre)%nat) by (apply nth_error_Some; congruence).
  exists k. split; [now rewrite nth_error_app1|]. split.
  - intros j q Hj Hq. rewrite nth_error_app1 in Hq by lia. now apply (Hbefore j).
  - congruence.
Qed.

Lemma nth_error_snoc {A : Type} (pre : list A) (a : A) (j : nat) (q : A) :
  nth_error (pre ++ [a]) j = Some q ->
  ((j < length pre)%nat /\ nth_error pre j = Some q) \/ (j = length pre /\ q = a).
Proof.
  intro H. destruct (Nat.lt_ge_cases j (length pre)) as [Hj|Hj].
  - left. now rewrite nth_error_app1 in H.
  - right. rewrite nth_error_app2 in H by lia.
    destruct (j - length pre)%nat as [|n] eqn:E; simpl in H.
    + split; [lia|congruence].
    + now destruct n.
Qed.

Lemma scan_from_first (l : list spec_float) : forall pre best_i best,
  nth_error pre best_i = Some best -> first pre best_i ->
  first (pre ++ l) (scan_from l (length pre) best_i best).
Proof.
  induction l as [|a l IH]; intros pre best_i best Hnth Hfirst; simpl.
  - now rewrite app_nil_r.
  - destruct (Np.isnan best) eqn:Enan; [now apply (first_more _ _ _ best)|].
    destruct Hfirst as (k & Hk & Hearlier & Hall).
    assert (k = best) by congruence. subst k. specialize (Hall Enan).
    assert (Hi : (best_i < length pre)%nat) by (apply nth_error_Some; congruence).
    replace (pre ++ a :: l) with ((pre ++ [a]) ++ l) by (now rewrite <- app_assoc).
    replace (S (length pre)) with (length (pre ++ [a]))
      by (rewrite length_app; simpl; lia).
    destruct (take a best) eqn:E.
    + apply IH.
      * rewrite nth_error_app2 by lia. now rewrite Nat.sub_diag.
      * exists a. split.
        { rewrite nth_error_app2 by lia. now rewrite Nat.sub_diag. }
        apply take_spec in E. destruct E as [E|E]; [congruence|].
        split.
        -- intros j q Hj Hq. rewrite nth_error_app1 in Hq by lia.
           destruct (Hall j q Hq) as [Hq1 Hq2]. split; [exact Hq1|].
           intro Ha. destruct E as [E|E]; [congruence|].
           now apply (before_not_before a best q).
        -- intros Ha j q Hq. destruct E as [E|E]; [congruence|].
           apply nth_error_snoc in Hq. destruct Hq as [[Hj Hq]|[_ ->]].
           ++ destruct (Hall j q Hq) as [Hq1 Hq2]. split; [exact Hq1|].
              intro Hqa. apply Hq2. now apply (before_trans q a best).
           ++ split; [exact Ha|apply before_irrefl].
    + apply IH.
      * now rewrite nth_error_app1.
      * assert (Hn : ~ (Np.isnan best = true \/ Np.isnan a = true \/ before a best)).
        { intro Hn. apply take_spec in Hn. congruence. }
        exists best. split; [now rewrite nth_error_app1|]. split.
        -- intros j q Hj Hq. rewrite nth_error_app1 in Hq by lia. now apply (Hearlier j).
        -- intros _ j q Hq. apply nth_error_snoc in Hq. destruct Hq as [[Hj Hq]|[_ ->]].
           ++ now apply (Hall j).
           ++ split; [destruct (Np.isnan a); tauto|tauto].
Qed.

Lemma scan_first (ks : list spec_float) (i : nat) : scan ks = Some i -> first ks i.
Proof.
  destruct ks as [|a l]; [discriminate|]. simpl. intros [= <-].
  apply (scan_from_first l [a] 0%nat a); [reflexivity|].
  exists a. split; [reflexivity|]. split.
  - intros j q Hj. lia.
  - intros Ha [|[|j]] q Hq; simpl in Hq; try discriminate.
    injection Hq as <-. split; [exact Ha|apply before_irrefl].
Qed.

End Scan.

Definition above (a b : spec_float) : Prop := below b a.

Lemma argmin_from_scan (ks : list spec_float) : forall i best_i best,
  Np.argmin_from ks i best_i best
  = scan_from (fun k best => negb (SFleb best k)) ks i best_i best.
Proof.
  induction ks as [|k ks IH]; intros i best_i best; simpl; [reflexivity|].
  now rewrite !IH.
Qed.

Lemma argmax_from_scan (ks : list spec_float) : forall i best_i best,
  Np.argmax_from ks i best_i best
  = scan_from (fun k best => negb (SFleb k best)) ks i best_i best.
Proof.
  induction ks as [|k ks IH]; intros i best_i best; simpl; [reflexivity|].
  now rewrite !IH.
Qed.

Lemma argmin_scan (ks : list spec_float) :
  Np.argmin ks = scan (fun k best => negb (SFleb best k)) ks.
Proof. destruct ks; simpl; [reflexivity|]. now rewrite argmin_from_scan. Qed.

Lemma argmax_scan (ks : list spec_float) :
  Np.argmax ks = scan (fun k best => negb (SFleb k best)) ks.
Proof. destruct ks; simpl; [reflexivity|]. now rewrite argmax_from_scan. Qed.

Lemma take_min (k best : spec_float) :
  negb (SFleb best k) = true <-> Np.isnan best = true \/ Np.isnan k = true \/ below k best.
Proof. apply not_leb. Qed.

Lemma take_max (k best : spec_float) :
  negb (SFleb k best) = true <-> Np.isnan best = true \/ Np.isnan k = true \/ above k best.
Proof. unfold above. rewrite not_leb. tauto. Qed.

Lemma below_number (a b : spec_float) :
  below a b -> Np.isnan a = false /\ Np.isnan b = false.
Proof. unfold below. tauto. Qed.

Lemma above_number (a b : spec_float) :
  above a b -> Np.isnan a = false /\ Np.isnan b = false.
Proof. unfold above, below. tauto. Qed.

Lemma above_not_above (a b c : spec_float) :
  above a b -> Np.isnan c = false -> ~ above c b -> above a c.
Proof.
  unfold above. intros (Hb & Ha & H) Hc Hn. split; [exact Hc|]. split; [exact Ha|].
  apply (lex_le_lt_trans (rank c) (rank b) (rank a)); [|exact H].
  intro H'. apply Hn. now repeat split.
Qed.

Lemma argmin_some (ks : list spec_float) :
  ks <> [] -> exists i, Np.argmin ks = Some i /\ (i < length ks)%nat.
Proof. rewrite argmin_scan. apply scan_some. Qed.

Lemma argmax_some (ks : list spec_float) :
  ks <> [] -> exists i, Np.argmax ks = Some i /\ (i < length ks)%nat.
Proof. rewrite argmax_scan. apply scan_some. Qed.

Lemma argmin_finds (f : row -> spec_float) (m : row) (pts : list row) :
  In m pts ->
  (forall p, In p pts -> p = m \/ SFltb (f m) (f p) = true) ->
  exists i, Np.argmin (map f pts) = Some i /\ nth_error pts i = Some m.
Proof.
  intros Hin Hmin. rewrite argmin_scan.
  apply (scan_finds _ below take_min below_number below_asym); [exact Hin|].
  intros p Hp. destruct (Hmin p Hp) as [->|H]; [now left|right; now apply ltb_below].
Qed.

Lemma argmax_finds (f : row -> spec_float) (m : row) (pts : list row) :
  In m pts ->
  (forall p, In p pts -> p = m \/ SFltb (f p) (f m) = true) ->
  exists i, Np.argmax (map f pts) = Some i /\ nth_error pts i = Some m.
Proof.
  intros Hin Hmax. rewrite argmax_scan.
  apply (scan_finds _ above take_max above_number
           (fun a b => below_asym b a)); [exact Hin|].
  intros p Hp. destruct (Hmax p Hp) as [->|H]; [now left|right; now apply ltb_below].
Qed.

Lemma not_below (a b : spec_float) : ~ below a b <-> SFltb a b = false.
Proof. rewrite <- ltb_below. destruct (SFltb a b); intuition congruence. Qed.

Lemma argmin_first (ks : list spec_float) (i : nat) :
  Np.argmin ks = Some i -> first_min ks i.
Proof.
  rewrite argmin_scan. intro H.
  apply (scan_first _ below take_min below_irrefl below_trans below_not_below) in H.
  destruct H as (k & Hk & Hearlier & Hall). exists k. split; [exact Hk|]. split.
  - intros j q Hj Hq. destruct (Hearlier j q Hj Hq) as [H1 H2]. split; [exact H1|].
    intro Hn. now apply ltb_below, H2.
  - intros Hn j q Hq. destruct (Hall Hn j q Hq) as [H1 H2]. split; [exact H1|].
    now apply not_below.
Qed.

Lemma argmax_first (ks : list spec_float) (i : nat) :
  Np.argmax ks = Some i -> first_max ks i.
Proof.
  rewrite argmax_scan. intro H.
  apply (scan_first _ above take_max (fun a => below_irrefl a)
           (fun a b c Hab Hbc => below_trans c b a Hbc Hab) above_not_above) in H.
  destruct H as (k & Hk & Hearlier & Hall). exists k. split; [exact Hk|]. split.
  - intros j q Hj Hq. destruct (Hearlier j q Hj Hq) as [H1 H2]. split; [exact H1|].
    intro Hn. now apply ltb_below, H2.
  - intros Hn j q Hq. destruct (Hall Hn j q Hq) as [H1 H2]. split; [exact H1|].
    now apply not_below.
Qed.

Lemma nth_error_some {A : Type} (l : list A) (i : nat) :
  (i < length l)%nat -> exists a, nth_error l i = Some a.
Proof.
  intro H. destruct (nth_error l i) eqn:E; [eauto|].
  apply nth_error_None in E. lia.
Qed.

(** *** [order_points] *)

(** On a non-empty array [order_points] returns four of its rows, as
    float32 rows. *)
Lemma order_points_rows (d : Np.dtype) (pts : list row) :
  pts <> [] ->
  exists i0 i1 i2 i3 tl tr br bl,
    Np.argmin (map (sum d) pts) = Some i0 /\
    Np.argmax (map (sum d) pts) = Some i2 /\
    Np.argmin (map (diff d) pts) = Some i1 /\
    Np.argmax (map (diff d) pts) = Some i3 /\
    nth_error pts i0 = Some tl /\ nth_error pts i1 = Some tr /\
    nth_error pts i2 = Some br /\ nth_error pts i3 = Some bl /\
    order_points d pts = Some (map (store d) [tl; tr; br; bl]).
Proof.
  intro Hne.
  assert (Hs : map (sum d) pts <> []) by (destruct pts; [congruence|discriminate]).
  assert (Hd : map (diff d) pts <> []) by (destruct pts; [congruence|discriminate]).
  destruct (argmin_some _ Hs) as (i0 & E0 & B0).
  destruct (argmax_some _ Hs) as (i2 & E2 & B2).
  destruct (argmin_some _ Hd) as (i1 & E1 & B1).
  destruct (argmax_some _ Hd) as (i3 & E3 & B3).
  rewrite length_map in B0, B1, B2, B3.
  destruct (nth_error_some pts i0 B0) as (tl & N0).
  destruct (nth_error_some pts i1 B1) as (tr & N1).
  destruct (nth_error_some pts i2 B2) as (br & N2).
  destruct (nth_error_some pts i3 B3) as (bl & N3).
  exists i0, i1, i2, i3, tl, tr, br, bl.
  repeat (split; [assumption|]).
  unfold order_points. rewrite E0, E2, E1, E3. cbn [bind].
  rewrite N0, N2, N1, N3. reflexivity.
Qed.

Lemma ltb_trans (a b c : spec_float) :
  SFltb a b = true -> SFltb b c = true -> SFltb a c = true.
Proof. rewrite !ltb_below. apply below_trans. Qed.

(** The four corners of a quadrilateral that the keys of the array
    separate, given in any order, come out as [tl; tr; br; bl]. *)
Lemma order_points_valid (d : Np.dtype) (pts : list row) (tl tr br bl : row) :
  Permutation pts [tl; tr; br; bl] ->
  axis_aligned d tl tr br bl ->
  order_points d pts = Some (map (store d) [tl; tr; br; bl]).
Proof.
  intros Hperm [Hts Htd Hbs Hbd Hls Hld Hrs Hrd].
  assert (Hin : forall p, In p pts <-> In p [tl; tr; br; bl]).
  { intro p. split; apply Permutation_in; [exact Hperm|now apply Permutation_sym]. }
  pose proof (ltb_trans _ _ _ Hts Hrs) as Hds.
  pose proof (ltb_trans _ _ _ Htd Hld) as Hdd.
  destruct (argmin_finds (sum d) tl pts) as (i0 & E0 & N0).
  { apply Hin. simpl. tauto. }
  { intros p Hp. apply Hin in Hp. simpl in Hp.
    destruct Hp as [<-|[<-|[<-|[<-|[]]]]]; [now left|now right..]. }
  destruct (argmax_finds (sum d) br pts) as (i2 & E2 & N2).
  { apply Hin. simpl. tauto. }
  { intros p Hp. apply Hin in Hp. simpl in Hp.
    destruct Hp as [<-|[<-|[<-|[<-|[]]]]];
      [now right|now right|now left|now right]. }
  destruct (argmin_finds (diff d) tr pts) as (i1 & E1 & N1).
  { apply Hin. simpl. tauto. }
  { intros p Hp. apply Hin in Hp. simpl in Hp.
    destruct Hp as [<-|[<-|[<-|[<-|[]]]]];
      [now right|now left|now right|now right]. }
  destruct (argmax_finds (diff d) bl pts) as (i3 & E3 & N3).
  { apply Hin. simpl. tauto. }
  { intros p Hp. apply Hin in Hp. simpl in Hp.
    destruct Hp as [<-|[<-|[<-|[<-|[]]]]];
      [now right|now right|now right|now left]. }
  unfold order_points. rewrite E0, E2, E1, E3. cbn [bind].
  rewrite N0, N2, N1, N3. reflexivity.
Qed.

Lemma store_float32 (r : row) : store Np.float32 r = r.
Proof. now destruct r. Qed.

(** C1.  Ordering is idempotent on the quadrilaterals that the code
    can tell apart.  If the rows of an array of dtype [d] are, in any
    order, four corners whose rounded coordinate sums and differences
    are strictly ordered as those of a roughly axis-aligned
    quadrilateral, and the same holds of the four corners once stored
    as float32, [order_points] returns the stored corners as
    [top-left; top-right; bottom-right; bottom-left], and ordering that
    result again returns it unchanged. *)
Theorem order_points_idempotent (d : Np.dtype) (pts : list row) (tl tr br bl : row) :
  Permutation pts [tl; tr; br; bl] ->
  axis_aligned d tl tr br bl ->
  axis_aligned Np.float32 (store d tl) (store d tr) (store d br) (store d bl) ->
  exists rect,
    order_points d pts = Some rect /\
    order_points Np.float32 rect = Some rect /\
    rect = [store d tl; store d tr; store d br; store d bl].
Proof.
  intros Hperm Hvalid Hstored. exists [store d tl; store d tr; store d br; store d bl].
  split; [now apply order_points_valid|].
  split; [|reflexivity].
  rewrite (order_points_valid Np.float32 _ _ _ _ _ (Permutation_refl _) Hstored).
  cbn [map]. now rewrite !store_float32.
Qed.

(** The array of [test_order_points], a float64 array listed as the
    test lists it: bottom-right, top-left, top-right, bottom-left. *)
Definition test_rectangle : list row :=
  [grid64 500 400; grid64 100 100; grid64 500 100; grid64 100 400].

Lemma test_rectangle_corners :
  Permutation test_rectangle
    [grid64 100 100; grid64 500 100; grid64 500 400; grid64 100 400].
Proof.
  unfold test_rectangle.
  eapply perm_trans; [apply perm_swap|].
  apply perm_skip, perm_swap.
Qed.

Lemma order_points_idempotent_witness :
  exists rect,
    order_points Np.float64 test_rectangle = Some rect /\
    order_points Np.float32 rect = Some rect /\
    rect = [store Np.float64 (grid64 100 100); store Np.float64 (grid64 500 100);
            store Np.float64 (grid64 500 400); store Np.float64 (grid64 100 400)].
Proof.
  apply (order_points_idempotent Np.float64 test_rectangle _ _ _ _ test_rectangle_corners).
  - split; vm_compute; reflexivity.
  - split; vm_compute; reflexivity.
Defined.

(** A rectangle 1024 wide and 3/65536 high, every coordinate a float32
    number, listed bottom-right, top-left, top-right, bottom-left. *)
Definition thin : Polygon :=
  mkPolygon [mkPoint 1024 (3 # 65536); mkPoint 0 0; mkPoint 1024 0; mkPoint 0 (3 # 65536)].

(** The property is lost on a valid quadrilateral whose sides are too
    short for float32: on the thin rectangle the sums of the two right
    corners round to the same float32, the first ordering is right, and
    a second ordering returns the top-right corner twice. *)
Example order_points_thin :
  roughly_axis_aligned (mkPoint 0 0) (mkPoint 1024 0)
    (mkPoint 1024 (3 # 65536)) (mkPoint 0 (3 # 65536)) /\
  order_points Np.float32 (as_float32 (to_numpy thin))
    = Some (as_float32 [mkPoint 0 0; mkPoint 1024 0;
                        mkPoint 1024 (3 # 65536); mkPoint 0 (3 # 65536)]) /\
  order_points Np.float32
    (as_float32 [mkPoint 0 0; mkPoint 1024 0;
                 mkPoint 1024 (3 # 65536); mkPoint 0 (3 # 65536)])
    = Some (as_float32 [mkPoint 0 0; mkPoint 1024 0; mkPoint 1024 0; mkPoint 0 (3 # 65536)]).
Proof.
  split; [split; reflexivity|]. split; vm_compute; reflexivity.
Qed.

(** At the edge of validity the property is lost as well: a right side
    at exactly 45 degrees ties two coordinate sums, and a second
    ordering picks another row. *)
Example order_points_tie :
  order_points Np.float32 [grid 0 0; grid 0 1; grid 1 1; grid 2 0]
    = Some [grid 0 0; grid 2 0; grid 1 1; grid 0 1] /\
  order_points Np.float32 [grid 0 0; grid 2 0; grid 1 1; grid 0 1]
    = Some [grid 0 0; grid 2 0; grid 2 0; grid 0 1].
Proof. split; vm_compute; reflexivity. Qed.

(** [order_points] returns, stored as float32, the rows of the first
    smallest and first largest rounded coordinate sum and coordinate
    difference: on ties the first occurrence wins, and a NaN key wins
    over every number. *)
Theorem order_points_extremes (d : Np.dtype) (pts rect : list row) :
  order_points d pts = Some rect ->
  exists i0 i1 i2 i3 tl tr br bl,
    rect = map (store d) [tl; tr; br; bl] /\
    nth_error pts i0 = Some tl /\ first_min (map (sum d) pts) i0 /\
    nth_error pts i1 = Some tr /\ first_min (map (diff d) pts) i1 /\
    nth_error pts i2 = Some br /\ first_max (map (sum d) pts) i2 /\
    nth_error pts i3 = Some bl /\ first_max (map (diff d) pts) i3.
Proof.
  unfold order_points.
  destruct (Np.argmin (map (sum d) pts)) as [i0|] eqn:E0; [|discriminate].
  destruct (Np.argmax (map (sum d) pts)) as [i2|] eqn:E2; [|discriminate].
  destruct (Np.argmin (map (diff d) pts)) as [i1|] eqn:E1; [|discriminate].
  destruct (Np.argmax (map (diff d) pts)) as [i3|] eqn:E3; [|discriminate].
  cbn [bind].
  destruct (nth_error pts i0) as [tl|] eqn:N0; [|discriminate].
  destruct (nth_error pts i2) as [br|] eqn:N2; [|discriminate].
  destruct (nth_error pts i1) as [tr|] eqn:N1; [|discriminate].
  destruct (nth_error pts i3) as [bl|] eqn:N3; [|discriminate].
  cbn [bind]. intros [= <-].
  exists i0, i1, i2, i3, tl, tr, br, bl.
  split; [reflexivity|].
  split; [exact N0|]. split; [now apply argmin_first|].
  split; [exact N1|]. split; [now apply argmin_first|].
  split; [exact N2|]. split; [now apply argmax_first|].
  split; [exact N3|]. now apply argmax_first.
Qed.

Lemma order_points_extremes_witness :
  exists i0 i1 i2 i3 tl tr br bl,
    [grid 100 100; grid 500 100; grid 500 400; grid 100 400]
      = map (store Np.float64) [tl; tr; br; bl] /\
    nth_error test_rectangle i0 = Some tl /\
    first_min (map (sum Np.float64) test_rectangle) i0 /\
    nth_error test_rectangle i1 = Some tr /\
    first_min (map (diff Np.float64) test_rectangle) i1 /\
    nth_error test_rectangle i2 = Some br /\
    first_max (map (sum Np.float64) test_rectangle) i2 /\
    nth_error test_rectangle i3 = Some bl /\
    first_max (map (diff Np.float64) test_rectangle) i3.
Proof.
  apply (order_points_extremes Np.float64 test_rectangle). vm_compute. reflexivity.
Defined.

(** *** [calculate_perspective_size] on whole numbers *)

Lemma square_bound (a : Z) (n : Z) : 0 <= n -> a * a < n * n -> Z.abs a < n.
Proof. intros Hn H. nia. Qed.

Lemma sub_of_ints (p q : Z * Z) :
  Z.abs (fst p) < 2 ^ 23 -> Z.abs (snd p) < 2 ^ 23 ->
  Z.abs (fst q) < 2 ^ 23 -> Z.abs (snd q) < 2 ^ 23 ->
  sub (of_ints p) (of_ints q) = of_ints (fst p - fst q, snd p - snd q).
Proof.
  intros H1 H2 H3 H4. unfold sub, of_ints. cbn [fst snd].
  change (2 ^ 23) with 8388608 in *.
  rewrite !of_Z_whole by (change (2 ^ 24) with 16777216; lia).
  rewrite !sub_whole by (change (2 ^ 24) with 16777216; lia). reflexivity.
Qed.

Lemma norm_of_ints (d : Z * Z) :
  fst d * fst d + snd d * snd d < 2 ^ 24 ->
  norm (of_ints d) = F32.sqrt (whole (fst d * fst d + snd d * snd d)).
Proof.
  intro H. unfold norm, of_ints. cbn [fst snd].
  assert (0 <= fst d * fst d) by nia. assert (0 <= snd d * snd d) by nia.
  assert (Z.abs (fst d) < 2 ^ 24) by (change (2 ^ 24) with 16777216 in *; nia).
  assert (Z.abs (snd d) < 2 ^ 24) by (change (2 ^ 24) with 16777216 in *; nia).
  rewrite !of_Z_whole by assumption.
  rewrite !mul_square by lia.
  rewrite add_whole by lia. reflexivity.
Qed.

(** The side between two grid points, as the code measures it. *)
Lemma side (p q : Z * Z) :
  Z.abs (fst p) < 2 ^ 23 -> Z.abs (snd p) < 2 ^ 23 ->
  Z.abs (fst q) < 2 ^ 23 -> Z.abs (snd q) < 2 ^ 23 ->
  squared p q < 2 ^ 24 ->
  norm (sub (of_ints p) (of_ints q)) = F32.sqrt (whole (squared p q)).
Proof.
  intros H1 H2 H3 H4 H. rewrite sub_of_ints by assumption.
  now rewrite norm_of_ints.
Qed.

(** What a square root of a whole number is: zero, or a positive
    float32 of 24 digits, with its integer part. *)
Definition root (r : spec_float) (t : Z) : Prop :=
  (r = S754_zero false /\ t = 0) \/
  (exists m e, r = S754_finite false m e /\ digits m = 24 /\ Py.trunc_finite false m e = t).

Lemma sqrt_root (n : Z) : 0 <= n < 2 ^ 24 -> root (F32.sqrt (whole n)) (Z.sqrt n).
Proof.
  intros [H0 Hn]. destruct (Z.eq_dec n 0) as [->|Hne].
  - left. split; reflexivity.
  - right. apply sqrt_whole. lia.
Qed.

Lemma root_int (r : spec_float) (t : Z) : root r t -> F32.int r = Some t.
Proof.
  intros [[-> ->]|(m & e & -> & _ & <-)]; reflexivity.
Qed.

Lemma trunc_nonneg (m : positive) (e : Z) : 0 <= Py.trunc_finite false m e.
Proof.
  unfold Py.trunc_finite. destruct (0 <=? e) eqn:E.
  - apply Z.leb_le in E. assert (0 < 2 ^ e) by (apply Z.pow_pos_nonneg; lia). lia.
  - apply Z.div_pos; [lia|]. apply Z.pow_pos_nonneg; [lia|]. apply Z.leb_gt in E. lia.
Qed.

(** Floats of 24 digits in their order have their integer parts in
    that order. *)
Lemma trunc_mono (ma mb : positive) (ea eb : Z) :
  digits ma = 24 -> digits mb = 24 ->
  ea < eb \/ (ea = eb /\ Z.pos ma <= Z.pos mb) ->
  Py.trunc_finite false ma ea <= Py.trunc_finite false mb eb.
Proof.
  intros Ha Hb Hle.
  pose proof (digits_bounds ma) as [Alo Ahi]. pose proof (digits_bounds mb) as [Blo Bhi].
  rewrite Ha in Alo, Ahi. rewrite Hb in Blo, Bhi.
  change (2 ^ (24 - 1)) with 8388608 in *. change (2 ^ 24) with 16777216 in *.
  unfold Py.trunc_finite.
  destruct Hle as [Hlt|[-> Hm]].
  - destruct (0 <=? ea) eqn:Ea, (0 <=? eb) eqn:Eb.
    + apply Z.leb_le in Ea, Eb.
      replace eb with (ea + (eb - ea)) by lia. rewrite Z.pow_add_r by lia.
      assert (0 < 2 ^ ea) by (apply Z.pow_pos_nonneg; lia).
      assert (2 ^ 1 <= 2 ^ (eb - ea)) by (apply Z.pow_le_mono_r; lia).
      change (2 ^ 1) with 2 in *.
      assert (Z.pos ma <= Z.pos mb * 2 ^ (eb - ea)) by nia.
      rewrite (Z.mul_comm (2 ^ ea)), Z.mul_assoc.
      apply Z.mul_le_mono_nonneg_r; lia.
    + apply Z.leb_le in Ea. apply Z.leb_gt in Eb. lia.
    + apply Z.leb_gt in Ea. apply Z.leb_le in Eb.
      assert (0 < 2 ^ eb) by (apply Z.pow_pos_nonneg; lia).
      assert (2 ^ 1 <= 2 ^ (- ea)) by (apply Z.pow_le_mono_r; lia).
      change (2 ^ 1) with 2 in *.
      assert (Z.pos ma / 2 ^ (- ea) <= Z.pos ma / 2).
      { apply Z.div_le_compat_l; lia. }
      assert (Z.pos ma / 2 < 8388608) by (apply Z.div_lt_upper_bound; lia).
      nia.
    + apply Z.leb_gt in Ea, Eb.
      replace (- ea) with ((eb - ea) + - eb) by lia.
      rewrite Z.pow_add_r by lia.
      assert (0 < 2 ^ (- eb)) by (apply Z.pow_pos_nonneg; lia).
      assert (0 < 2 ^ (eb - ea)) by (apply Z.pow_pos_nonneg; lia).
      rewrite <- Z.div_div by lia.
      apply Z.div_le_mono; [lia|].
      assert (2 ^ 1 <= 2 ^ (eb - ea)) by (apply Z.pow_le_mono_r; lia).
      change (2 ^ 1) with 2 in *.
      assert (Z.pos ma / 2 ^ (eb - ea) <= Z.pos ma / 2).
      { apply Z.div_le_compat_l; lia. }
      assert (Z.pos ma / 2 < 8388608) by (apply Z.div_lt_upper_bound; lia).
      lia.
  - destruct (0 <=? eb) eqn:Eb.
    + apply Z.leb_le in Eb. assert (0 < 2 ^ eb) by (apply Z.pow_pos_nonneg; lia). nia.
    + apply Z.leb_gt in Eb. apply Z.div_le_mono; [|exact Hm].
      apply Z.pow_pos_nonneg; lia.
Qed.

Lemma root_below (a b : spec_float) (ta tb : Z) :
  root a ta -> root b tb -> below a b -> ta <= tb.
Proof.
  intros [[-> ->]|(ma & ea & -> & Ha & <-)] [[-> ->]|(mb & eb & -> & Hb & <-)]
    (_ & _ & Hlt); unfold lex_lt in Hlt; cbn [rank fst snd] in Hlt.
  - lia.
  - apply trunc_nonneg.
  - lia.
  - apply trunc_mono; [exact Ha|exact Hb|lia].
Qed.

Lemma root_not_below (a b : spec_float) (ta tb : Z) :
  root a ta -> root b tb -> ~ below a b -> tb <= ta.
Proof.
  intros [[-> ->]|(ma & ea & -> & Ha & <-)] [[-> ->]|(mb & eb & -> & Hb & <-)] Hn.
  - lia.
  - exfalso. apply Hn. repeat split. unfold lex_lt. cbn [rank fst snd]. lia.
  - apply trunc_nonneg.
  - apply trunc_mono; [exact Hb|exact Ha|].
    destruct (Z.lt_trichotomy eb ea) as [H|[H|H]]; [now left| |].
    + right. split; [exact H|].
      destruct (Z.le_gt_cases (Z.pos mb) (Z.pos ma)) as [H'|H']; [exact H'|].
      exfalso. apply Hn. repeat split. unfold lex_lt. cbn [rank fst snd]. lia.
    + exfalso. apply Hn. repeat split. unfold lex_lt. cbn [rank fst snd]. lia.
Qed.

(** [int(max(a, b))] on two square roots of whole numbers. *)
Lemma int_max_root (a b : spec_float) (ta tb : Z) :
  root a ta -> root b tb -> F32.int (F32.max a b) = Some (Z.max ta tb).
Proof.
  intros Ha Hb. unfold F32.max, F32.ltb.
  destruct (SFltb a b) eqn:E.
  - apply ltb_below in E. pose proof (root_below a b ta tb Ha Hb E).
    rewrite (root_int b tb Hb). f_equal. lia.
  - apply not_below in E. pose proof (root_not_below a b ta tb Ha Hb E).
    rewrite (root_int a ta Ha). f_equal. lia.
Qed.

Lemma sqrt_floor (n : Z) : 0 <= n -> is_floor (Z.sqrt n) (sqrt (IZR n)).
Proof.
  intro Hn. unfold is_floor.
  pose proof (Z.sqrt_spec n Hn) as [Hlo Hhi].
  set (t := Z.sqrt n) in *.
  assert (Ht : 0 <= t) by apply Z.sqrt_nonneg.
  replace (Z.succ t) with (t + 1) in Hhi by lia.
  apply IZR_le in Hlo. apply IZR_lt in Hhi. apply IZR_le in Ht, Hn.
  rewrite mult_IZR in Hlo, Hhi. rewrite plus_IZR in Hhi.
  split.
  - rewrite <- (sqrt_square (IZR t)) at 1 by exact Ht.
    now apply sqrt_le_1_alt.
  - rewrite <- (sqrt_square (IZR t + 1)) by Lra.lra.
    apply sqrt_lt_1_alt. split; [exact Hn|exact Hhi].
Qed.

Lemma distance_squared (p q : Z * Z) :
  distance (GeometryMask.to_point p) (GeometryMask.to_point q) = sqrt (IZR (squared p q)).
Proof.
  unfold distance, squared, GeometryMask.to_point. cbn [x y].
  rewrite !Q2R_inject_Z. f_equal.
  rewrite plus_IZR, !mult_IZR, !minus_IZR. reflexivity.
Qed.

Lemma squared_nonneg (p q : Z * Z) : 0 <= squared p q.
Proof.
  unfold squared.
  pose proof (Z.square_nonneg (fst p - fst q)). pose proof (Z.square_nonneg (snd p - snd q)).
  lia.
Qed.

(** The integer part of the longer of two sides. *)
Lemma longer_side_floor (a b c d : Z * Z) :
  is_floor (Z.max (Z.sqrt (squared a b)) (Z.sqrt (squared c d)))
    (Rmax (distance (GeometryMask.to_point a) (GeometryMask.to_point b))
          (distance (GeometryMask.to_point c) (GeometryMask.to_point d))).
Proof.
  rewrite !distance_squared.
  pose proof (squared_nonneg a b) as Hab. pose proof (squared_nonneg c d) as Hcd.
  destruct (Z.le_ge_cases (squared a b) (squared c d)) as [H|H].
  - rewrite Z.max_r by now apply Z.sqrt_le_mono.
    rewrite Rmax_right by (apply sqrt_le_1_alt; now apply IZR_le).
    now apply sqrt_floor.
  - rewrite Z.max_l by now apply Z.sqrt_le_mono.
    rewrite Rmax_left by (apply sqrt_le_1_alt; now apply IZR_le).
    now apply sqrt_floor.
Qed.

(** Scans that take the same decisions end on the same cell. *)
Lemma scan_from_ext {A : Type} (take1 take2 : spec_float -> spec_float -> bool)
  (f g : A -> spec_float) (l : list A) : forall i best_i pb,
  (forall p, In p (pb :: l) -> Np.isnan (f p) = Np.isnan (g p)) ->
  (forall p q, In p (pb :: l) -> In q (pb :: l) -> take1 (f p) (f q) = take2 (g p) (g q)) ->
  scan_from take1 (map f l) i best_i (f pb) = scan_from take2 (map g l) i best_i (g pb).
Proof.
  induction l as [|a l IH]; intros i best_i pb Hnan H; simpl; [reflexivity|].
  rewrite (Hnan pb) by (simpl; tauto).
  rewrite (H a pb) by (simpl; tauto).
  destruct (Np.isnan (g pb)); [reflexivity|].
  destruct (take2 (g a) (g pb)); apply IH;
    try (intros p Hp; apply Hnan; simpl in *; tauto);
    intros p q Hp Hq; apply H; simpl in *; tauto.
Qed.

Lemma scan_ext {A : Type} (take1 take2 : spec_float -> spec_float -> bool)
  (f g : A -> spec_float) (l : list A) :
  (forall p, In p l -> Np.isnan (f p) = Np.isnan (g p)) ->
  (forall p q, In p l -> In q l -> take1 (f p) (f q) = take2 (g p) (g q)) ->
  scan take1 (map f l) = scan take2 (map g l).
Proof.
  destruct l as [|a l]; intros Hnan H; simpl; [reflexivity|].
  f_equal. now apply scan_from_ext.
Qed.

Lemma sum_of_ints (p : Z * Z) :
  Z.abs (fst p) < 2 ^ 23 -> Z.abs (snd p) < 2 ^ 23 ->
  sum Np.float32 (of_ints p) = whole (fst p + snd p).
Proof.
  intros H1 H2. unfold sum, of_ints. cbn [fst snd Np.add].
  change (2 ^ 23) with 8388608 in *.
  rewrite !of_Z_whole by (change (2 ^ 24) with 16777216; lia).
  apply add_whole; change (2 ^ 24) with 16777216; lia.
Qed.

Lemma diff_of_ints (p : Z * Z) :
  Z.abs (fst p) < 2 ^ 23 -> Z.abs (snd p) < 2 ^ 23 ->
  diff Np.float32 (of_ints p) = whole (snd p - fst p).
Proof.
  intros H1 H2. unfold diff, of_ints. cbn [fst snd Np.subtract].
  change (2 ^ 23) with 8388608 in *.
  rewrite !of_Z_whole by (change (2 ^ 24) with 16777216; lia).
  apply sub_whole; change (2 ^ 24) with 16777216; lia.
Qed.

Lemma whole_number (z : Z) : Np.isnan (whole z) = false.
Proof. now destruct z. Qed.

(** On grid points the code compares the exact sums and differences. *)
Lemma sum_ltb (p q : Z * Z) :
  grid_points [p; q] ->
  SFltb (sum Np.float32 (of_ints p)) (sum Np.float32 (of_ints q))
  = (fst p + snd p <? fst q + snd q).
Proof.
  intro H. destruct (H p) as [P1 P2]; [simpl; tauto|].
  destruct (H q) as [Q1 Q2]; [simpl; tauto|].
  rewrite !sum_of_ints by assumption. change (2 ^ 23) with 8388608 in *.
  apply ltb_whole; change (2 ^ 24) with 16777216; lia.
Qed.

Lemma diff_ltb (p q : Z * Z) :
  grid_points [p; q] ->
  SFltb (diff Np.float32 (of_ints p)) (diff Np.float32 (of_ints q))
  = (snd p - fst p <? snd q - fst q).
Proof.
  intro H. destruct (H p) as [P1 P2]; [simpl; tauto|].
  destruct (H q) as [Q1 Q2]; [simpl; tauto|].
  rewrite !diff_of_ints by assumption. change (2 ^ 23) with 8388608 in *.
  apply ltb_whole; change (2 ^ 24) with 16777216; lia.
Qed.

Lemma sum_leb (p q : Z * Z) :
  grid_points [p; q] ->
  SFleb (sum Np.float32 (of_ints p)) (sum Np.float32 (of_ints q))
  = (fst p + snd p <=? fst q + snd q).
Proof.
  intro H. destruct (H p) as [P1 P2]; [simpl; tauto|].
  destruct (H q) as [Q1 Q2]; [simpl; tauto|].
  rewrite !sum_of_ints by assumption. change (2 ^ 23) with 8388608 in *.
  apply leb_whole; change (2 ^ 24) with 16777216; lia.
Qed.

Lemma diff_leb (p q : Z * Z) :
  grid_points [p; q] ->
  SFleb (diff Np.float32 (of_ints p)) (diff Np.float32 (of_ints q))
  = (snd p - fst p <=? snd q - fst q).
Proof.
  intro H. destruct (H p) as [P1 P2]; [simpl; tauto|].
  destruct (H q) as [Q1 Q2]; [simpl; tauto|].
  rewrite !diff_of_ints by assumption. change (2 ^ 23) with 8388608 in *.
  apply leb_whole; change (2 ^ 24) with 16777216; lia.
Qed.

Lemma on_grid_pair (zs : list (Z * Z)) (p q : Z * Z) :
  grid_points zs -> In p zs -> In q zs -> grid_points [p; q].
Proof. intros H Hp Hq r [<-|[<-|[]]]; now apply H. Qed.

(** [order_points] on an array of grid points: the four rows and the
    cells they come from. *)
Lemma order_of_ints (zs : list (Z * Z)) :
  zs <> [] ->
  exists i0 i1 i2 i3 tl tr br bl,
    Np.argmin (map (fun z => sum Np.float32 (of_ints z)) zs) = Some i0 /\
    Np.argmax (map (fun z => sum Np.float32 (of_ints z)) zs) = Some i2 /\
    Np.argmin (map (fun z => diff Np.float32 (of_ints z)) zs) = Some i1 /\
    Np.argmax (map (fun z => diff Np.float32 (of_ints z)) zs) = Some i3 /\
    nth_error zs i0 = Some tl /\ nth_error zs i1 = Some tr /\
    nth_error zs i2 = Some br /\ nth_error zs i3 = Some bl /\
    order_points Np.float32 (map of_ints zs) = Some (map of_ints [tl; tr; br; bl]).
Proof.
  intro Hne.
  destruct (order_points_rows Np.float32 (map of_ints zs))
    as (i0 & i1 & i2 & i3 & tl & tr & br & bl
        & E0 & E2 & E1 & E3 & N0 & N1 & N2 & N3 & Eo).
  { destruct zs; [congruence|discriminate]. }
  rewrite !map_map in E0, E1, E2, E3.
  rewrite nth_error_map in N0, N1, N2, N3.
  destruct (nth_error zs i0) as [z0|] eqn:Z0; [|discriminate].
  destruct (nth_error zs i1) as [z1|] eqn:Z1; [|discriminate].
  destruct (nth_error zs i2) as [z2|] eqn:Z2; [|discriminate].
  destruct (nth_error zs i3) as [z3|] eqn:Z3; [|discriminate].
  cbn [option_map] in N0, N1, N2, N3.
  injection N0 as <-. injection N1 as <-. injection N2 as <-. injection N3 as <-.
  exists i0, i1, i2, i3, z0, z1, z2, z3.
  repeat (split; [assumption|]).
  rewrite Eo. cbn [map]. now rewrite !store_float32.
Qed.

(** The size the code computes from four ordered grid corners. *)
Lemma size_of_ints (zs : list (Z * Z)) (tl tr br bl : Z * Z) :
  grid_points [tl; tr; br; bl] ->
  squared br bl < 2 ^ 24 -> squared tr tl < 2 ^ 24 ->
  squared tr br < 2 ^ 24 -> squared tl bl < 2 ^ 24 ->
  order_points Np.float32 (map of_ints zs) = Some (map of_ints [tl; tr; br; bl]) ->
  calculate_perspective_size Np.float32 (map of_ints zs)
  = Some (Z.max (Z.sqrt (squared br bl)) (Z.sqrt (squared tr tl)),
          Z.max (Z.sqrt (squared tr br)) (Z.sqrt (squared tl bl))).
Proof.
  intros Hg H1 H2 H3 H4 Eo.
  destruct (Hg tl) as [? ?]; [simpl; tauto|]. destruct (Hg tr) as [? ?]; [simpl; tauto|].
  destruct (Hg br) as [? ?]; [simpl; tauto|]. destruct (Hg bl) as [? ?]; [simpl; tauto|].
  unfold calculate_perspective_size. rewrite Eo. cbn [bind map].
  rewrite !side by assumption.
  pose proof (squared_nonneg br bl). pose proof (squared_nonneg tr tl).
  pose proof (squared_nonneg tr br). pose proof (squared_nonneg tl bl).
  rewrite (int_max_root _ _ _ _ (sqrt_root (squared br bl) ltac:(lia))
             (sqrt_root (squared tr tl) ltac:(lia))).
  cbn [bind].
  rewrite (int_max_root _ _ _ _ (sqrt_root (squared tr br) ltac:(lia))
             (sqrt_root (squared tl bl) ltac:(lia))).
  reflexivity.
Qed.

Lemma squared_same (p : Z * Z) : squared p p = 0.
Proof. unfold squared. lia. Qed.

(** Grid points on a line that is parallel to neither diagonal: the
    coordinate sum and the coordinate difference order them the same
    way or in opposite ways, so two of the four corners coincide with
    the other two. *)
Lemma collinear_corners (zs : list (Z * Z)) (a b c : Z) (i0 i1 i2 i3 : nat) :
  grid_points zs ->
  a <> b -> a <> - b ->
  (forall p, In p zs -> a * fst p + b * snd p = c) ->
  Np.argmin (map (fun z => sum Np.float32 (of_ints z)) zs) = Some i0 ->
  Np.argmax (map (fun z => sum Np.float32 (of_ints z)) zs) = Some i2 ->
  Np.argmin (map (fun z => diff Np.float32 (of_ints z)) zs) = Some i1 ->
  Np.argmax (map (fun z => diff Np.float32 (of_ints z)) zs) = Some i3 ->
  (i0 = i1 /\ i2 = i3) \/ (i0 = i3 /\ i2 = i1).
Proof.
  intros Hg Hab Hab' Hline E0 E2 E1 E3.
  rewrite argmin_scan in E0, E1. rewrite argmax_scan in E2, E3.
  assert (Hnan : forall p, In p zs ->
            Np.isnan (sum Np.float32 (of_ints p)) = Np.isnan (diff Np.float32 (of_ints p))).
  { intros p Hp. destruct (Hg p Hp) as [P1 P2].
    rewrite sum_of_ints, diff_of_ints by assumption. now rewrite !whole_number. }
  destruct (Z.lt_trichotomy 0 ((a - b) * (a + b))) as [Hpos|[Hzero|Hneg]].
  - left.
    assert (Hsame : forall p q, In p zs -> In q zs ->
              (fst p + snd p <=? fst q + snd q) = (snd p - fst p <=? snd q - fst q)).
    { intros p q Hp Hq. pose proof (Hline p Hp) as Lp. pose proof (Hline q Hq) as Lq.
      destruct (snd p - fst p <=? snd q - fst q) eqn:E.
      - apply Z.leb_le in E. apply Z.leb_le. nia.
      - apply Z.leb_gt in E. apply Z.leb_gt. nia. }
    split.
    + rewrite (scan_ext _ (fun k best => negb (SFleb best k)) _
                 (fun z => diff Np.float32 (of_ints z))) in E0; [congruence|exact Hnan|].
      intros p q Hp Hq. rewrite sum_leb, diff_leb by now apply (on_grid_pair zs).
      now rewrite Hsame.
    + rewrite (scan_ext _ (fun k best => negb (SFleb k best)) _
                 (fun z => diff Np.float32 (of_ints z))) in E2; [congruence|exact Hnan|].
      intros p q Hp Hq. rewrite sum_leb, diff_leb by now apply (on_grid_pair zs).
      now rewrite Hsame.
  - exfalso. symmetry in Hzero. apply Z.mul_eq_0 in Hzero. lia.
  - right.
    assert (Hopp : forall p q, In p zs -> In q zs ->
              (fst p + snd p <=? fst q + snd q) = (snd q - fst q <=? snd p - fst p)).
    { intros p q Hp Hq. pose proof (Hline p Hp) as Lp. pose proof (Hline q Hq) as Lq.
      destruct (snd q - fst q <=? snd p - fst p) eqn:E.
      - apply Z.leb_le in E. apply Z.leb_le. nia.
      - apply Z.leb_gt in E. apply Z.leb_gt. nia. }
    split.
    + rewrite (scan_ext _ (fun k best => negb (SFleb k best)) _
                 (fun z => diff Np.float32 (of_ints z))) in E0; [congruence|exact Hnan|].
      intros p q Hp Hq. rewrite sum_leb, diff_leb by now apply (on_grid_pair zs).
      now rewrite Hopp.
    + rewrite (scan_ext _ (fun k best => negb (SFleb best k)) _
                 (fun z => diff Np.float32 (of_ints z))) in E2; [congruence|exact Hnan|].
      intros p q Hp Hq. rewrite sum_leb, diff_leb by now apply (on_grid_pair zs).
      now rewrite Hopp.
Qed.

(** C2, as amended.  For four points of the pixel grid (whole-number
    coordinates below 2^23 in magnitude) no two of which are 4096 or
    more apart, held in a float32 array, with [tl; tr; br; bl] the rows
    [order_points] gives them, the width returned is the larger of the
    lengths of [br - bl] and [tr - tl] rounded down, and the height the
    larger of the lengths of [tr - br] and [tl - bl] rounded down.
    When the points lie on one line that is parallel to neither
    diagonal, the width or the height is 0. *)
Theorem calculate_perspective_size_floor (zs : list (Z * Z)) :
  length zs = 4%nat ->
  grid_points zs ->
  (forall p q, In p zs -> In q zs -> squared p q < 2 ^ 24) ->
  exists tl tr br bl w h,
    order_points Np.float32 (map of_ints zs) = Some (map of_ints [tl; tr; br; bl]) /\
    calculate_perspective_size Np.float32 (map of_ints zs) = Some (w, h) /\
    is_floor w (Rmax (distance (GeometryMask.to_point br) (GeometryMask.to_point bl))
                     (distance (GeometryMask.to_point tr) (GeometryMask.to_point tl))) /\
    is_floor h (Rmax (distance (GeometryMask.to_point tr) (GeometryMask.to_point br))
                     (distance (GeometryMask.to_point tl) (GeometryMask.to_point bl))) /\
    (forall a b c : Z,
        a <> b -> a <> - b ->
        (forall p, In p zs -> a * fst p + b * snd p = c) ->
        w = 0 \/ h = 0).
Proof.
  intros Hlen Hg Hclose.
  assert (Hne : zs <> []) by (destruct zs; [discriminate|discriminate]).
  destruct (order_of_ints zs Hne)
    as (i0 & i1 & i2 & i3 & tl & tr & br & bl
        & E0 & E2 & E1 & E3 & N0 & N1 & N2 & N3 & Eo).
  pose proof (nth_error_In _ _ N0) as I0. pose proof (nth_error_In _ _ N1) as I1.
  pose proof (nth_error_In _ _ N2) as I2. pose proof (nth_error_In _ _ N3) as I3.
  assert (Hg4 : grid_points [tl; tr; br; bl]).
  { intros p [<-|[<-|[<-|[<-|[]]]]]; now apply Hg. }
  pose proof (size_of_ints zs tl tr br bl Hg4 (Hclose _ _ I2 I3) (Hclose _ _ I1 I0)
                (Hclose _ _ I1 I2) (Hclose _ _ I0 I3) Eo) as Es.
  exists tl, tr, br, bl. eexists. eexists.
  split; [exact Eo|]. split; [exact Es|].
  split; [apply longer_side_floor|]. split; [apply longer_side_floor|].
  intros a b c Hab Hab' Hline.
  destruct (collinear_corners zs a b c i0 i1 i2 i3 Hg Hab Hab' Hline E0 E2 E1 E3)
    as [[-> ->]|[-> ->]].
  - left. assert (tr = tl) by congruence. assert (bl = br) by congruence. subst tr bl.
    now rewrite !squared_same.
  - right. assert (bl = tl) by congruence. assert (tr = br) by congruence. subst bl tr.
    now rewrite !squared_same.
Qed.

(** The trapezoid of the perspective tests. *)
Definition trapezoid : list (Z * Z) := [(150, 100); (450, 100); (500, 400); (100, 400)].

Lemma trapezoid_on_grid : grid_points trapezoid.
Proof. intros p [<-|[<-|[<-|[<-|[]]]]]; split; reflexivity. Qed.

Lemma trapezoid_close (p q : Z * Z) :
  In p trapezoid -> In q trapezoid -> squared p q < 2 ^ 24.
Proof.
  intros [<-|[<-|[<-|[<-|[]]]]] [<-|[<-|[<-|[<-|[]]]]]; reflexivity.
Qed.

Lemma calculate_perspective_size_floor_witness :
  exists tl tr br bl w h,
    order_points Np.float32 (map of_ints trapezoid) = Some (map of_ints [tl; tr; br; bl]) /\
    calculate_perspective_size Np.float32 (map of_ints trapezoid) = Some (w, h) /\
    is_floor w (Rmax (distance (GeometryMask.to_point br) (GeometryMask.to_point bl))
                     (distance (GeometryMask.to_point tr) (GeometryMask.to_point tl))) /\
    is_floor h (Rmax (distance (GeometryMask.to_point tr) (GeometryMask.to_point br))
                     (distance (GeometryMask.to_point tl) (GeometryMask.to_point bl))) /\
    (forall a b c : Z,
        a <> b -> a <> - b ->
        (forall p, In p trapezoid -> a * fst p + b * snd p = c) ->
        w = 0 \/ h = 0).
Proof.
  exact (calculate_perspective_size_floor trapezoid eq_refl trapezoid_on_grid
           trapezoid_close).
Defined.

(** Four points of the diagonal [y = x], and the rows [order_points]
    makes of them, which it leaves as they are; and a quadrilateral
    with sides of more than 4096. *)
Definition diagonal : list (Z * Z) := [(0, 0); (1, 1); (2, 2); (3, 3)].
Definition diagonal_ordered : list (Z * Z) := [(0, 0); (0, 0); (3, 3); (0, 0)].
Definition wide : list (Z * Z) := [(100, 100); (5100, 200); (5100, 3200); (100, 3100)].

(** C2 fails as stated.  Collinear points on a diagonal give a width
    and a height of 4, ordered beforehand or not.  And on the wide
    quadrilateral, already ordered, the bottom and top sides are both
    (5000, 100), of length 5000.99..., which float32 rounds to 5001.0:
    the width returned is 5001, the floor is 5000. *)
Lemma collinear_diagonal_size :
  collinear (map GeometryMask.to_point diagonal) = true /\
  calculate_perspective_size Np.float32 (map of_ints diagonal) = Some (4, 4) /\
  collinear (map GeometryMask.to_point diagonal_ordered) = true /\
  order_points Np.float32 (map of_ints diagonal_ordered) = Some (map of_ints diagonal_ordered) /\
  calculate_perspective_size Np.float32 (map of_ints diagonal_ordered) = Some (4, 4) /\
  order_points Np.float32 (map of_ints wide) = Some (map of_ints wide) /\
  calculate_perspective_size Np.float32 (map of_ints wide) = Some (5001, 3000) /\
  is_floor 5000 (Rmax (distance (GeometryMask.to_point (5100, 3200))
                                (GeometryMask.to_point (100, 3100)))
                      (distance (GeometryMask.to_point (5100, 200))
                                (GeometryMask.to_point (100, 100)))).
Proof.
  split; [reflexivity|]. split; [vm_compute; reflexivity|].
  split; [reflexivity|]. split; [vm_compute; reflexivity|].
  split; [vm_compute; reflexivity|]. split; [vm_compute; reflexivity|].
  split; [vm_compute; reflexivity|].
  change 5000 with (Z.max (Z.sqrt (squared (5100, 3200) (100, 3100)))
                          (Z.sqrt (squared (5100, 200) (100, 100)))).
  apply longer_side_floor.
Qed.

(** On the corners of an axis-aligned rectangle of the pixel grid,
    given in any order, with sides below 4096, the size is the width
    and the height of the rectangle. *)
Theorem calculate_perspective_size_rectangle (zs : list (Z * Z)) (x0 y0 w h : Z) :
  0 < w < 4096 -> 0 < h < 4096 ->
  Z.abs x0 < 2 ^ 22 -> Z.abs y0 < 2 ^ 22 ->
  Permutation zs (rectangle x0 y0 w h) ->
  calculate_perspective_size Np.float32 (map of_ints zs) = Some (w, h).
Proof.
  intros Hw Hh Hx Hy Hperm. unfold rectangle in Hperm.
  change (2 ^ 22) with 4194304 in *.
  assert (Hg : grid_points [(x0, y0); (x0 + w, y0); (x0 + w, y0 + h); (x0, y0 + h)]).
  { intros p [<-|[<-|[<-|[<-|[]]]]]; cbn [fst snd]; change (2 ^ 23) with 8388608; lia. }
  assert (Hpair : forall p q,
            In p [(x0, y0); (x0 + w, y0); (x0 + w, y0 + h); (x0, y0 + h)] ->
            In q [(x0, y0); (x0 + w, y0); (x0 + w, y0 + h); (x0, y0 + h)] ->
            grid_points [p; q]).
  { intros p q Hp Hq. now apply (on_grid_pair _ p q Hg). }
  assert (Eo : order_points Np.float32 (map of_ints zs)
               = Some (map of_ints [(x0, y0); (x0 + w, y0); (x0 + w, y0 + h); (x0, y0 + h)])).
  { rewrite (order_points_valid Np.float32 _ (of_ints (x0, y0)) (of_ints (x0 + w, y0))
               (of_ints (x0 + w, y0 + h)) (of_ints (x0, y0 + h))).
    - cbn [map]. now rewrite !store_float32.
    - exact (Permutation_map of_ints Hperm).
    - split; rewrite ?sum_ltb, ?diff_ltb by (apply Hpair; simpl; tauto);
        cbn [fst snd]; apply Z.ltb_lt; lia. }
  rewrite (size_of_ints zs _ _ _ _ Hg); [| | | | |exact Eo];
    try (unfold squared; cbn [fst snd]; change (2 ^ 24) with 16777216; nia).
  unfold squared. cbn [fst snd].
  replace ((x0 + w - x0) * (x0 + w - x0) + (y0 + h - (y0 + h)) * (y0 + h - (y0 + h)))
    with (w * w) by ring.
  replace ((x0 + w - x0) * (x0 + w - x0) + (y0 - y0) * (y0 - y0)) with (w * w) by ring.
  replace ((x0 + w - (x0 + w)) * (x0 + w - (x0 + w)) + (y0 - (y0 + h)) * (y0 - (y0 + h)))
    with (h * h) by ring.
  replace ((x0 - x0) * (x0 - x0) + (y0 - (y0 + h)) * (y0 - (y0 + h))) with (h * h) by ring.
  rewrite !Z.sqrt_square by lia. now rewrite !Z.max_id.
Qed.

(** The rectangle of [test_order_points], held in a float32 array:
    400 by 300 at (100, 100). *)
Lemma calculate_perspective_size_rectangle_witness :
  calculate_perspective_size Np.float32
    (map of_ints [(500, 400); (100, 100); (500, 100); (100, 400)]) = Some (400, 300).
Proof.
  apply (calculate_perspective_size_rectangle _ 100 100 400 300); try (simpl; lia).
  unfold rectangle. cbn [Z.add Pos.add Pos.succ].
  eapply perm_trans; [apply perm_swap|].
  apply perm_skip, perm_swap.
Defined.

(** Off the grid the rounding of the coordinates shows: the rectangle
    of width 1024 and height 300 at (0.07, 0) comes out 1023 wide. *)
Example calculate_perspective_size_fraction :
  calculate_perspective_size Np.float32
    (as_float32 [mkPoint (7 # 100) 0; mkPoint (102407 # 100) 0;
                 mkPoint (102407 # 100) 300; mkPoint (7 # 100) 300])
  = Some (1023, 300).
Proof. vm_compute. reflexivity. Qed.

(** *** Polygons on the pixel grid *)

(** The cast of a whole Python number is the cast of the int. *)
Lemma div_by_one (s : bool) (n : positive) :
  Z.pos n < 2 ^ 24 ->
  SFdiv 24 128 (S754_finite s n 0) (S754_finite false 1 0) = canon s n.
Proof.
  intro Hn. assert (Hd : digits n <= 24) by now apply small_digits.
  pose proof (digits_pos n) as Hd0.
  cbn [SFdiv]. unfold SFdiv_core_binary.
  change (Zdigits2 (Z.pos n)) with (digits n). cbn [Zdigits2 digits2_pos].
  unfold fexp, emin.
  replace (Z.min (Z.max (digits n + 0 - (1 + 0) - 24) (3 - 128 - 24)) (0 - 0))
    with (- (25 - digits n)) by lia.
  replace (0 - 0 - - (25 - digits n)) with (25 - digits n) by lia.
  destruct (25 - digits n) as [|sh|sh] eqn:Es; try lia.
  rewrite Z.shiftl_mul_pow2 by lia.
  destruct (Z.div_eucl (Z.pos n * 2 ^ Z.pos sh) 1) as [q r] eqn:Ediv.
  assert (Eq : q = Z.pos n * 2 ^ Z.pos sh).
  { replace q with (Z.pos n * 2 ^ Z.pos sh / 1) by (unfold Z.div; now rewrite Ediv).
    apply Z.div_1_r. }
  assert (Er : r = 0).
  { replace r with ((Z.pos n * 2 ^ Z.pos sh) mod 1) by (unfold Z.modulo; now rewrite Ediv).
    apply Z.mod_1_r. }
  subst q r. replace (xorb s false) with s by (now destruct s).
  change (new_location 1 0) with loc_Exact.
  assert (H2 : 0 < 2 ^ Z.pos sh) by (apply Z.pow_pos_nonneg; lia).
  destruct (Z.pos n * 2 ^ Z.pos sh) as [|m|m] eqn:Em; try lia.
  apply round_aux_exact; [exact Hd|lia|now symmetry].
Qed.

Lemma of_Q_whole (a : Z) : Z.abs a < 2 ^ 24 -> F32.of_Q (inject_Z a) = F32.of_Z a.
Proof.
  intro Ha. rewrite of_Z_whole by exact Ha.
  unfold F32.of_Q, inject_Z. cbn [Qnum Qden].
  destruct a as [|n|n]; cbn [whole]; [reflexivity| |]; apply div_by_one; lia.
Qed.

(** Some casts: 1/10 becomes the float32 [0x3DCCCCCD], as the cast of
    the binary64 1/10 does; 2^24 + 1 is rounded to 2^24; and 3/65536,
    which is [3 * 2^22 * 2^-38], is kept as it is. *)
Example of_Q_samples :
  F32.of_Q (1 # 10) = S754_finite false 13421773 (-27) /\
  F32.of_float64 (Prim2SF (1 / 10)%float) = F32.of_Q (1 # 10) /\
  F32.of_Q (inject_Z 16777217) = F32.of_Z 16777216 /\
  F32.of_Q (3 # 65536) = S754_finite false 12582912 (-38).
Proof. repeat split; vm_compute; reflexivity. Qed.

(** A polygon on the pixel grid becomes the float32 array of its
    whole numbers. *)
Lemma as_float32_on_grid (zs : list (Z * Z)) :
  grid_points zs -> as_float32 (map GeometryMask.to_point zs) = map of_ints zs.
Proof.
  intro Hg. unfold as_float32. rewrite map_map. apply map_ext_in.
  intros p Hp. destruct (Hg p Hp) as [H1 H2]. change (2 ^ 23) with 8388608 in *.
  unfold of_ints, GeometryMask.to_point. cbn [x y].
  rewrite !of_Q_whole by (change (2 ^ 24) with 16777216; lia). reflexivity.
Qed.

Lemma Qabs_lt (a b : Q) : (Qabs a < b)%Q -> (- b < a /\ a < b)%Q.
Proof. intro H. now apply Qabs_Qlt_condition in H. Qed.

(** On the pixel grid the code sees a roughly axis-aligned
    quadrilateral as what it is. *)
Lemma axis_aligned_on_grid (tl tr br bl : Z * Z) :
  grid_points [tl; tr; br; bl] ->
  roughly_axis_aligned (GeometryMask.to_point tl) (GeometryMask.to_point tr)
    (GeometryMask.to_point br) (GeometryMask.to_point bl) ->
  axis_aligned Np.float32 (of_ints tl) (of_ints tr) (of_ints br) (of_ints bl).
Proof.
  intros Hg [Ht Hb Hl Hr].
  apply Qabs_lt in Ht, Hb, Hl, Hr.
  unfold GeometryMask.to_point in *. cbn [x y] in *.
  unfold Qminus in *. rewrite <- !inject_Z_opp, <- !inject_Z_plus in *.
  rewrite <- !inject_Z_opp in *. rewrite <- !Zlt_Qlt in *.
  assert (Hpair : forall p q, In p [tl; tr; br; bl] -> In q [tl; tr; br; bl] ->
            grid_points [p; q]).
  { intros p q Hp Hq. now apply (on_grid_pair _ p q Hg). }
  split; rewrite ?sum_ltb, ?diff_ltb by (apply Hpair; simpl; tauto);
    apply Z.ltb_lt; lia.
Qed.

(** So on the pixel grid the four corners of a roughly axis-aligned
    quadrilateral, given in any order, are ordered as named, and a
    second ordering changes nothing. *)
Lemma order_points_on_grid (zs : list (Z * Z)) (tl tr br bl : Z * Z) :
  Permutation zs [tl; tr; br; bl] ->
  grid_points [tl; tr; br; bl] ->
  roughly_axis_aligned (GeometryMask.to_point tl) (GeometryMask.to_point tr)
    (GeometryMask.to_point br) (GeometryMask.to_point bl) ->
  order_points Np.float32 (map of_ints zs) = Some (map of_ints [tl; tr; br; bl]) /\
  order_points Np.float32 (map of_ints [tl; tr; br; bl]) = Some (map of_ints [tl; tr; br; bl]).
Proof.
  intros Hperm Hg Hvalid.
  pose proof (axis_aligned_on_grid tl tr br bl Hg Hvalid) as Ha.
  split.
  - rewrite (order_points_valid Np.float32 _ _ _ _ _ (Permutation_map of_ints Hperm) Ha).
    cbn [map]. now rewrite !store_float32.
  - cbn [map].
    rewrite (order_points_valid Np.float32 _ _ _ _ _ (Permutation_refl _) Ha).
    cbn [map]. now rewrite !store_float32.
Qed.

End GeometryProofs.

(** ** Perspective transformer *)

Module PerspectiveProofs.

Import Geometry Spec NumberFacts Reference PerspectiveTransformer.









(** The scenario of [test_correct_perspective_with_aspect_ratio]: a
    640 by 480 image, the trapezoid, and the ratio [16/9]. *)
Definition scenario_image : image := uniform 480 640 black.
Definition sixteen_ninths : float := (16 / 9)%float.



(** The wide quadrilateral under the same ratio: the natural size is
    5001 by 3000, and the image comes out 5001 by 2813. *)
Example correct_perspective_distortion_wide :
  exists out,
    correct_perspective_distortion scenario_image
      (mkPolygon (map GeometryMask.to_point GeometryProofs.wide)) (Some sixteen_ninths)
      = Some out /\
    Np.width out = 5001 /\ Np.height out = 2813.
Proof. vm_compute. eexists. split; [reflexivity|]. split; reflexivity. Qed.

(** C4.  With a source or a destination that does not hold exactly
    four points, [apply_homography] returns [None]: the guard returns
    it, no exception is raised. *)
Theorem apply_homography_four_points `{Backend}
  (img : image) (src_points dst_points : list Point) (output_shape : Z * Z) :
  length src_points <> 4%nat \/ length dst_points <> 4%nat ->
  apply_homography_try img src_points dst_points output_shape = Some None /\
  apply_homography img src_points dst_points output_shape = None.
Proof.
  intro Hcount.
  assert (E : apply_homography_try img src_points dst_points output_shape = Some None).
  { unfold apply_homography_try.
    destruct (length src_points =? 4)%nat eqn:Es, (length dst_points =? 4)%nat eqn:Ed;
      try reflexivity.
    apply Nat.eqb_eq in Es, Ed. exfalso. destruct Hcount; contradiction. }
  split; [exact E|].
  unfold apply_homography. now rewrite E.
Qed.

(** The two-point arrays of [test_apply_homography_invalid_points]. *)
Lemma apply_homography_four_points_witness :
  apply_homography_try (uniform 300 400 (1, 1, 1))
    [pt 0 0; pt 100 100] [pt 50 50; pt 150 150] (480, 640) = Some None /\
  apply_homography (uniform 300 400 (1, 1, 1))
    [pt 0 0; pt 100 100] [pt 50 50; pt 150 150] (480, 640) = None.
Proof.
  apply apply_homography_four_points. left. discriminate.
Defined.

(** With four points on each side, a homography from the estimator
    and a non-empty image, the result has the requested shape. *)
Theorem apply_homography_shape `{Backend}
  (img : image) (src_points dst_points : list Point) (out_h out_w : Z) (M : matrix) :
  length src_points = 4%nat -> length dst_points = 4%nat ->
  findHomography src_points dst_points = Some (Some M) ->
  Cv2.is_empty img = false -> 0 < out_h -> 0 < out_w ->
  exists out,
    apply_homography img src_points dst_points (out_h, out_w) = Some out /\
    Np.shape out = (out_h, out_w).
Proof.
  intros Hs Hd HM Himg Hh Hw.
  unfold apply_homography, apply_homography_try.
  rewrite Hs, Hd, HM. cbn [Nat.eqb negb orb bind snd fst].
  unfold Cv2.warpPerspective. rewrite Himg.
  assert (Hpos : (out_w <=? 0) || (out_h <=? 0) = false).
  { apply orb_false_iff. split; apply Z.leb_gt; assumption. }
  rewrite Hpos. cbn. eexists. split; reflexivity.
Qed.

(** The arrays of [test_apply_homography]. *)
Lemma apply_homography_shape_witness :
  exists out,
    apply_homography (uniform 300 400 (128, 128, 128))
      [pt 0 0; pt 399 0; pt 399 299; pt 0 299]
      [pt 50 50; pt 350 50; pt 350 250; pt 50 250] (480, 640) = Some out /\
    Np.shape out = (480, 640).
Proof.
  apply (@apply_homography_shape Reference.backend _ _ _ 480 640 tt);
    try reflexivity; lia.
Defined.

End PerspectiveProofs.

(** ** Region compositor *)

Module ScreenEditorProofs.

Import Spec Reference ScreenEditor.

Lemma range_bounds (n i : Z) : In i (Np.range n) -> 0 <= i < n.
Proof.
  unfold Np.range. rewrite in_map_iff. intros (k & <- & Hk).
  apply in_seq in Hk. lia.
Qed.

Lemma filter_none {A : Type} (f : A -> bool) (l : list A) :
  (forall a, In a l -> f a = false) -> filter f l = [].
Proof.
  induction l as [|a l IH]; intro H; simpl; [reflexivity|].
  rewrite (H a) by (now left). apply IH. intros b Hb. apply H. now right.
Qed.

Lemma flat_map_none {A B : Type} (f : A -> list B) (l : list A) :
  (forall a, In a l -> f a = []) -> flat_map f l = [].
Proof.
  induction l as [|a l IH]; intro H; simpl; [reflexivity|].
  rewrite (H a) by (now left). apply IH. intros b Hb. apply H. now right.
Qed.

(** A mask with no cell above the threshold has no positive cell. *)
Lemma where_gt_none (m : mask) (t : Z) :
  (forall y x, 0 <= y < Np.height m -> 0 <= x < Np.width m -> Np.item m y x <= t) ->
  Np.where_gt m t = [].
Proof.
  intro H. unfold Np.where_gt. apply flat_map_none. intros y Hy.
  rewrite filter_none; [reflexivity|].
  intros x Hx. apply Z.ltb_ge. apply H; now apply range_bounds.
Qed.

(** C5.  With a mask that has no cell of intensity above 127, the
    replacement returns the image it was given, whatever the content
    and the blend flag, and it does so through the guard: no exception
    is raised. *)
Theorem replace_screen_with_image_empty_mask `{Backend}
  (laptop_image : image) (m : mask) (screen_content : image) (blend_edges : bool) :
  (forall y x, 0 <= y < Np.height m -> 0 <= x < Np.width m -> Np.item m y x <= 127) ->
  replace_screen_with_image_try laptop_image m screen_content blend_edges
    = Some laptop_image /\
  replace_screen_with_image laptop_image m screen_content blend_edges = laptop_image.
Proof.
  intro Hmask.
  assert (E : replace_screen_with_image_try laptop_image m screen_content blend_edges
              = Some laptop_image).
  { unfold replace_screen_with_image_try. now rewrite (where_gt_none m 127 Hmask). }
  split; [exact E|].
  unfold replace_screen_with_image. now rewrite E.
Qed.

Lemma replace_screen_with_image_empty_mask_witness :
  replace_screen_with_image_try (uniform 480 640 black) (zero_mask 480 640)
    (uniform 100 100 white) true = Some (uniform 480 640 black) /\
  replace_screen_with_image (uniform 480 640 black) (zero_mask 480 640)
    (uniform 100 100 white) true = uniform 480 640 black.
Proof.
  apply replace_screen_with_image_empty_mask. intros y x _ _. simpl. lia.
Defined.

(** C6 does not hold of the code.  On a 4 by 4 mask whose positive
    cells are the rows 1..2 of the columns 1..2, the bounding rectangle
    is 2 by 2, yet the content is resized to 1 by 1 and only the cell
    (1, 1) is replaced: the last positive row and column keep the
    original picture.  On a mask with one positive cell the content is
    resized to 0 by 0, which OpenCV refuses, and the image comes back
    untouched. *)
Theorem replace_screen_with_image_border (B : Backend) :
  bounding_rectangle (block_mask 4 4 1 2 1 2) = Some (1, 1, 2, 2) /\
  Np.item (replace_screen_with_image (uniform 4 4 black) (block_mask 4 4 1 2 1 2)
             (uniform 8 8 white) false) 1 1
    = resize_sample Cv2.INTER_LANCZOS4 (uniform 8 8 white) 1 1 0 0 /\
  Np.item (replace_screen_with_image (uniform 4 4 black) (block_mask 4 4 1 2 1 2)
             (uniform 8 8 white) false) 1 2 = black /\
  Np.item (replace_screen_with_image (uniform 4 4 black) (block_mask 4 4 1 2 1 2)
             (uniform 8 8 white) false) 2 1 = black /\
  Np.item (replace_screen_with_image (uniform 4 4 black) (block_mask 4 4 1 2 1 2)
             (uniform 8 8 white) false) 2 2 = black /\
  bounding_rectangle (block_mask 4 4 1 1 1 1) = Some (1, 1, 1, 1) /\
  replace_screen_with_image (uniform 4 4 black) (block_mask 4 4 1 1 1 1)
    (uniform 8 8 white) false = uniform 4 4 black /\
  replace_screen_with_image (uniform 4 4 black) (block_mask 4 4 1 1 1 1)
    (uniform 8 8 white) true = uniform 4 4 black.
Proof. repeat split; reflexivity. Qed.

Lemma fold_min_in (l : list Z) : forall v,
  fold_left Z.min l v = v \/ In (fold_left Z.min l v) l.
Proof.
  induction l as [|a l IH]; intro v; simpl; [now left|].
  destruct (IH (Z.min v a)) as [E|Hin]; [|now right; right].
  rewrite E. destruct (Z.min_spec v a) as [[_ ->]|[_ ->]]; [now left|now right; left].
Qed.

Lemma fold_max_in (l : list Z) : forall v,
  fold_left Z.max l v = v \/ In (fold_left Z.max l v) l.
Proof.
  induction l as [|a l IH]; intro v; simpl; [now left|].
  destruct (IH (Z.max v a)) as [E|Hin]; [|now right; right].
  rewrite E. destruct (Z.max_spec v a) as [[_ ->]|[_ ->]]; [now right; left|now left].
Qed.

Lemma amin_in (l : list Z) (v : Z) : Np.amin l = Some v -> In v l.
Proof.
  destruct l as [|a l]; simpl; [discriminate|]. intros [= <-].
  destruct (fold_min_in l a) as [->|H]; [now left|now right].
Qed.

Lemma amax_in (l : list Z) (v : Z) : Np.amax l = Some v -> In v l.
Proof.
  destruct l as [|a l]; simpl; [discriminate|]. intros [= <-].
  destruct (fold_max_in l a) as [->|H]; [now left|now right].
Qed.

Lemma where_gt_bounds (m : mask) (t : Z) (c : Z * Z) :
  In c (Np.where_gt m t) -> 0 <= fst c /\ 0 <= snd c.
Proof.
  unfold Np.where_gt. rewrite in_flat_map. intros (y0 & Hy & Hc).
  rewrite in_map_iff in Hc. destruct Hc as (x0 & <- & Hx).
  apply filter_In in Hx. destruct Hx as [Hx _].
  apply range_bounds in Hy, Hx. simpl. lia.
Qed.

Lemma assign_outside {A : Type} (a src r : Np.ndarray A) (y0 y1 x0 x1 y x : Z) :
  0 <= y0 -> 0 <= y1 -> 0 <= x0 -> 0 <= x1 ->
  Np.assign a y0 y1 x0 x1 src = Some r ->
  y < y0 \/ y1 <= y \/ x < x0 \/ x1 <= x ->
  Np.item r y x = Np.item a y x.
Proof.
  intros Hy0 Hy1 Hx0 Hx1. unfold Np.assign, Np.slice, Np.slice_bound.
  destruct (y0 <? 0) eqn:Ey; [apply Z.ltb_lt in Ey; lia|].
  destruct (x0 <? 0) eqn:Ex; [apply Z.ltb_lt in Ex; lia|].
  destruct (y1 <? 0) eqn:Ey1; [apply Z.ltb_lt in Ey1; lia|].
  destruct (x1 <? 0) eqn:Ex1; [apply Z.ltb_lt in Ex1; lia|].
  destruct (_ && _); [|discriminate]. intros [= <-] Hout. simpl.
  match goal with |- (if ?c then _ else _) = _ => destruct c eqn:E end; [|reflexivity].
  exfalso. rewrite !andb_true_iff in E. destruct E as [[[E1 E2] E3] E4].
  apply Z.leb_le in E1, E3. apply Z.ltb_lt in E2, E4. lia.
Qed.

(** Whatever the replacement does, the cells outside the bounding
    rectangle of the positive cells keep the original picture. *)
Theorem replace_screen_with_image_outside `{Backend}
  (laptop_image : image) (m : mask) (screen_content : image) (blend_edges : bool)
  (bx by_ bw bh y x : Z) :
  bounding_rectangle m = Some (bx, by_, bw, bh) ->
  y < by_ \/ by_ + bh <= y \/ x < bx \/ bx + bw <= x ->
  Np.item (replace_screen_with_image laptop_image m screen_content blend_edges) y x
    = Np.item laptop_image y x.
Proof.
  unfold bounding_rectangle, replace_screen_with_image, replace_screen_with_image_try.
  set (cells := Np.where_gt m 127).
  destruct (Np.amin (map snd cells)) as [x_min|] eqn:Exmin; [|discriminate].
  destruct (Np.amax (map snd cells)) as [x_max|] eqn:Exmax; [|discriminate].
  destruct (Np.amin (map fst cells)) as [y_min|] eqn:Eymin; [|discriminate].
  destruct (Np.amax (map fst cells)) as [y_max|] eqn:Eymax; [|discriminate].
  cbn [bind]. intros [= <- <- <- <-] Hout.
  assert (Hnn : 0 <= x_min /\ 0 <= x_max /\ 0 <= y_min /\ 0 <= y_max).
  { apply amin_in in Exmin, Eymin. apply amax_in in Exmax, Eymax.
    rewrite in_map_iff in Exmin, Exmax, Eymin, Eymax.
    destruct Exmin as (c1 & <- & H1), Exmax as (c2 & <- & H2),
             Eymin as (c3 & <- & H3), Eymax as (c4 & <- & H4).
    apply where_gt_bounds in H1, H2, H3, H4. lia. }
  destruct ((length (map fst cells) =? 0)%nat || (length (map snd cells) =? 0)%nat);
    [reflexivity|].
  destruct (Cv2.resize screen_content (x_max - x_min) (y_max - y_min) Cv2.INTER_LANCZOS4)
    as [screen_resized|]; [|reflexivity].
  cbn [bind].
  destruct blend_edges.
  - destruct (Cv2.is_empty _); [reflexivity|].
    destruct (Np.zip_with pair screen_resized _) as [content_part|]; [|reflexivity].
    cbn [bind].
    destruct (Np.zip_with pair (Np.crop laptop_image y_min y_max x_min x_max) _)
      as [region_part|]; [|reflexivity].
    cbn [bind].
    destruct (Np.zip_with _ content_part region_part) as [blended|]; [|reflexivity].
    cbn [bind].
    destruct (Np.assign laptop_image y_min y_max x_min x_max blended) as [r|] eqn:Ea;
      [|reflexivity].
    cbn [try_except]. eapply assign_outside; [| | | |exact Ea|]; lia.
  - destruct (Np.assign_where_gt _ _ 127 screen_resized) as [replaced|]; [|reflexivity].
    cbn [bind].
    destruct (Np.assign laptop_image y_min y_max x_min x_max replaced) as [r|] eqn:Ea;
      [|reflexivity].
    cbn [try_except]. eapply assign_outside; [| | | |exact Ea|]; lia.
Qed.

Lemma replace_screen_with_image_outside_witness :
  Np.item (replace_screen_with_image (uniform 4 4 black) (block_mask 4 4 1 2 1 2)
             (uniform 8 8 white) true) 0 3
    = Np.item (uniform 4 4 black) 0 3.
Proof.
  apply (replace_screen_with_image_outside _ _ _ _ 1 1 2 2); [reflexivity|lia].
Defined.

End ScreenEditorProofs.

(** ** Framing engine: cropping *)

Module CropperProofs.

Import Spec NumberFacts Reference ImageCropper.

(** A slice that lies inside its axis is taken as written. *)
Lemma slice_inside (n start len : Z) :
  0 <= start -> 0 <= len -> start + len <= n ->
  Np.slice n start (start + len) = (start, len).
Proof.
  intros Hs Hl Hn. unfold Np.slice, Np.slice_bound.
  destruct (start <? 0) eqn:E1; [apply Z.ltb_lt in E1; lia|].
  destruct (start + len <? 0) eqn:E2; [apply Z.ltb_lt in E2; lia|].
  f_equal; lia.
Qed.

Lemma magnitude_nonneg (m : positive) (e : Z) :
  0 <= (if 0 <=? e then Z.pos m * 2 ^ e else Z.pos m / 2 ^ (- e)).
Proof.
  destruct (0 <=? e) eqn:E.
  - apply Z.leb_le in E. apply Z.mul_nonneg_nonneg; [lia|].
    apply Z.pow_nonneg. lia.
  - apply Z.leb_gt in E. apply Z.div_pos; [lia|]. apply Z.pow_pos_nonneg; lia.
Qed.

(** Rounding a value that is not negative gives no negative integer. *)
Lemma floor_nonneg (v : float) (f : Z) :
  sign_bit (Prim2SF v) = false -> Py.floor_of_float v = Some f -> 0 <= f.
Proof.
  unfold Py.floor_of_float.
  destruct (Prim2SF v) as [s|s| |s m e]; cbn [sign_bit]; try discriminate.
  - intros _ [= <-]. lia.
  - intros Hs Hf. subst s. injection Hf as <-. apply magnitude_nonneg.
Qed.

Lemma centred_half (total kept : Z) :
  0 <= kept <= total -> centred total kept ((total - kept) / 2).
Proof.
  intro H. unfold centred.
  pose proof (Z.div_mod (total - kept) 2 ltac:(lia)).
  pose proof (Z.mod_pos_bound (total - kept) 2 ltac:(lia)).
  lia.
Qed.

(** C7, as amended.  For an image of positive height [h] and width
    [w] and a positive target ratio: the image passes through unchanged
    when [abs(w / h - ratio) < 0.01]; otherwise, when [w / h > ratio]
    and [floor(h * ratio)] is at most [w], the output keeps the height
    and holds the [floor(h * ratio)] columns that start at the centring
    offset, or at column 0 when [from_center] is false; and when
    [w / h > ratio] does not hold and [floor(w / ratio)] is at most
    [h], it keeps the width and holds the [floor(w / ratio)] rows
    chosen the same way.  The quotients, the product and the
    comparisons are the binary64 ones.  Nothing is promised about the
    ratio of the output. *)
Theorem crop_to_aspect_ratio_crops (img : image) (ratio : float) (from_center : bool) :
  0 < Np.height img -> 0 < Np.width img ->
  PrimFloat.ltb 0 ratio = true ->
  exists current,
    Py.truediv_int (Np.width img) (Np.height img) = Some current /\
    (within_tolerance img ratio = true ->
     crop_to_aspect_ratio img ratio from_center = img) /\
    (within_tolerance img ratio = false ->
     PrimFloat.ltb ratio current = true ->
     forall new_width,
       Py.floor_of_float (Py.mul_int_float (Np.height img) ratio) = Some new_width ->
       new_width <= Np.width img ->
       exists x_start,
         (if from_center then centred (Np.width img) new_width x_start else x_start = 0) /\
         crop_to_aspect_ratio img ratio from_center
           = Np.mk_array (Np.height img) new_width
               (fun y x => Np.item img y (x_start + x))) /\
    (within_tolerance img ratio = false ->
     PrimFloat.ltb ratio current = false ->
     forall q new_height,
       Py.truediv (Py.float_of_int (Np.width img)) ratio = Some q ->
       Py.floor_of_float q = Some new_height ->
       new_height <= Np.height img ->
       exists y_start,
         (if from_center then centred (Np.height img) new_height y_start else y_start = 0) /\
         crop_to_aspect_ratio img ratio from_center
           = Np.mk_array new_height (Np.width img)
               (fun y x => Np.item img (y_start + y) x)).
Proof.
  intros Hh Hw Hr.
  set (h := Np.height img) in *. set (w := Np.width img) in *.
  assert (Ediv : Py.truediv_int w h = Some (Py.float_of_int w / Py.float_of_int h)%float).
  { unfold Py.truediv_int. destruct (h =? 0) eqn:E; [apply Z.eqb_eq in E; lia|reflexivity]. }
  eexists. split; [exact Ediv|].
  unfold within_tolerance, crop_to_aspect_ratio, crop_to_aspect_ratio_try.
  fold h w. rewrite Ediv. cbn [bind].
  set (current := (Py.float_of_int w / Py.float_of_int h)%float).
  split; [|split].
  - intros ->. reflexivity.
  - intros -> -> new_width Hfloor Hle.
    rewrite (scaled_floor h ratio) by (lia || assumption).
    rewrite Hfloor. cbn [bind try_except].
    assert (Hnn : 0 <= new_width).
    { eapply floor_nonneg; [|exact Hfloor].
      unfold Py.mul_int_float. rewrite FloatAxioms.mul_spec.
      apply SFmul_sign; [apply float_of_int_sign; lia|now apply positive_sign]. }
    unfold Np.crop_cols. fold w h.
    destruct from_center.
    + pose proof (centred_half w new_width ltac:(lia)) as Hc.
      exists ((w - new_width) / 2). split; [exact Hc|].
      destruct Hc as [Hc1 Hc2].
      rewrite slice_inside by lia. reflexivity.
    + exists 0. split; [reflexivity|].
      rewrite slice_inside by lia. reflexivity.
  - intros -> -> q new_height Hq Hfloor Hle.
    rewrite Hq. cbn [bind].
    rewrite (divided_floor w ratio q) by (lia || assumption).
    rewrite Hfloor. cbn [bind try_except].
    assert (Hnn : 0 <= new_height).
    { eapply floor_nonneg; [|exact Hfloor].
      unfold Py.truediv in Hq. destruct (PrimFloat.eqb ratio 0); [discriminate|].
      injection Hq as <-. rewrite FloatAxioms.div_spec.
      apply SFdiv_sign; [apply float_of_int_sign; lia|now apply positive_sign]. }
    unfold Np.crop_rows. fold w h.
    destruct from_center.
    + pose proof (centred_half h new_height ltac:(lia)) as Hc.
      exists ((h - new_height) / 2). split; [exact Hc|].
      destruct Hc as [Hc1 Hc2].
      rewrite slice_inside by lia. reflexivity.
    + exists 0. split; [reflexivity|].
      rewrite slice_inside by lia. reflexivity.
Qed.

(** A 10 by 10 image and the ratio 3/4. *)
Definition small_image : image := uniform 10 10 black.
Definition three_quarters : float := (3 / 4)%float.

Lemma crop_to_aspect_ratio_crops_witness :
  exists x_start,
    centred 10 7 x_start /\
    crop_to_aspect_ratio small_image three_quarters true
      = Np.mk_array 10 7 (fun y x => Np.item small_image y (x_start + x)).
Proof.
  destruct (crop_to_aspect_ratio_crops small_image three_quarters true)
    as (current & Ec & _ & Hwide & _); [reflexivity|reflexivity|reflexivity|].
  vm_compute in Ec. injection Ec as <-.
  exact (Hwide eq_refl eq_refl 7 eq_refl ltac:(discriminate)).
Defined.

(** C7 fails as stated: the 10 by 10 image cropped to the ratio 3/4 is
    7 wide and 10 high, and [abs(7 / 10 - 0.75)] is 0.05. *)
Lemma crop_to_aspect_ratio_off_target :
  PrimFloat.ltb 0 three_quarters = true /\
  Np.shape small_image = (10, 10) /\
  Np.shape (crop_to_aspect_ratio small_image three_quarters true) = (10, 7) /\
  within_tolerance (crop_to_aspect_ratio small_image three_quarters true) three_quarters
    = false.
Proof. repeat split; reflexivity. Qed.

End CropperProofs.

(** ** Framing engine: resizing *)

Module ResizerProofs.

Import Spec NumberFacts Reference ImageResizer CropperProofs.

(** C8 does not hold of the code.

    Fill: a 3000 by 1070 image filled to 1920 by 1080 is scaled by
    [1080 / 1070]; in binary64 [1070 * (1080 / 1070)] is just below
    1080, [int] makes it 1079, nothing is left to crop on that axis,
    and the result is 1079 rows high.  A 98 by 49 image filled to 1 by
    1 gets a height of 0, which OpenCV refuses, and comes back as it
    was.

    Fit: a 1 by 1000 image fitted to 10 by 10 gets a width of
    [int(1 * 0.01) = 0]; the resize fails and hands back the input,
    which does not go onto the canvas, and the input is returned. *)
Theorem resize_to_fill_and_fit_sizes (B : Backend) :
  Py.int_of_float (Py.mul_int_float 1070 (Py.float_of_int 1080 / Py.float_of_int 1070)%float)
    = Some 1079 /\
  Np.shape (resize_to_fill (uniform 1070 3000 black) 1920 1080 Cv2.INTER_LANCZOS4)
    = (1079, 1920) /\
  resize_to_fill (uniform 49 98 black) 1 1 Cv2.INTER_LANCZOS4 = uniform 49 98 black /\
  resize (uniform 1000 1 black) (Some 10) (Some 10) true Cv2.INTER_LANCZOS4
    = uniform 1000 1 black /\
  resize_to_fit (uniform 1000 1 black) 10 10 white Cv2.INTER_LANCZOS4
    = uniform 1000 1 black.
Proof. repeat split; reflexivity. Qed.

Lemma bind_some {A B : Type} (c : option A) (k : A -> option B) (b : B) :
  bind c k = Some b -> exists a, c = Some a /\ k a = Some b.
Proof. destruct c as [a|]; simpl; [eauto|discriminate]. Qed.

Lemma half_inside (total kept : Z) :
  0 <= kept <= total ->
  0 <= (total - kept) / 2 /\ (total - kept) / 2 + kept <= total.
Proof.
  intro H. destruct (centred_half total kept H) as [H1 H2]. lia.
Qed.

(** Fill: when the scaled size covers the target, the result has
    exactly the target size. *)
Theorem resize_to_fill_exact `{Backend}
  (img : image) (target_width target_height interpolation new_w new_h : Z) :
  fill_scaled_size img target_width target_height = Some (new_w, new_h) ->
  Cv2.is_empty img = false ->
  0 < target_width <= new_w -> 0 < target_height <= new_h ->
  Np.shape (resize_to_fill img target_width target_height interpolation)
    = (target_height, target_width).
Proof.
  unfold fill_scaled_size. intros Hs Himg Hw Hh.
  apply bind_some in Hs. destruct Hs as (target_ratio & E1 & Hs).
  apply bind_some in Hs. destruct Hs as (current_ratio & E2 & Hs).
  apply bind_some in Hs. destruct Hs as (scale & E3 & Hs).
  apply bind_some in Hs. destruct Hs as (nw & E4 & Hs).
  apply bind_some in Hs. destruct Hs as (nh & E5 & Hs).
  injection Hs as -> ->.
  unfold resize_to_fill, resize_to_fill_try.
  rewrite E1, E2. cbn [bind]. rewrite E3. cbn [bind]. rewrite E4, E5. cbn [bind].
  unfold Cv2.resize. rewrite Himg.
  assert (Hpos : (new_w <=? 0) || (new_h <=? 0) = false).
  { apply orb_false_iff. split; apply Z.leb_gt; lia. }
  cbn [orb]. rewrite Hpos. cbn [bind try_except].
  unfold Np.shape.
  destruct (target_width <? new_w) eqn:Cw; destruct (target_height <? new_h) eqn:Ch;
    try apply Z.ltb_lt in Cw; try apply Z.ltb_lt in Ch;
    try apply Z.ltb_ge in Cw; try apply Z.ltb_ge in Ch;
    unfold Np.crop_rows, Np.crop_cols; cbn [Np.height Np.width];
    repeat match goal with
    | |- context [Np.slice ?n ((?n - ?k) / 2) ((?n - ?k) / 2 + ?k)] =>
        rewrite (slice_inside n ((n - k) / 2) k)
          by (pose proof (half_inside n k ltac:(lia)); lia);
        cbn [Np.height Np.width]
    end; f_equal; lia.
Qed.

(** Fit: when the scaled size is positive and within the target, the
    result has exactly the target size. *)
Theorem resize_to_fit_exact `{Backend}
  (img : image) (target_width target_height : Z) (padding_color : pixel)
  (interpolation new_w new_h : Z) :
  fit_scaled_size img target_width target_height = Some (new_w, new_h) ->
  Cv2.is_empty img = false ->
  0 < new_w <= target_width -> 0 < new_h <= target_height ->
  Np.shape (resize_to_fit img target_width target_height padding_color interpolation)
    = (target_height, target_width).
Proof.
  unfold fit_scaled_size. intros Hs Himg Hw Hh.
  apply bind_some in Hs. destruct Hs as (scale_w & E1 & Hs).
  apply bind_some in Hs. destruct Hs as (scale_h & E2 & Hs).
  apply bind_some in Hs. destruct Hs as (nw & E4 & Hs).
  apply bind_some in Hs. destruct Hs as (nh & E5 & Hs).
  injection Hs as -> ->.
  unfold resize_to_fit, resize_to_fit_try, resize, resize_try.
  rewrite E1. cbn [bind]. rewrite E2. cbn [bind]. rewrite E4, E5. cbn [bind].
  unfold Cv2.resize. rewrite Himg.
  assert (Hpos : (new_w <=? 0) || (new_h <=? 0) = false).
  { apply orb_false_iff. split; apply Z.leb_gt; lia. }
  cbn [orb]. rewrite Hpos. cbn [bind try_except Np.height Np.width].
  destruct ((new_w =? target_width) && (new_h =? target_height)) eqn:Eq.
  - apply andb_true_iff in Eq. destruct Eq as [Ew Eh].
    apply Z.eqb_eq in Ew, Eh. subst. reflexivity.
  - unfold Np.full.
    assert (Hnn : (target_height <? 0) || (target_width <? 0) = false).
    { apply orb_false_iff. split; apply Z.ltb_ge; lia. }
    rewrite Hnn. cbn [bind]. unfold Np.assign. cbn [Np.height Np.width].
    rewrite (slice_inside target_height ((target_height - new_h) / 2) new_h)
      by (pose proof (half_inside target_height new_h ltac:(lia)); lia).
    rewrite (slice_inside target_width ((target_width - new_w) / 2) new_w)
      by (pose proof (half_inside target_width new_w ltac:(lia)); lia).
    unfold Np.broadcasts_to. rewrite !Z.eqb_refl. reflexivity.
Qed.

Lemma resize_to_fill_exact_witness :
  Np.shape (resize_to_fill (uniform 100 200 black) 50 50 Cv2.INTER_LANCZOS4) = (50, 50).
Proof.
  apply (resize_to_fill_exact _ 50 50 _ 100 50); [reflexivity|reflexivity|lia|lia].
Defined.

Lemma resize_to_fit_exact_witness :
  Np.shape (resize_to_fit (uniform 480 640 black) 100 100 white Cv2.INTER_LANCZOS4)
    = (100, 100).
Proof.
  apply (resize_to_fit_exact _ 100 100 _ _ 100 75); [reflexivity|reflexivity|lia|lia].
Defined.

(** C10.  A scale factor that is zero or negative returns the input
    image, and so does a factor whose scaled width or height rounds
    down to zero or below; in both cases through a guard, with no
    exception raised and no call of the resize. *)
Theorem scale_by_factor_degenerate `{Backend}
  (img : image) (scale_factor : float) (interpolation : Z) :
  (PrimFloat.leb scale_factor 0 = true ->
   scale_by_factor_try img scale_factor interpolation = Some img /\
   scale_by_factor img scale_factor interpolation = img) /\
  (forall new_w new_h,
      Py.floor_of_float (Py.mul_int_float (Np.width img) scale_factor) = Some new_w ->
      Py.floor_of_float (Py.mul_int_float (Np.height img) scale_factor) = Some new_h ->
      new_w <= 0 \/ new_h <= 0 ->
      scale_by_factor_try img scale_factor interpolation = Some img /\
      scale_by_factor img scale_factor interpolation = img).
Proof.
  assert (Hwrap : scale_by_factor_try img scale_factor interpolation = Some img ->
                  scale_by_factor_try img scale_factor interpolation = Some img /\
                  scale_by_factor img scale_factor interpolation = img).
  { intro E. split; [exact E|]. unfold scale_by_factor. now rewrite E. }
  split.
  - intro Hle. apply Hwrap. unfold scale_by_factor_try. now rewrite Hle.
  - intros new_w new_h Hw Hh Hzero. apply Hwrap. unfold scale_by_factor_try.
    destruct (PrimFloat.leb scale_factor 0); [reflexivity|].
    destruct (floor_nonpos _ _ Hw) as (tw & Etw & Hiw).
    destruct (floor_nonpos _ _ Hh) as (th & Eth & Hih).
    rewrite Etw, Eth. cbn [bind].
    assert (Hguard : (tw <=? 0) || (th <=? 0) = true).
    { apply orb_true_iff. destruct Hzero as [Hz|Hz]; [left|right]; apply Z.leb_le; tauto. }
    now rewrite Hguard.
Qed.

(** A factor of -1, and a factor of 1/1000 on a 640 by 480 image,
    whose scaled size is 0 by 0. *)
Lemma scale_by_factor_degenerate_witness :
  scale_by_factor (uniform 480 640 black) (-1)%float Cv2.INTER_LANCZOS4
    = uniform 480 640 black /\
  scale_by_factor (uniform 480 640 black) (1 / 1000)%float Cv2.INTER_LANCZOS4
    = uniform 480 640 black.
Proof.
  destruct (scale_by_factor_degenerate (uniform 480 640 black) (-1)%float Cv2.INTER_LANCZOS4)
    as [Hneg _].
  destruct (scale_by_factor_degenerate (uniform 480 640 black) (1 / 1000)%float
              Cv2.INTER_LANCZOS4) as [_ Hsmall].
  split.
  - exact (proj2 (Hneg eq_refl)).
  - exact (proj2 (Hsmall 0 0 eq_refl eq_refl (or_introl (Z.le_refl 0)))).
Defined.

(** A positive factor whose scaled size is positive gives an image of
    that size. *)
Theorem scale_by_factor_shape `{Backend}
  (img : image) (scale_factor : float) (interpolation new_w new_h : Z) :
  PrimFloat.leb scale_factor 0 = false ->
  Py.int_of_float (Py.mul_int_float (Np.width img) scale_factor) = Some new_w ->
  Py.int_of_float (Py.mul_int_float (Np.height img) scale_factor) = Some new_h ->
  0 < new_w -> 0 < new_h -> Cv2.is_empty img = false ->
  Np.shape (scale_by_factor img scale_factor interpolation) = (new_h, new_w).
Proof.
  intros Hsf Ew Eh Hw Hh Himg.
  unfold scale_by_factor, scale_by_factor_try.
  rewrite Hsf, Ew, Eh. cbn [bind].
  assert (Hpos : (new_w <=? 0) || (new_h <=? 0) = false).
  { apply orb_false_iff. split; apply Z.leb_gt; assumption. }
  rewrite Hpos. unfold Cv2.resize. rewrite Himg. cbn [orb]. rewrite Hpos.
  reflexivity.
Qed.

Lemma scale_by_factor_shape_witness :
  Np.shape (scale_by_factor (uniform 480 640 black) (1 / 2)%float Cv2.INTER_LANCZOS4)
    = (240, 320).
Proof.
  apply scale_by_factor_shape; try reflexivity; lia.
Defined.

End ResizerProofs.

(** ** Geometry kernel: mask to polygon *)

Module MaskProofs.

Import Geometry GeometryMask Spec NumberFacts Reference.

(** [max(contours, key=contourArea)] is one of the contours and none
    has a larger area. *)
Lemma max_by_area_largest `{Backend} (rest : list contour) : forall best,
  In (max_by_area best rest) (best :: rest) /\
  (forall c, In c (best :: rest) ->
     (contourArea c <= contourArea (max_by_area best rest))%Q).
Proof.
  induction rest as [|c rest IH]; intro best; simpl.
  - split; [now left|]. intros c [<-|[]]. apply Qle_refl.
  - destruct (Np.Qltb (contourArea best) (contourArea c)) eqn:E.
    + apply Qltb_lt in E. destruct (IH c) as [Hin Hmax]. split.
      * simpl in Hin. tauto.
      * intros c' [<-|Hc'].
        -- apply Qle_trans with (contourArea c); [now apply Qlt_le_weak|].
           apply Hmax. now left.
        -- now apply Hmax.
    + apply Qltb_ge in E. destruct (IH best) as [Hin Hmax]. split.
      * simpl in Hin. tauto.
      * intros c' [<-|[<-|Hc']].
        -- apply Hmax. now left.
        -- apply Qle_trans with (contourArea best); [exact E|]. apply Hmax. now left.
        -- apply Hmax. now right.
Qed.

(** C9, as amended.  A mask with no contour gives no polygon.  A mask
    with contours gives the polygon of the points that approximate a
    contour of the largest area, with a tolerance of [epsilon_factor]
    times its perimeter, however many points that approximation has. *)
Theorem mask_to_polygon_contours `{Backend} (m : mask) (epsilon_factor : float) :
  (findContours m = [] -> mask_to_polygon m epsilon_factor = None) /\
  (findContours m <> [] ->
   exists largest,
     In largest (findContours m) /\
     (forall c, In c (findContours m) -> (contourArea c <= contourArea largest)%Q) /\
     mask_to_polygon m epsilon_factor
       = Some (mkPolygon
                 (map to_point
                    (approxPolyDP largest
                       (epsilon_factor * arcLength largest true)%float true)))).
Proof.
  unfold mask_to_polygon. destruct (findContours m) as [|c contours].
  - split; [reflexivity|congruence].
  - split; [discriminate|]. intros _.
    destruct (max_by_area_largest contours c) as [Hin Hmax].
    exists (max_by_area c contours). split; [exact Hin|]. split; [exact Hmax|reflexivity].
Qed.

(** A 3 by 3 mask with one positive cell, at row 1 and column 1. *)
Definition dot_mask : mask := block_mask 3 3 1 1 1 1.

(** Its contour: the one point [(1, 1)]. *)
Definition dot_contour : contour := [(1, 1)].

(** The literal [0.01], the default [epsilon_factor]. *)
Definition epsilon_factor : float := (1 / 100)%float.

(** C9 fails as stated: the contour of the single cell is approximated
    by one point, and the polygon of that one point is returned. *)
Lemma mask_to_polygon_single_point :
  findContours dot_mask = [dot_contour] /\
  length (approxPolyDP dot_contour (epsilon_factor * arcLength dot_contour true)%float true)
    = 1%nat /\
  mask_to_polygon dot_mask epsilon_factor = Some (mkPolygon [pt 1 1]) /\
  len (mkPolygon [pt 1 1]) = 1.
Proof. repeat split; reflexivity. Qed.

End MaskProofs.

(** ** Bounding boxes *)

Module BoxProofs.

Import Boxes NumberFacts.

Ltac box_cases :=
  unfold intersection, covers, x1, y1, x2, y2 in *; cbn [x y width height] in *.

(** [intersection] returns the common cells of the two boxes: a cell
    lies in the box returned when it lies in both boxes, and only
    then; [None] is returned when no cell lies in both, and only
    then. *)
Theorem intersection_common_cells (a b : BoundingBox) :
  match intersection a b with
  | Some c => forall px py, covers c px py <-> covers a px py /\ covers b px py
  | None => forall px py, ~ (covers a px py /\ covers b px py)
  end.
Proof.
  destruct a as [ax ay aw ah], b as [bx by_ bw bh]. box_cases.
  destruct (_ || _) eqn:E.
  - intros px py. apply orb_true_iff in E. rewrite !Z.leb_le in E. lia.
  - intros px py. apply orb_false_iff in E. rewrite !Z.leb_gt in E.
    cbn [x y width height]. lia.
Qed.

Lemma intersection_comm (a b : BoundingBox) : intersection a b = intersection b a.
Proof.
  unfold intersection.
  rewrite (Z.max_comm (x1 a)), (Z.max_comm (y1 a)), (Z.min_comm (x2 a)), (Z.min_comm (y2 a)).
  reflexivity.
Qed.

(** [intersection] and [iou] are symmetric in their two boxes. *)
Theorem iou_symmetric (a b : BoundingBox) :
  intersection a b = intersection b a /\ iou a b = iou b a.
Proof.
  split; [apply intersection_comm|].
  unfold iou. rewrite (intersection_comm a b).
  destruct (intersection b a) as [c|]; [|reflexivity].
  cbv zeta. now rewrite (Z.add_comm (area a)).
Qed.

Lemma overlap_area (a b c : BoundingBox) :
  intersection a b = Some c ->
  0 < area c /\ area c <= area a /\ area c <= area b.
Proof.
  destruct a as [ax ay aw ah], b as [bx by_ bw bh]. box_cases.
  destruct (_ || _) eqn:E; [discriminate|]. intros [= <-].
  apply orb_false_iff in E. rewrite !Z.leb_gt in E.
  unfold area. cbn [x y width height]. nia.
Qed.

(** Two boxes that intersect: the intersection has a positive area,
    at most that of either box, so the union area is positive and
    [iou] returns the quotient of the two areas, never its fallback. *)
Theorem iou_overlap (a b c : BoundingBox) :
  intersection a b = Some c ->
  0 < area c /\ area c <= area a /\ area c <= area b /\
  iou a b = Some (Py.float_of_int (area c)
                  / Py.float_of_int (area a + area b - area c))%float.
Proof.
  intro Hc. destruct (overlap_area a b c Hc) as (H0 & Ha & Hb).
  repeat split; try assumption.
  unfold iou. rewrite Hc. cbv zeta.
  destruct (0 <? _) eqn:E; [|apply Z.ltb_ge in E; lia].
  unfold Py.truediv_int.
  destruct (_ =? 0) eqn:E0; [apply Z.eqb_eq in E0; lia|reflexivity].
Qed.

Definition left_box : BoundingBox := mkBoundingBox 0 0 4 4.
Definition right_box : BoundingBox := mkBoundingBox 2 2 4 4.

Lemma iou_overlap_witness :
  iou left_box right_box = Some (Py.float_of_int 4 / Py.float_of_int 28)%float.
Proof.
  exact (proj2 (proj2 (proj2 (iou_overlap left_box right_box (mkBoundingBox 2 2 2 2) eq_refl)))).
Defined.

(** [expand] by a margin that is not negative, on a box whose origin
    is not negative, gives a box that holds every cell of the
    original; away from the axes, where nothing is clamped, the box
    grows by the margin on all four sides. *)
Theorem expand_covers (b : BoundingBox) (margin : Z) :
  0 <= margin -> 0 <= x b -> 0 <= y b ->
  (forall px py, covers b px py -> covers (expand b margin) px py) /\
  (margin <= x b -> margin <= y b ->
   to_xyxy (expand b margin)
   = (x1 b - margin, y1 b - margin, x2 b + margin, y2 b + margin)).
Proof.
  intros Hm Hx Hy. destruct b as [bx by_ bw bh].
  unfold covers, to_xyxy, expand, x1, y1, x2, y2 in *. cbn [x y width height] in *.
  split.
  - intros px py. lia.
  - intros H1 H2. rewrite !Z.max_r by lia.
    repeat match goal with |- (_, _) = (_, _) => apply f_equal2 end; lia.
Qed.

Lemma expand_covers_witness : covers (expand (mkBoundingBox 1 5 3 3) 2) 3 7.
Proof.
  apply (proj1 (expand_covers (mkBoundingBox 1 5 3 3) 2 ltac:(lia) ltac:(simpl; lia)
                  ltac:(simpl; lia))).
  unfold covers, x1, x2, y1, y2. simpl. lia.
Defined.











End BoxProofs.

(** ** Region compositor: fills and perspective replacement *)

Module ScreenFillProofs.

Import Spec Reference ScreenEditor ScreenFill ScreenEditorProofs.

(** The cells [np.where] lists lie inside the mask. *)
Lemma where_gt_inside (m : mask) (t : Z) (c : Z * Z) :
  In c (Np.where_gt m t) -> 0 <= fst c < Np.height m /\ 0 <= snd c < Np.width m.
Proof.
  unfold Np.where_gt. rewrite in_flat_map. intros (y0 & Hy & Hc).
  rewrite in_map_iff in Hc. destruct Hc as (x0 & <- & Hx).
  apply filter_In in Hx. destruct Hx as [Hx _].
  apply range_bounds in Hy, Hx. simpl. lia.
Qed.

(** Writing back a region in which only the cells selected by [sel]
    were replaced leaves every other cell of the array as it was. *)
Lemma assign_selected {A : Type} (a src replaced r : Np.ndarray A) (sel : mask)
  (t y0 y1 x0 x1 y x : Z) :
  0 <= y0 <= Np.height sel -> 0 <= x0 <= Np.width sel -> 0 <= y1 -> 0 <= x1 ->
  Np.assign_where_gt (Np.crop a y0 y1 x0 x1) (Np.crop sel y0 y1 x0 x1) t src
    = Some replaced ->
  Np.assign a y0 y1 x0 x1 replaced = Some r ->
  Np.item sel y x <= t ->
  Np.item r y x = Np.item a y x.
Proof.
  intros Hy0 Hx0 Hy1 Hx1.
  unfold Np.assign_where_gt, Np.assign, Np.crop, Np.slice, Np.slice_bound.
  destruct (y0 <? 0) eqn:Ey; [apply Z.ltb_lt in Ey; lia|].
  destruct (x0 <? 0) eqn:Ex; [apply Z.ltb_lt in Ex; lia|].
  destruct (y1 <? 0) eqn:Ey1; [apply Z.ltb_lt in Ey1; lia|].
  destruct (x1 <? 0) eqn:Ex1; [apply Z.ltb_lt in Ex1; lia|].
  cbn [Np.height Np.width Np.item].
  destruct (_ && _) eqn:Eshape; [|discriminate]. intros [= <-].
  cbn [Np.height Np.width Np.item].
  destruct (Np.broadcasts_to _ _ && Np.broadcasts_to _ _) eqn:Ecast; [|discriminate].
  intros [= <-] Hsel.
  cbn [Np.item].
  match goal with |- (if ?c then _ else _) = _ => destruct c eqn:E end; [|reflexivity].
  rewrite !andb_true_iff in E. destruct E as [[[E1 E2] E3] E4].
  apply Z.leb_le in E1, E3. apply Z.ltb_lt in E2, E4.
  rewrite !andb_true_iff in Eshape. destruct Eshape as [[[S1 S2] _] _].
  apply Z.eqb_eq in S1, S2.
  assert (Hy : Z.min y0 (Np.height a) = y0) by lia.
  assert (Hx : Z.min x0 (Np.width a) = x0) by lia.
  rewrite Hy, Hx in *.
  assert (Hys : Z.min y0 (Np.height sel) = y0) by lia.
  assert (Hxs : Z.min x0 (Np.width sel) = x0) by lia.
  rewrite Hys, Hxs.
  unfold Np.broadcast_index.
  assert (Bj : (if Z.max 0 (Z.min y1 (Np.height a) - y0) =? 1 then 0 else y - y0) = y - y0).
  { destruct (_ =? 1) eqn:B; [apply Z.eqb_eq in B; lia|reflexivity]. }
  rewrite Bj.
  assert (Bi : (if Z.max 0 (Z.min x1 (Np.width a) - x0) =? 1 then 0 else x - x0) = x - x0).
  { destruct (Z.max 0 (Z.min x1 (Np.width a) - x0) =? 1) eqn:B;
      [apply Z.eqb_eq in B; lia|reflexivity]. }
  rewrite Bi.
  replace (y0 + (y - y0)) with y by lia. replace (x0 + (x - x0)) with x by lia.
  destruct (t <? Np.item sel y x) eqn:Et; [apply Z.ltb_lt in Et; lia|reflexivity].
Qed.

(** Without blending, a pixel that the mask does not select is never
    changed, whatever the shapes of the three arrays. *)
Theorem replace_screen_with_image_unselected `{Backend}
  (laptop_image : image) (m : mask) (screen_content : image) (y x : Z) :
  Np.item m y x <= 127 ->
  Np.item (replace_screen_with_image laptop_image m screen_content false) y x
    = Np.item laptop_image y x.
Proof.
  intro Hsel. unfold replace_screen_with_image, replace_screen_with_image_try.
  set (cells := Np.where_gt m 127).
  destruct ((length (map fst cells) =? 0)%nat || (length (map snd cells) =? 0)%nat);
    [reflexivity|].
  destruct (Np.amin (map snd cells)) as [x_min|] eqn:Exmin; [|reflexivity].
  destruct (Np.amax (map snd cells)) as [x_max|] eqn:Exmax; [|reflexivity].
  destruct (Np.amin (map fst cells)) as [y_min|] eqn:Eymin; [|reflexivity].
  destruct (Np.amax (map fst cells)) as [y_max|] eqn:Eymax; [|reflexivity].
  cbn [bind].
  assert (Hin : 0 <= x_min <= Np.width m /\ 0 <= x_max /\
                0 <= y_min <= Np.height m /\ 0 <= y_max).
  { apply amin_in in Exmin, Eymin. apply amax_in in Exmax, Eymax.
    rewrite in_map_iff in Exmin, Exmax, Eymin, Eymax.
    destruct Exmin as (c1 & <- & H1), Exmax as (c2 & <- & H2),
             Eymin as (c3 & <- & H3), Eymax as (c4 & <- & H4).
    apply where_gt_inside in H1, H2, H3, H4. lia. }
  destruct (Cv2.resize screen_content (x_max - x_min) (y_max - y_min) Cv2.INTER_LANCZOS4)
    as [screen_resized|]; [|reflexivity].
  cbn [bind].
  destruct (Np.assign_where_gt _ _ 127 screen_resized) as [replaced|] eqn:Er; [|reflexivity].
  cbn [bind].
  destruct (Np.assign laptop_image y_min y_max x_min x_max replaced) as [r|] eqn:Ea;
    [|reflexivity].
  cbn [try_except].
  eapply assign_selected; [| | | |exact Er|exact Ea|exact Hsel]; lia.
Qed.

(** A mask with the cells of the main diagonal set. *)
Definition diagonal_mask : mask :=
  Np.mk_array 3 3 (fun y x => if y =? x then 255 else 0).

Lemma replace_screen_with_image_unselected_witness :
  Np.item (replace_screen_with_image (uniform 3 3 black) diagonal_mask
             (uniform 8 8 white) false) 0 1
  = Np.item (uniform 3 3 black) 0 1.
Proof.
  apply replace_screen_with_image_unselected. simpl. lia.
Defined.

Lemma filled (img : image) (m : mask) (color : pixel) :
  (Np.height img =? Np.height m) && (Np.width img =? Np.width m) = true ->
  fill_screen_color img m color
  = Np.mk_array (Np.height img) (Np.width img)
      (fun y x => if 127 <? Np.item m y x then color else Np.item img y x).
Proof.
  intro E. unfold fill_screen_color, fill_screen_color_try, assign_color_where_gt.
  now rewrite E.
Qed.

Lemma not_filled (img : image) (m : mask) (color : pixel) :
  (Np.height img =? Np.height m) && (Np.width img =? Np.width m) = false ->
  fill_screen_color img m color = img.
Proof.
  intro E. unfold fill_screen_color, fill_screen_color_try, assign_color_where_gt.
  now rewrite E.
Qed.

(** A second fill through the same mask overrides the first one: the
    result is that of the last fill alone, cell by cell.  A fill never
    changes the shape, and [fill_screen_black] is the fill with
    [(0, 0, 0)]. *)
Theorem fill_screen_color_twice (img : image) (m : mask) (first last : pixel) :
  Np.shape (fill_screen_color img m last) = Np.shape img /\
  Np.shape (fill_screen_color (fill_screen_color img m first) m last) = Np.shape img /\
  (forall y x,
     Np.item (fill_screen_color (fill_screen_color img m first) m last) y x
     = Np.item (fill_screen_color img m last) y x) /\
  fill_screen_black img m = fill_screen_color img m (0, 0, 0).
Proof.
  destruct ((Np.height img =? Np.height m) && (Np.width img =? Np.width m)) eqn:E.
  - rewrite (filled img m first E), (filled img m last E).
    rewrite filled by exact E.
    cbn [Np.height Np.width Np.item]. repeat split.
    intros y x. now destruct (127 <? Np.item m y x).
  - rewrite (not_filled img m first E), (not_filled img m last E).
    repeat split.
Qed.

Lemma zip_with_shape {A B C : Type} (f : A -> B -> C) (a : Np.ndarray A)
  (b : Np.ndarray B) (c : Np.ndarray C) :
  Np.height a = Np.height b -> Np.width a = Np.width b ->
  Np.zip_with f a b = Some c -> Np.shape c = Np.shape a.
Proof.
  intros Hh Hw. unfold Np.zip_with, Np.broadcast. rewrite <- Hh, <- Hw, !Z.eqb_refl.
  cbn [bind]. now intros [= <-].
Qed.

(** The perspective replacement returns an image of the shape of the
    laptop image, whatever it is given. *)
Theorem replace_screen_with_perspective_shape `{Backend} `{Raster}
  (laptop_image : image) (polygon : Geometry.Polygon) (screen_content : image) :
  Np.shape (replace_screen_with_perspective laptop_image polygon screen_content)
  = Np.shape laptop_image.
Proof.
  unfold replace_screen_with_perspective, replace_screen_with_perspective_try.
  destruct (Geometry.len polygon <? 4); [reflexivity|].
  destruct (Geometry.order_points _ _) as [ordered|]; [|reflexivity]. cbn [bind].
  destruct (getPerspectiveTransform _ ordered) as [M|]; [|reflexivity]. cbn [bind].
  destruct (Cv2.warpPerspective _ M _ _) as [warped|] eqn:Ew; [|reflexivity]. cbn [bind].
  unfold Draw.zeros, Np.full.
  destruct ((Np.height laptop_image <? 0) || (Np.width laptop_image <? 0)); [reflexivity|].
  cbn [bind]. unfold Draw.fillConvexPoly, Cv2.is_empty at 1. cbn [Np.height Np.width].
  destruct ((Np.height laptop_image <=? 0) || (Np.width laptop_image <=? 0)) eqn:Ee;
    [reflexivity|].
  unfold Cv2.warpPerspective in Ew. rewrite (orb_comm (Np.width _ <=? 0)), Ee in Ew.
  destruct (Cv2.is_empty screen_content); [discriminate|]. injection Ew as <-.
  destruct (Np.zip_with pair _ _) as [content_part|] eqn:E1; [|reflexivity]. cbn [bind].
  destruct (Np.zip_with pair laptop_image _) as [result_part|] eqn:E2; [|reflexivity].
  cbn [bind].
  destruct (Np.zip_with _ content_part result_part) as [blended|] eqn:E3; [|reflexivity].
  cbn [try_except].
  apply zip_with_shape in E1; [|reflexivity|reflexivity].
  apply zip_with_shape in E2; [|reflexivity|reflexivity].
  unfold Np.shape in E1, E2. cbn [Np.height Np.width] in E1.
  injection E1 as E1h E1w. injection E2 as E2h E2w.
  apply zip_with_shape in E3; [|congruence|congruence].
  rewrite E3. unfold Np.shape. congruence.
Qed.

End ScreenFillProofs.

(** ** Framing engine: the other crops *)

Module CroppingProofs.

Import Spec Reference ReferenceDraw Cropping CropperProofs.

(** A crop whose bounds lie inside the array, in order. *)
Lemma crop_inside {A : Type} (a : Np.ndarray A) (y0 y1 x0 x1 : Z) :
  0 <= y0 <= y1 -> y1 <= Np.height a -> 0 <= x0 <= x1 -> x1 <= Np.width a ->
  Np.crop a y0 y1 x0 x1
  = Np.mk_array (y1 - y0) (x1 - x0) (fun y x => Np.item a (y0 + y) (x0 + x)).
Proof.
  intros Hy Hy1 Hx Hx1. unfold Np.crop.
  pose proof (slice_inside (Np.height a) y0 (y1 - y0)) as Sy.
  pose proof (slice_inside (Np.width a) x0 (x1 - x0)) as Sx.
  replace (y0 + (y1 - y0)) with y1 in Sy by lia.
  replace (x0 + (x1 - x0)) with x1 in Sx by lia.
  rewrite Sy, Sx by lia. reflexivity.
Qed.

(** A crop whose bounds lie inside the array, out of order on one
    axis, is empty. *)
Lemma crop_reversed {A : Type} (a : Np.ndarray A) (y0 y1 x0 x1 : Z) :
  0 <= y0 <= Np.height a -> 0 <= y1 <= Np.height a ->
  0 <= x0 <= Np.width a -> 0 <= x1 <= Np.width a ->
  y1 <= y0 \/ x1 <= x0 ->
  Cv2.is_empty (Np.crop a y0 y1 x0 x1) = true.
Proof.
  intros Hy0 Hy1 Hx0 Hx1 Hrev. unfold Np.crop, Np.slice, Np.slice_bound, Cv2.is_empty.
  destruct (y0 <? 0) eqn:Ey; [apply Z.ltb_lt in Ey; lia|].
  destruct (x0 <? 0) eqn:Ex; [apply Z.ltb_lt in Ex; lia|].
  destruct (y1 <? 0) eqn:Ey1; [apply Z.ltb_lt in Ey1; lia|].
  destruct (x1 <? 0) eqn:Ex1; [apply Z.ltb_lt in Ex1; lia|].
  cbn [Np.height Np.width]. apply orb_true_iff. rewrite !Z.leb_le. lia.
Qed.

(** For an origin that is not negative, [crop_to_bbox] returns the
    part of the image under the intersection of the box with the image
    rectangle, and an image with no cells when they do not meet. *)
Theorem crop_to_bbox_intersection (img : image) (x y width height : Z) :
  0 <= Np.height img -> 0 <= Np.width img -> 0 <= x -> 0 <= y ->
  match Boxes.intersection (Boxes.mkBoundingBox x y width height)
          (Boxes.mkBoundingBox 0 0 (Np.width img) (Np.height img)) with
  | Some c =>
      crop_to_bbox img x y width height
      = Np.mk_array (Boxes.height c) (Boxes.width c)
          (fun j i => Np.item img (Boxes.y c + j) (Boxes.x c + i))
  | None => Cv2.is_empty (crop_to_bbox img x y width height) = true
  end.
Proof.
  intros Hh Hw Hx Hy.
  unfold Boxes.intersection, Boxes.x1, Boxes.x2, Boxes.y1, Boxes.y2.
  cbn [Boxes.x Boxes.y Boxes.width Boxes.height].
  unfold crop_to_bbox, crop_to_bbox_try. cbn [try_except].
  destruct (_ || _) eqn:E.
  - apply orb_true_iff in E. rewrite !Z.leb_le in E.
    apply crop_reversed; lia.
  - apply orb_false_iff in E. rewrite !Z.leb_gt in E.
    cbn [Boxes.x Boxes.y Boxes.width Boxes.height].
    assert (X0 : Z.max 0 (Z.min x (Np.width img)) = x) by lia.
    assert (Y0 : Z.max 0 (Z.min y (Np.height img)) = y) by lia.
    rewrite X0, Y0.
    assert (X1 : Z.max 0 (Z.min (x + width) (Np.width img))
                 = Z.min (x + width) (0 + Np.width img)) by lia.
    assert (Y1 : Z.max 0 (Z.min (y + height) (Np.height img))
                 = Z.min (y + height) (0 + Np.height img)) by lia.
    rewrite X1, Y1, (Z.max_l x 0), (Z.max_l y 0) by lia.
    apply crop_inside; lia.
Qed.

Lemma crop_to_bbox_intersection_witness :
  crop_to_bbox (uniform 4 6 black) 2 1 10 2
  = Np.mk_array 2 4 (fun j i => Np.item (uniform 4 6 black) (1 + j) (2 + i)).
Proof.
  apply (crop_to_bbox_intersection (uniform 4 6 black) 2 1 10 2); simpl; lia.
Defined.

(** An origin left of or above the image is moved to the edge, and
    the width and height are then counted from the edge: the part of
    the box that lay outside is not taken off them. *)
Theorem crop_to_bbox_negative_origin (img : image) (x y width height : Z) :
  0 <= Np.height img -> 0 <= Np.width img -> x <= 0 -> y <= 0 ->
  crop_to_bbox img x y width height = crop_to_bbox img 0 0 width height.
Proof.
  intros Hh Hw Hx Hy. unfold crop_to_bbox, crop_to_bbox_try. cbn [try_except].
  assert (X0 : Z.max 0 (Z.min x (Np.width img)) = 0) by lia.
  assert (Y0 : Z.max 0 (Z.min y (Np.height img)) = 0) by lia.
  assert (X1 : Z.max 0 (Z.min 0 (Np.width img)) = 0) by lia.
  assert (Y1 : Z.max 0 (Z.min 0 (Np.height img)) = 0) by lia.
  rewrite X0, Y0, X1, Y1. reflexivity.
Qed.

Lemma crop_to_bbox_negative_origin_witness :
  crop_to_bbox (uniform 4 6 black) (-3) (-1) 5 2 = crop_to_bbox (uniform 4 6 black) 0 0 5 2.
Proof.
  apply crop_to_bbox_negative_origin; simpl; lia.
Defined.

(** [a] and [b] have the same shape and the same cells. *)
Definition same_cells {A : Type} (a b : Np.ndarray A) : Prop :=
  Np.shape a = Np.shape b /\
  forall y x, 0 <= y < Np.height a -> 0 <= x < Np.width a -> Np.item a y x = Np.item b y x.

(** [padded] is [img] with [top], [bottom], [left] and [right] rows
    and columns of [color] around it. *)
Definition padded_from (img : image) (color : pixel) (top bottom left right : Z)
  (padded : image) : Prop :=
  Np.shape padded = (Np.height img + top + bottom, Np.width img + left + right) /\
  forall y x, 0 <= y < Np.height padded -> 0 <= x < Np.width padded ->
    Np.item padded y x
    = if (top <=? y) && (y <? top + Np.height img)
         && (left <=? x) && (x <? left + Np.width img)
      then Np.item img (y - top) (x - left)
      else color.

Lemma unpadded (img : image) (color : pixel) : padded_from img color 0 0 0 0 img.
Proof.
  split; [unfold Np.shape; f_equal; lia|].
  intros y x Hy Hx. rewrite !Z.sub_0_r.
  destruct (_ && _) eqn:E; [reflexivity|].
  rewrite !andb_false_iff, !Z.leb_gt, !Z.ltb_ge in E. lia.
Qed.

Lemma copyMakeBorder_padded `{Raster} (img padded : image) (top bottom left right : Z)
  (color : pixel) :
  0 < Np.height img -> 0 < Np.width img ->
  Draw.copyMakeBorder img top bottom left right color = Some padded ->
  0 <= top /\ 0 <= bottom /\ 0 <= left /\ 0 <= right /\
  padded_from img color top bottom left right padded.
Proof.
  intros Hh Hw. unfold Draw.copyMakeBorder.
  destruct (_ || _) eqn:E; [discriminate|].
  rewrite !orb_false_iff, !Z.ltb_ge in E.
  unfold Cv2.is_empty.
  destruct (_ || _) eqn:Ee;
    [rewrite orb_true_iff, !Z.leb_le in Ee; lia|].
  intros [= <-]. repeat split; try lia.
Qed.

(** Cutting the padded image at the offset of the original gives the
    original back. *)
Lemma padded_round_trip (img padded : image) (color : pixel) (top bottom left right : Z) :
  0 <= Np.height img -> 0 <= Np.width img ->
  0 <= top -> 0 <= bottom -> 0 <= left -> 0 <= right ->
  padded_from img color top bottom left right padded ->
  same_cells (crop_to_bbox padded left top (Np.width img) (Np.height img)) img.
Proof.
  intros Hh Hw Ht Hb Hl Hr [Hs Hi]. unfold Np.shape in Hs. injection Hs as Sh Sw.
  unfold crop_to_bbox, crop_to_bbox_try. cbn [try_except].
  assert (X0 : Z.max 0 (Z.min left (Np.width padded)) = left) by lia.
  assert (Y0 : Z.max 0 (Z.min top (Np.height padded)) = top) by lia.
  rewrite X0, Y0.
  assert (X1 : Z.max 0 (Z.min (left + Np.width img) (Np.width padded))
               = left + Np.width img) by lia.
  assert (Y1 : Z.max 0 (Z.min (top + Np.height img) (Np.height padded))
               = top + Np.height img) by lia.
  rewrite X1, Y1, crop_inside by lia.
  split.
  - unfold Np.shape. cbn [Np.height Np.width]. f_equal; lia.
  - cbn [Np.height Np.width Np.item]. intros y x Hy Hx.
    rewrite Hi by lia.
    destruct (_ && _) eqn:E.
    + f_equal; lia.
    + rewrite !andb_false_iff, !Z.leb_gt, !Z.ltb_ge in E. lia.
Qed.

Lemma halves (total : Z) :
  0 <= total / 2 -> 0 <= total - total / 2 ->
  total / 2 <= total - total / 2 <= total / 2 + 1.
Proof.
  intros H1 H2.
  pose proof (Z.div_mod total 2 ltac:(lia)).
  pose proof (Z.mod_pos_bound total 2 ltac:(lia)). lia.
Qed.

(** [padded] is [img] with margins of [color] on one axis only, the
    two margins differing by at most one with the larger one last, and
    [crop_to_bbox] at the offset of [img] gives [img] back. *)
Definition keeps_picture (img : image) (color : pixel) (padded : image) : Prop :=
  exists top bottom left right,
    (0 <= top <= bottom /\ bottom <= top + 1) /\
    (0 <= left <= right /\ right <= left + 1) /\
    (top + bottom = 0 \/ left + right = 0) /\
    padded_from img color top bottom left right padded /\
    same_cells (crop_to_bbox padded left top (Np.width img) (Np.height img)) img.

Lemma keeps_picture_intro (img padded : image) (color : pixel) (top bottom left right : Z) :
  0 <= Np.height img -> 0 <= Np.width img ->
  0 <= top <= bottom /\ bottom <= top + 1 ->
  0 <= left <= right /\ right <= left + 1 ->
  top + bottom = 0 \/ left + right = 0 ->
  padded_from img color top bottom left right padded ->
  keeps_picture img color padded.
Proof.
  intros Hh Hw Ht Hl Hone Hp. exists top, bottom, left, right.
  split; [exact Ht|]. split; [exact Hl|]. split; [exact Hone|]. split; [exact Hp|].
  apply (padded_round_trip img padded color top bottom left right); try lia. exact Hp.
Qed.

(** Padding keeps the picture: the output of [pad_to_aspect_ratio] is
    the input with rows of the padding colour above and below, or
    columns of it to the left and right, never both; the two margins
    differ by at most one, the trailing one being the larger; and
    [crop_to_bbox] at the offset of the input gives the input back.
    This covers the runs in which nothing is added. *)
Theorem pad_to_aspect_ratio_keeps `{Raster} (img : image) (ratio : float) (color : pixel) :
  0 < Np.height img -> 0 < Np.width img ->
  keeps_picture img color (pad_to_aspect_ratio img ratio color).
Proof.
  intros Hh Hw.
  assert (Hnone : keeps_picture img color img).
  { apply (keeps_picture_intro img img color 0 0 0 0); try lia.
    apply unpadded. }
  unfold pad_to_aspect_ratio, pad_to_aspect_ratio_try.
  destruct (Py.truediv_int _ _) as [current|]; [|exact Hnone]. cbn [bind].
  destruct (PrimFloat.ltb (abs _) _); [exact Hnone|].
  destruct (PrimFloat.ltb current ratio).
  - destruct (Py.int_of_float _) as [new_width|]; [|exact Hnone]. cbn [bind].
    destruct (Draw.copyMakeBorder _ _ _ _ _ _) as [padded|] eqn:Ep; [|exact Hnone].
    cbn [try_except].
    destruct (copyMakeBorder_padded _ _ _ _ _ _ _ Hh Hw Ep) as (_ & _ & Hl & Hr & Hp).
    pose proof (halves _ Hl Hr).
    eapply keeps_picture_intro; [| | | | |exact Hp]; lia.
  - destruct (Py.truediv _ _) as [q|]; [|exact Hnone]. cbn [bind].
    destruct (Py.int_of_float _) as [new_height|]; [|exact Hnone]. cbn [bind].
    destruct (Draw.copyMakeBorder _ _ _ _ _ _) as [padded|] eqn:Ep; [|exact Hnone].
    cbn [try_except].
    destruct (copyMakeBorder_padded _ _ _ _ _ _ _ Hh Hw Ep) as (Ht & Hb & _ & _ & Hp).
    pose proof (halves _ Ht Hb).
    eapply keeps_picture_intro; [| | | | |exact Hp]; lia.
Qed.

Lemma pad_to_aspect_ratio_keeps_witness :
  keeps_picture (uniform 2 2 black) white
    (pad_to_aspect_ratio (uniform 2 2 black) 2 white).
Proof.
  apply pad_to_aspect_ratio_keeps; simpl; lia.
Defined.

(** A run that pads: a 2 by 2 image padded to the ratio 2 gets one
    column on each side. *)
Example pad_to_aspect_ratio_columns :
  Np.shape (pad_to_aspect_ratio (uniform 2 2 black) 2 white) = (2, 4).
Proof. vm_compute. reflexivity. Qed.

(** [resize] to an explicit positive size, proportions ignored. *)
Lemma resize_exact `{Backend} (img : image) (width height interp : Z) :
  0 < width -> 0 < height ->
  ImageResizer.resize img (Some width) (Some height) false interp
  = if Cv2.is_empty img then img
    else Np.mk_array height width (resize_sample interp img width height).
Proof.
  intros Hw Hh. unfold ImageResizer.resize, ImageResizer.resize_try, Py.or_int.
  destruct (width =? 0) eqn:E1; [apply Z.eqb_eq in E1; lia|].
  destruct (height =? 0) eqn:E2; [apply Z.eqb_eq in E2; lia|].
  cbn [bind]. unfold Cv2.resize.
  destruct (width <=? 0) eqn:E3; [apply Z.leb_le in E3; lia|].
  destruct (height <=? 0) eqn:E4; [apply Z.leb_le in E4; lia|].
  rewrite !orb_false_r. now destruct (Cv2.is_empty img).
Qed.

(** [smart_crop] of an image with cells to a positive target size
    returns an image of exactly that size, or one with no cells: the
    latter when the crop to the target ratio leaves nothing to scale. *)
Theorem smart_crop_size `{Backend} (img : image) (target_width target_height : Z) :
  0 < Np.height img -> 0 < Np.width img -> 0 < target_width -> 0 < target_height ->
  Np.shape (smart_crop img target_width target_height) = (target_height, target_width) \/
  Cv2.is_empty (smart_crop img target_width target_height) = true.
Proof.
  intros Hh Hw Htw Hth. unfold smart_crop, smart_crop_try, Py.truediv_int.
  destruct (target_height =? 0) eqn:E1; [apply Z.eqb_eq in E1; lia|].
  destruct (Np.height img =? 0) eqn:E2; [apply Z.eqb_eq in E2; lia|].
  cbn [bind].
  destruct (_ && _) eqn:Esame.
  - apply andb_true_iff in Esame. rewrite !Z.eqb_eq in Esame.
    left. cbn [try_except]. unfold Np.shape. f_equal; lia.
  - cbn [try_except]. rewrite resize_exact by assumption.
    destruct (Cv2.is_empty _) eqn:Ee; [now right|now left].
Qed.

Lemma smart_crop_size_witness :
  Np.shape (smart_crop (uniform 100 200 black) 50 40) = (40, 50) \/
  Cv2.is_empty (smart_crop (uniform 100 200 black) 50 40) = true.
Proof.
  apply smart_crop_size; simpl; lia.
Defined.

(** A run of [smart_crop] that returns an image with no cells: a
    100 by 100 image cut for a target of 1 by 1000. *)
Example smart_crop_nothing_left :
  Np.shape (smart_crop (uniform 100 100 black) 1 1000) = (100, 0).
Proof. vm_compute. reflexivity. Qed.

Lemma fold_min_le (l : list Z) (v : Z) :
  fold_left Z.min l v <= v /\ forall a, In a l -> fold_left Z.min l v <= a.
Proof.
  revert v. induction l as [|k l IH]; intro v; cbn [fold_left In].
  - split; [lia|contradiction].
  - destruct (IH (Z.min v k)) as [H1 H2]. split; [lia|].
    intros a [<-|Ha]; [lia|now apply H2].
Qed.

Lemma fold_max_ge (l : list Z) (v : Z) :
  v <= fold_left Z.max l v /\ forall a, In a l -> a <= fold_left Z.max l v.
Proof.
  revert v. induction l as [|k l IH]; intro v; cbn [fold_left In].
  - split; [lia|contradiction].
  - destruct (IH (Z.max v k)) as [H1 H2]. split; [lia|].
    intros a [<-|Ha]; [lia|now apply H2].
Qed.

(** The bounding rectangle holds every point of its contour. *)
Lemma boundingRect_covers (c : Geometry.contour) (px py x y w h : Z) :
  Draw.boundingRect c = (x, y, w, h) -> In (px, py) c ->
  x <= px < x + w /\ y <= py < y + h.
Proof.
  destruct c as [|p ps]; [contradiction|]. unfold Draw.boundingRect.
  intros [= <- <- <- <-] Hin.
  destruct (fold_min_le (map fst ps) (fst p)) as [X1 X2].
  destruct (fold_max_ge (map fst ps) (fst p)) as [X3 X4].
  destruct (fold_min_le (map snd ps) (snd p)) as [Y1 Y2].
  destruct (fold_max_ge (map snd ps) (snd p)) as [Y3 Y4].
  destruct Hin as [->|Hin].
  - cbn [fst snd] in *. lia.
  - pose proof (in_map fst _ _ Hin) as Hx. pose proof (in_map snd _ _ Hin) as Hy.
    cbn [fst snd] in Hx, Hy.
    specialize (X2 _ Hx). specialize (X4 _ Hx).
    specialize (Y2 _ Hy). specialize (Y4 _ Hy). lia.
Qed.

(** The loop over the contours only widens the box, and the box it
    ends with holds every point of every contour. *)
Lemma extend_all (cs : list Geometry.contour) :
  forall x_min y_min x_max y_max a b c d,
  fold_left extend cs (x_min, y_min, x_max, y_max) = (a, b, c, d) ->
  (a <= x_min /\ b <= y_min /\ x_max <= c /\ y_max <= d) /\
  forall c0 px py, In c0 cs -> In (px, py) c0 -> a <= px < c /\ b <= py < d.
Proof.
  induction cs as [|k cs IH]; intros x_min y_min x_max y_max a b c d; cbn [fold_left].
  - intros [= <- <- <- <-]. split; [lia|]. intros c0 px py [].
  - unfold extend at 2.
    destruct (Draw.boundingRect k) as [[[x y] w] h] eqn:Ek.
    intro Hf. destruct (IH _ _ _ _ _ _ _ _ Hf) as [Hw Hc].
    split; [lia|].
    intros c0 px py [<-|Hin] Hp.
    + pose proof (boundingRect_covers _ _ _ _ _ _ _ Ek Hp). lia.
    + now apply (Hc c0).
Qed.

(** A crop between bounds that are not negative. *)
Lemma crop_window {A : Type} (a : Np.ndarray A) (y0 y1 x0 x1 : Z) :
  0 <= y0 -> 0 <= y1 -> 0 <= x0 -> 0 <= x1 ->
  Np.crop a y0 y1 x0 x1
  = Np.mk_array
      (Z.max 0 (Z.min y1 (Np.height a) - Z.min y0 (Np.height a)))
      (Z.max 0 (Z.min x1 (Np.width a) - Z.min x0 (Np.width a)))
      (fun y x => Np.item a (Z.min y0 (Np.height a) + y) (Z.min x0 (Np.width a) + x)).
Proof.
  intros Hy0 Hy1 Hx0 Hx1. unfold Np.crop, Np.slice, Np.slice_bound.
  destruct (y0 <? 0) eqn:Ey; [apply Z.ltb_lt in Ey; lia|].
  destruct (x0 <? 0) eqn:Ex; [apply Z.ltb_lt in Ex; lia|].
  destruct (y1 <? 0) eqn:Ey1; [apply Z.ltb_lt in Ey1; lia|].
  destruct (x1 <? 0) eqn:Ex1; [apply Z.ltb_lt in Ex1; lia|].
  reflexivity.
Qed.

(** The mask [auto_crop] hands to [cv2.findContours]: 255 where the
    pixel is farther than 30 from the background colour on some
    channel. *)
Definition content_mask (img : image) (background_color : pixel) : mask :=
  let '(r, g, b) := background_color in
  Draw.bitwise_not
    (Draw.inRange img
       (Z.max 0 (r - 30), Z.max 0 (g - 30), Z.max 0 (b - 30))
       (Z.min 255 (r + 30), Z.min 255 (g + 30), Z.min 255 (b + 30))).

(** With a margin that is not negative, [auto_crop] returns a window
    of the image, at some offset [(x0, y0)], that holds every contour
    point lying in the image: no content is cut away.  When no contour
    is found the image itself is returned. *)
Theorem auto_crop_keeps_contours `{Backend} (img : image) (background_color : pixel)
  (margin : Z) :
  0 <= margin -> 0 <= Np.height img -> 0 <= Np.width img ->
  (exists x0 y0,
    (0 <= x0 /\ x0 + Np.width (auto_crop img background_color margin) <= Np.width img) /\
    (0 <= y0 /\ y0 + Np.height (auto_crop img background_color margin) <= Np.height img) /\
    (forall j i, Np.item (auto_crop img background_color margin) j i
                 = Np.item img (y0 + j) (x0 + i)) /\
    forall c px py,
      In c (findContours (content_mask img background_color)) -> In (px, py) c ->
      0 <= px < Np.width img -> 0 <= py < Np.height img ->
      x0 <= px < x0 + Np.width (auto_crop img background_color margin) /\
      y0 <= py < y0 + Np.height (auto_crop img background_color margin)) /\
  (findContours (content_mask img background_color) = [] ->
   auto_crop img background_color margin = img).
Proof.
  intros Hm Hh Hw. unfold auto_crop, auto_crop_try, content_mask.
  destruct background_color as [[r g] b]. cbv zeta.
  destruct (findContours _) as [|c0 cs] eqn:Ec.
  - cbn [try_except]. split; [|reflexivity].
    exists 0, 0. split; [lia|]. split; [lia|].
    split; [reflexivity|]. intros c px py [].
  - split; [|discriminate].
    destruct (fold_left extend (c0 :: cs) _) as [[[x_min y_min] x_max] y_max] eqn:Ef.
    cbn [try_except].
    destruct (extend_all _ _ _ _ _ _ _ _ _ Ef) as [Hwide Hcov].
    rewrite crop_window by lia. cbn [Np.height Np.width Np.item].
    exists (Z.min (Z.max 0 (x_min - margin)) (Np.width img)),
           (Z.min (Z.max 0 (y_min - margin)) (Np.height img)).
    split; [lia|]. split; [lia|]. split; [reflexivity|].
    intros c px py Hc Hp Hx Hy.
    specialize (Hcov c px py Hc Hp). lia.
Qed.

Lemma auto_crop_keeps_contours_witness :
  (exists x0 y0,
    (0 <= x0 /\ x0 + Np.width (auto_crop (uniform 4 4 black) white 1) <= 4) /\
    (0 <= y0 /\ y0 + Np.height (auto_crop (uniform 4 4 black) white 1) <= 4) /\
    (forall j i, Np.item (auto_crop (uniform 4 4 black) white 1) j i
                 = Np.item (uniform 4 4 black) (y0 + j) (x0 + i)) /\
    forall c px py,
      In c (findContours (content_mask (uniform 4 4 black) white)) -> In (px, py) c ->
      0 <= px < 4 -> 0 <= py < 4 ->
      x0 <= px < x0 + Np.width (auto_crop (uniform 4 4 black) white 1) /\
      y0 <= py < y0 + Np.height (auto_crop (uniform 4 4 black) white 1)) /\
  (findContours (content_mask (uniform 4 4 black) white) = [] ->
   auto_crop (uniform 4 4 black) white 1 = uniform 4 4 black).
Proof.
  apply (auto_crop_keeps_contours (uniform 4 4 black) white 1); simpl; lia.
Defined.

(** A run with no contour: an image of the background colour comes
    back as it is. *)
Example auto_crop_background :
  findContours (content_mask (uniform 4 4 white) white) = [] /\
  auto_crop (uniform 4 4 white) white 1 = uniform 4 4 white.
Proof. split; reflexivity. Qed.

End CroppingProofs.

(** ** Perspective transformer: extraction and warping *)

Module WarpingProofs.

Import Reference Warping.

(** [extract_screen_region] is [correct_perspective_distortion] with
    no target ratio: the two functions return the same result on every
    input. *)
Theorem extract_screen_region_uncorrected `{Backend} (img : image)
  (polygon : Geometry.Polygon) :
  extract_screen_region img polygon
  = PerspectiveTransformer.correct_perspective_distortion img polygon None.
Proof.
  unfold extract_screen_region, extract_screen_region_try,
    PerspectiveTransformer.correct_perspective_distortion,
    PerspectiveTransformer.correct_perspective_distortion_try,
    PerspectiveTransformer.corrected_size.
  destruct (Geometry.len polygon <? 4); [reflexivity|].
  destruct (Geometry.order_points _ _) as [ordered|]; [|reflexivity]. cbn [bind].
  destruct (Geometry.calculate_perspective_size Np.float32 ordered) as [[width height]|];
    reflexivity.
Qed.

(** For a canvas of positive height and width, [warp_image_to_polygon]
    raises nothing and returns an image of the shape of the canvas; it
    is black all over when the polygon has fewer than four points. *)
Theorem warp_image_to_polygon_canvas `{Backend} (img : image)
  (polygon : Geometry.Polygon) (canvas_height canvas_width : Z) :
  0 < canvas_height -> 0 < canvas_width ->
  exists warped,
    warp_image_to_polygon img polygon (canvas_height, canvas_width) = Some warped /\
    Np.shape warped = (canvas_height, canvas_width) /\
    (Geometry.len polygon < 4 -> forall y x, Np.item warped y x = black).
Proof.
  intros Hh Hw.
  assert (Hz : Draw.zeros3 canvas_height canvas_width
               = Some (Np.mk_array canvas_height canvas_width (fun _ _ => black))).
  { unfold Draw.zeros3, Np.full.
    destruct (canvas_height <? 0) eqn:E1; [apply Z.ltb_lt in E1; lia|].
    destruct (canvas_width <? 0) eqn:E2; [apply Z.ltb_lt in E2; lia|]. reflexivity. }
  unfold warp_image_to_polygon, warp_image_to_polygon_try. cbn [fst snd].
  destruct (Geometry.len polygon <? 4) eqn:El.
  - rewrite Hz. eexists. split; [reflexivity|]. split; reflexivity.
  - apply Z.ltb_ge in El.
    assert (Hblack : exists warped,
      Draw.zeros3 canvas_height canvas_width = Some warped /\
      Np.shape warped = (canvas_height, canvas_width) /\
      (Geometry.len polygon < 4 -> forall y x, Np.item warped y x = black)).
    { rewrite Hz. eexists. split; [reflexivity|]. split; reflexivity. }
    destruct (Geometry.order_points _ _) as [dst|]; [|exact Hblack]. cbn [bind].
    destruct (getPerspectiveTransform _ dst) as [M|]; [|exact Hblack]. cbn [bind].
    unfold Cv2.warpPerspective.
    destruct (Cv2.is_empty img); [exact Hblack|].
    destruct (canvas_width <=? 0) eqn:E1; [apply Z.leb_le in E1; lia|].
    destruct (canvas_height <=? 0) eqn:E2; [apply Z.leb_le in E2; lia|].
    cbn [orb]. eexists. split; [reflexivity|]. split; [reflexivity|]. lia.
Qed.

Lemma warp_image_to_polygon_canvas_witness :
  exists warped,
    warp_image_to_polygon (uniform 2 2 white) (Geometry.mkPolygon [pt 0 0; pt 3 0]) (4, 6)
      = Some warped /\
    Np.shape warped = (4, 6) /\
    (Geometry.len (Geometry.mkPolygon [pt 0 0; pt 3 0]) < 4 ->
     forall y x, Np.item warped y x = black).
Proof.
  apply warp_image_to_polygon_canvas; lia.
Defined.

End WarpingProofs.

(** ** Framing engine: scale factors *)

Module ScalingProofs.

Import Strings.String Scaling.

(** The comparison of two binary64 values, read in one direction and
    in the other. *)
Lemma SFcompare_swap (a b : spec_float) :
  SFcompare b a = option_map CompOpp (SFcompare a b).
Proof.
  destruct a as [sa|sa| |sa ma ea], b as [sb|sb| |sb mb eb]; cbn [SFcompare option_map];
    try reflexivity;
    try (now destruct sa); try (now destruct sb); try (now destruct sa, sb).
  destruct sa, sb; cbn [CompOpp]; try reflexivity.
  - rewrite (Z.compare_antisym ea eb).
    destruct (ea ?= eb)%Z; cbn [CompOpp]; try reflexivity.
    change (PosDef.Pos.compare_cont Eq mb ma) with (Pos.compare mb ma).
    change (PosDef.Pos.compare_cont Eq ma mb) with (Pos.compare ma mb).
    rewrite (Pos.compare_antisym ma mb). now rewrite CompOpp_involutive.
  - rewrite (Z.compare_antisym ea eb).
    destruct (ea ?= eb)%Z; cbn [CompOpp]; try reflexivity.
    change (PosDef.Pos.compare_cont Eq mb ma) with (Pos.compare mb ma).
    change (PosDef.Pos.compare_cont Eq ma mb) with (Pos.compare ma mb).
    now rewrite (Pos.compare_antisym ma mb).
Qed.

Lemma ltb_asym (a b : float) : PrimFloat.ltb a b = true -> PrimFloat.ltb b a = false.
Proof.
  rewrite !FloatAxioms.ltb_spec. unfold SFltb.
  rewrite (SFcompare_swap (Prim2SF a) (Prim2SF b)).
  now destruct (SFcompare (Prim2SF a) (Prim2SF b)) as [[]|].
Qed.

Lemma ltb_irrefl (a : float) : PrimFloat.ltb a a = false.
Proof.
  destruct (PrimFloat.ltb a a) eqn:E; [|reflexivity].
  pose proof (ltb_asym a a E). congruence.
Qed.

(** [get_optimal_scale] knows two modes, "fit" and everything else.
    Both raise when the image has a zero height or width and only
    then, and the scale of the second mode is never below the scale
    of "fit". *)
Theorem get_optimal_scale_modes (h w target_width target_height : Z)
  (fit_mode : String.string) :
  get_optimal_scale (h, w) target_width target_height fit_mode
  = get_optimal_scale (h, w) target_width target_height
      (if String.eqb fit_mode "fit" then "fit" else "fill")%string /\
  match get_optimal_scale (h, w) target_width target_height "fit"%string,
        get_optimal_scale (h, w) target_width target_height "fill"%string with
  | Some fit, Some fill => PrimFloat.ltb fill fit = false /\ h <> 0 /\ w <> 0
  | None, None => h = 0 \/ w = 0
  | _, _ => False
  end.
Proof.
  split.
  - unfold get_optimal_scale.
    destruct (String.eqb fit_mode "fit") eqn:E; [reflexivity|].
    change (String.eqb "fill" "fit") with false. reflexivity.
  - unfold get_optimal_scale, Py.truediv_int.
    change (String.eqb "fit" "fit") with true.
    change (String.eqb "fill" "fit") with false.
    destruct (w =? 0) eqn:Ew; [apply Z.eqb_eq in Ew; now right|].
    destruct (h =? 0) eqn:Eh; [apply Z.eqb_eq in Eh; now left|].
    apply Z.eqb_neq in Ew, Eh.
    cbn [bind]. unfold Py.min, max.
    set (scale_w := (Py.float_of_int target_width / Py.float_of_int w)%float).
    set (scale_h := (Py.float_of_int target_height / Py.float_of_int h)%float).
    split; [|split; assumption].
    destruct (PrimFloat.ltb scale_h scale_w) eqn:E1.
    + rewrite (ltb_asym _ _ E1). exact (ltb_asym _ _ E1).
    + destruct (PrimFloat.ltb scale_w scale_h) eqn:E2; [exact E1|apply ltb_irrefl].
Qed.

End ScalingProofs.

(** ** Batch report *)

Module ProcessorProofs.

Import Processor.

Lemma count_from (cond : ProcessingResult -> bool) (results : list ProcessingResult)
  (acc : Z) :
  fold_left (fun acc r => if cond r then acc + 1 else acc) results acc
  = acc + Z.of_nat (length (filter cond results)).
Proof.
  revert acc. induction results as [|r results IH]; intro acc; cbn [fold_left filter].
  - cbn [length]. lia.
  - rewrite IH. destruct (cond r); cbn [length]; lia.
Qed.

Lemma count_filter (cond : ProcessingResult -> bool) (results : list ProcessingResult) :
  count cond results = Z.of_nat (length (filter cond results)).
Proof. unfold count. now rewrite count_from. Qed.

Lemma filter_split (cond : ProcessingResult -> bool) (results : list ProcessingResult) :
  (length (filter cond results) + length (filter (fun r => negb (cond r)) results)
   = length results)%nat.
Proof.
  induction results as [|r results IH]; [reflexivity|].
  cbn [filter]. destruct (cond r); cbn [negb length]; lia.
Qed.

(** The batch report is consistent: the successes and the failures
    add up to the number of results, no count is negative or above the
    total, [failed_files] names one file per failure, in the order of
    the results, and it is empty exactly when every result is a
    success. *)
Theorem get_processing_report_counts (results : list ProcessingResult) :
  total_files (get_processing_report results) = Z.of_nat (length results) /\
  successful (get_processing_report results) + failed (get_processing_report results)
    = total_files (get_processing_report results) /\
  0 <= successful (get_processing_report results) /\
  0 <= failed (get_processing_report results) /\
  0 <= screens_detected (get_processing_report results)
    <= total_files (get_processing_report results) /\
  Z.of_nat (length (failed_files (get_processing_report results)))
    = failed (get_processing_report results) /\
  (failed_files (get_processing_report results) = [] <->
   forallb success results = true).
Proof.
  unfold get_processing_report.
  cbn [total_files successful failed screens_detected failed_files].
  rewrite !count_filter, length_map.
  pose proof (filter_split success results).
  pose proof (filter_split screen_detected results).
  repeat split; try lia.
  - intro Hnil. apply map_eq_nil in Hnil.
    apply forallb_forall. intros r Hr.
    destruct (success r) eqn:E; [reflexivity|].
    assert (Hin : In r (filter (fun r => negb (success r)) results)).
    { apply filter_In. split; [exact Hr|]. now rewrite E. }
    rewrite Hnil in Hin. contradiction.
  - intro Hall. rewrite forallb_forall in Hall.
    destruct (filter (fun r => negb (success r)) results) as [|r rest] eqn:Ef;
      [reflexivity|].
    assert (Hin : In r (filter (fun r => negb (success r)) results))
      by (rewrite Ef; now left).
    apply filter_In in Hin. destruct Hin as [Hr Hs].
    rewrite (Hall r Hr) in Hs. discriminate.
Qed.

End ProcessorProofs.

(** ** File names *)

Module FileUtilsProofs.

Import Strings.String Strings.Ascii FileUtils.

(** A character that [safe_filename] replaces. *)
Definition is_invalid (c : ascii) : bool := existsb (Ascii.eqb c) invalid_chars.

Definition clean (c : ascii) : ascii := if is_invalid c then "_"%char else c.

Fixpoint each (f : ascii -> ascii) (s : string) : string :=
  match s with
  | EmptyString => EmptyString
  | String c s' => String (f c) (each f s')
  end.

Lemma clean_char (c : ascii) :
  fold_left (fun ch bad => if Ascii.eqb ch bad then "_"%char else ch) invalid_chars c
  = clean c.
Proof.
  destruct c as [[] [] [] [] [] [] [] []]; reflexivity.
Qed.

Lemma replace_all (bad : list ascii) (c : ascii) (s : string) :
  fold_left (fun name ch => replace ch "_"%char name) bad (String c s)
  = String (fold_left (fun ch b => if Ascii.eqb ch b then "_"%char else ch) bad c)
      (fold_left (fun name ch => replace ch "_"%char name) bad s).
Proof.
  revert c s. induction bad as [|b bad IH]; intros c s; cbn [fold_left]; [reflexivity|].
  cbn [replace]. apply IH.
Qed.

Lemma replace_none (bad : list ascii) :
  fold_left (fun name ch => replace ch "_"%char name) bad EmptyString = EmptyString.
Proof. induction bad as [|b bad IH]; [reflexivity|exact IH]. Qed.

Lemma safe_filename_each (s : string) : safe_filename s = each clean s.
Proof.
  unfold safe_filename. induction s as [|c s IH]; [apply replace_none|].
  rewrite replace_all, clean_char, IH. reflexivity.
Qed.

Lemma clean_valid (c : ascii) : is_invalid (clean c) = false.
Proof. destruct c as [[] [] [] [] [] [] [] []]; reflexivity. Qed.

(** [safe_filename] changes a name character by character: every
    character of the invalid set becomes an underscore and every other
    one stays where it is, so the length is kept, no invalid character
    is left, and a second pass changes nothing. *)
Theorem safe_filename_clean (s : string) :
  String.length (safe_filename s) = String.length s /\
  (forall i, String.get i (safe_filename s) = option_map clean (String.get i s)) /\
  (forall c, In c (list_ascii_of_string (safe_filename s)) -> is_invalid c = false) /\
  safe_filename (safe_filename s) = safe_filename s.
Proof.
  rewrite !safe_filename_each. repeat split.
  - induction s as [|c s IH]; [reflexivity|]. cbn [each String.length]. now rewrite IH.
  - induction s as [|c s IH]; intro i; [reflexivity|].
    destruct i as [|i]; [reflexivity|]. cbn [each String.get]. apply IH.
  - induction s as [|c s IH]; intros ch; cbn [each list_ascii_of_string In]; [contradiction|].
    intros [<-|Hin]; [apply clean_valid|now apply IH].
  - induction s as [|c s IH]; [reflexivity|]. cbn [each]. rewrite IH. f_equal.
    unfold clean at 1. now rewrite clean_valid.
Qed.

End FileUtilsProofs.

